(** * LiteX FHDL to Verilog back-end (litex/gen/fhdl/verilog.py)

    A shallow embedding of the Verilog generator: the statement renderer
    [_generate_node], the combinatorial, synchronous and specials emitters,
    the complex-slice lowerer and the orchestrating [convert].

    Imported collaborators (migen's IR helpers, the expression renderer, the
    namer) are not part of verilog.py; they enter as section variables, or as
    definitions marked as modelled. *)

From Stdlib Require Import ZArith Lia Ascii String.
From stdpp Require Import base strings list gmap sorting.

Set Warnings "-register-all".
Local Open Scope Z_scope.

(* ------------------------------------------------------------------ *)
(** ** Outcomes of a Python call                                        *)
(* ------------------------------------------------------------------ *)

(** The exceptions verilog.py raises or lets through. *)
Inductive exn : Type :=
| TypeError (msg : string)
| NotImplementedError (msg : string)
| Exception (msg : string)
| KeyError (key : string)
| AssertionError
| ZeroDivisionError.

(** A call returns, raises, or (in the model only) exhausts the recursion
    budget given to a loop that is not structurally recursive. *)
Inductive outcome (A : Type) : Type :=
| Ok (a : A)
| Raise (e : exn)
| OutOfFuel.
Arguments Ok {A} a.
Arguments Raise {A} e.
Arguments OutOfFuel {A}.

Definition obind {A B} (m : outcome A) (k : A -> outcome B) : outcome B :=
  match m with
  | Ok a => k a
  | Raise e => Raise e
  | OutOfFuel => OutOfFuel
  end.

Notation "x <~ m ; k" := (obind m (fun x => k))
  (at level 20, m at level 100, k at level 200, only parsing).
Notation "' pat <~ m ; k" := (obind m (fun x => match x with pat => k end))
  (at level 20, pat pattern, m at level 100, k at level 200, only parsing).

(** A call that does not exhaust a recursion budget. *)
Definition returns_or_raises {A} (m : outcome A) : Prop := m <> OutOfFuel.

Lemma obind_returns {A B} (m : outcome A) (k : A -> outcome B) :
  returns_or_raises m -> (forall a, returns_or_raises (k a)) ->
  returns_or_raises (obind m k).
Proof.
  intros Hm Hk. destruct m as [a| |]; simpl; [apply Hk|done|done].
Qed.

(* ------------------------------------------------------------------ *)
(** ** Python's [sorted] and the order on [str]                         *)
(* ------------------------------------------------------------------ *)

(** Python orders [str] by code point, lexicographically: stdpp's
    [String.le], a total order. *)
Abbreviation str_le := String.le.

Section PythonSorted.
Context {A K : Type} (le : relation K) `{!RelDecision le} (key : A -> K).

(** Insertion before the first element whose key is not smaller: elements
    with equal keys keep their order, as in Python's stable sort. *)
Fixpoint insert_by (x : A) (l : list A) : list A :=
  match l with
  | [] => [x]
  | y :: l' =>
      if decide (le (key x) (key y)) then x :: l else y :: insert_by x l'
  end.

(** [sorted(l, key=key)]. *)
Definition sorted (l : list A) : list A := foldr insert_by [] l.

Lemma insert_by_Permutation x l : insert_by x l ≡ₚ x :: l.
Proof.
  induction l as [|y l IH]; simpl; [done|].
  case_decide; [done|]. rewrite IH. apply Permutation_swap.
Qed.

Lemma sorted_Permutation l : sorted l ≡ₚ l.
Proof.
  induction l as [|x l IH]; simpl; [done|].
  by rewrite insert_by_Permutation, IH.
Qed.

Lemma elem_of_sorted x l : x ∈ sorted l <-> x ∈ l.
Proof. by rewrite sorted_Permutation. Qed.

Lemma sorted_length l : length (sorted l) = length l.
Proof. by rewrite sorted_Permutation. Qed.

Context `{!Total le}.

Lemma insert_by_Sorted x l :
  Sorted (fun a b => le (key a) (key b)) l ->
  Sorted (fun a b => le (key a) (key b)) (insert_by x l).
Proof.
  induction 1 as [|y l Hs IH Hhd]; simpl; [by repeat constructor|].
  case_decide as Hle.
  - constructor; [by constructor|by constructor].
  - constructor; [done|].
    destruct Hhd as [|z l Hyz]; simpl.
    + constructor. by destruct (total le (key x) (key y)).
    + case_decide; constructor; [|done].
      by destruct (total le (key x) (key y)).
Qed.

Lemma sorted_Sorted l : Sorted (fun a b => le (key a) (key b)) (sorted l).
Proof.
  induction l as [|x l IH]; simpl; [constructor|]. by apply insert_by_Sorted.
Qed.

Context `{!Transitive le, !AntiSymm (=) le}.

(** With pairwise distinct keys the result does not depend on the order in
    which the elements are presented. *)
Lemma sorted_Permutation_eq l1 l2 :
  NoDup (key <$> l1) -> l1 ≡ₚ l2 -> sorted l1 = sorted l2.
Proof.
  intros Hnd Hp.
  assert (Transitive (fun a b : A => le (key a) (key b))) as Htr.
  { intros a b c. apply transitivity. }
  apply (Sorted_unique_strong (fun a b => le (key a) (key b)));
    [|apply sorted_Sorted..|by rewrite !sorted_Permutation].
  intros x1 x2 Hx1 Hx2 H12 H21.
  apply (proj1 (elem_of_sorted _ _)) in Hx1.
  apply (proj1 (elem_of_sorted _ _)) in Hx2.
  rewrite <- Hp in Hx2.
  assert (key x1 = key x2) as Hk by (by apply (anti_symm le)).
  clear -Hnd Hx1 Hx2 Hk.
  induction l1 as [|y l IH]; [by apply elem_of_nil in Hx1|].
  rewrite fmap_cons in Hnd. apply NoDup_cons in Hnd as [Hy Hnd].
  apply elem_of_cons in Hx1 as [->|Hx1]; apply elem_of_cons in Hx2 as [->|Hx2];
    try done.
  - exfalso. apply Hy. rewrite Hk. by apply list_elem_of_fmap_2.
  - exfalso. apply Hy. rewrite <- Hk. by apply list_elem_of_fmap_2.
  - by apply IH.
Qed.
End PythonSorted.

(* ------------------------------------------------------------------ *)
(** ** The FHDL intermediate representation                             *)
(* ------------------------------------------------------------------ *)

(** migen's [Signal]: identity ([duid]), width, signedness, reset constant,
    the [variable] flag and the attribute set. *)
Record signal : Type := MkSignal {
  duid : Z;
  nbits : Z;
  signed : bool;
  reset : Z;
  variable : bool;
  name_override : option string;
  attr : list string
}.

(** Value expressions. *)
Inductive value : Type :=
| Constant (v : Z) (w : Z) (sg : bool)
| Sig (s : signal)
| Operator (op : string) (operands : list value)
| Slice (v : value) (start stop : Z)
| Cat (l : list value)
| Replicate (v : value) (n : Z).

Definition is_Slice (v : value) : bool :=
  match v with Slice _ _ _ => true | _ => false end.
Definition is_Signal (v : value) : bool :=
  match v with Sig _ => true | _ => false end.

#[global] Instance signal_eq_dec : EqDecision signal.
Proof. solve_decision. Defined.

#[global] Instance signal_countable : Countable signal.
Proof.
  apply (inj_countable'
    (fun s => (duid s, nbits s, signed s, reset s, variable s,
               name_override s, attr s))
    (fun t => let '(d, n, sg, r, v, no, a) := t in MkSignal d n sg r v no a)).
  by intros [].
Defined.

Section Induction.
Variable P : value -> Prop.
Hypothesis HConstant : forall v w sg, P (Constant v w sg).
Hypothesis HSig : forall s, P (Sig s).
Hypothesis HOperator : forall op l, Forall P l -> P (Operator op l).
Hypothesis HSlice : forall v a b, P v -> P (Slice v a b).
Hypothesis HCat : forall l, Forall P l -> P (Cat l).
Hypothesis HReplicate : forall v n, P v -> P (Replicate v n).

Fixpoint value_nested_ind (v : value) : P v :=
  match v with
  | Constant c w sg => HConstant c w sg
  | Sig s => HSig s
  | Operator op l =>
      HOperator op l
        ((fix go (l : list value) : Forall P l :=
            match l with
            | [] => Forall_nil_2 P
            | x :: l' => Forall_cons_2 P x l' (value_nested_ind x) (go l')
            end) l)
  | Slice v a b => HSlice v a b (value_nested_ind v)
  | Cat l =>
      HCat l
        ((fix go (l : list value) : Forall P l :=
            match l with
            | [] => Forall_nil_2 P
            | x :: l' => Forall_cons_2 P x l' (value_nested_ind x) (go l')
            end) l)
  | Replicate v n => HReplicate v n (value_nested_ind v)
  end.
End Induction.

(** Structural comparison of two expressions. *)
Fixpoint value_eqb (a b : value) : bool :=
  match a, b with
  | Constant v w sg, Constant v' w' sg' =>
      bool_decide (v = v') && bool_decide (w = w') && bool_decide (sg = sg')
  | Sig s, Sig s' => bool_decide (s = s')
  | Operator op l, Operator op' l' =>
      bool_decide (op = op') &&
      (fix go (l l' : list value) : bool :=
         match l, l' with
         | [], [] => true
         | x :: l, y :: l' => value_eqb x y && go l l'
         | _, _ => false
         end) l l'
  | Slice v a b, Slice v' a' b' =>
      value_eqb v v' && bool_decide (a = a') && bool_decide (b = b')
  | Cat l, Cat l' =>
      (fix go (l l' : list value) : bool :=
         match l, l' with
         | [], [] => true
         | x :: l, y :: l' => value_eqb x y && go l l'
         | _, _ => false
         end) l l'
  | Replicate v n, Replicate v' n' => value_eqb v v' && bool_decide (n = n')
  | _, _ => false
  end.

Lemma value_eqb_eq a b : value_eqb a b = true <-> a = b.
Proof.
  revert b. induction a as [v w sg|s|op l IH|v a b IH|l IH|v n IH]
    using value_nested_ind; intros [v' w' sg'|s'|op' l'|v' a' b'|l'|v' n'];
    simpl; try (split; [discriminate | congruence]).
  - rewrite !andb_true_iff, !bool_decide_eq_true. split; [intros [[-> ->] ->]; done|].
    intros [= -> -> ->]; done.
  - rewrite bool_decide_eq_true. split; congruence.
  - rewrite andb_true_iff, bool_decide_eq_true.
    assert (Hl : forall l', (fix go (l l' : list value) : bool :=
         match l, l' with
         | [], [] => true
         | x :: l, y :: l' => value_eqb x y && go l l'
         | _, _ => false
         end) l l' = true <-> l = l').
    { clear l'. induction IH as [|x l Hx _ IHl]; intros [|y l'];
        try (split; [discriminate || done | congruence || done]).
      rewrite andb_true_iff, Hx, IHl. split; [intros [-> ->]; done|].
      intros [= -> ->]; done. }
    rewrite Hl. split; [intros [-> ->]; done | intros [= -> ->]; done].
  - rewrite !andb_true_iff, !bool_decide_eq_true, IH.
    split; [intros [[-> ->] ->]; done | intros [= -> -> ->]; done].
  - assert (Hl : forall l', (fix go (l l' : list value) : bool :=
         match l, l' with
         | [], [] => true
         | x :: l, y :: l' => value_eqb x y && go l l'
         | _, _ => false
         end) l l' = true <-> l = l').
    { clear l'. induction IH as [|x l Hx _ IHl]; intros [|y l'];
        try (split; [discriminate || done | congruence || done]).
      rewrite andb_true_iff, Hx, IHl. split; [intros [-> ->]; done|].
      intros [= -> ->]; done. }
    rewrite Hl. split; congruence.
  - rewrite !andb_true_iff, !bool_decide_eq_true, IH.
    split; [intros [-> ->]; done | intros [= -> ->]; done].
Qed.

#[global] Instance value_eq_dec : EqDecision value.
Proof.
  intros a b. destruct (value_eqb a b) eqn:E.
  - left. by apply value_eqb_eq.
  - right. intros H. apply value_eqb_eq in H. congruence.
Defined.

(** Nesting depth, the measure of the lowering loops. *)
Fixpoint depth (v : value) : nat :=
  match v with
  | Constant _ _ _ | Sig _ => O
  | Operator _ l => S (foldr (fun e acc => Nat.max (depth e) acc) O l)
  | Slice v _ _ => S (depth v)
  | Cat l => S (foldr (fun e acc => Nat.max (depth e) acc) O l)
  | Replicate v _ => S (depth v)
  end.

Section Widths.
(** migen's [value_bits_sign] on operators is a table over the operator
    name and the operands' widths and signs; it is imported. *)
Variable operator_bits_sign : string -> list (Z * bool) -> Z * bool.

(** [value_bits_sign] (migen.fhdl.bitcontainer), as verilog.py uses it
    through [len] and for the width of a slice proxy. *)
Fixpoint value_bits_sign (v : value) : Z * bool :=
  match v with
  | Constant _ w sg => (w, sg)
  | Sig s => (nbits s, signed s)
  | Operator op l => operator_bits_sign op (map value_bits_sign l)
  | Slice v a b => (b - a, snd (value_bits_sign v))
  | Cat l => (foldr (fun e acc => fst (value_bits_sign e) + acc) 0 l, false)
  | Replicate v n => (fst (value_bits_sign v) * n, false)
  end.

(** Python's [len(node)]. *)
Definition len (v : value) : Z := fst (value_bits_sign v).

Definition sum_len (l : list value) : Z :=
  foldr (fun e acc => len e + acc) 0 l.

Lemma len_Cat l : len (Cat l) = sum_len l.
Proof. reflexivity. Qed.

Lemma sum_len_app l1 l2 : sum_len (l1 ++ l2) = sum_len l1 + sum_len l2.
Proof. induction l1 as [|e l1 IH]; simpl; [lia|]. rewrite IH. lia. Qed.

(* ---------------------------------------------------------------- *)
(** ** Slice narrowing                                                *)
(* ---------------------------------------------------------------- *)

(** The [for e in node.l: ... else: break] scan of [_lower_slice_cat]:
    the first operand whose span holds the slice, with the rebased
    start, or [None] when the [else] branch is taken. *)
Fixpoint cat_scan (es : list value) (cat_start start length : Z)
  : option (value * Z) :=
  match es with
  | [] => None
  | e :: es' =>
      if bool_decide (cat_start <= start /\ start < cat_start + len e /\
                      cat_start + len e >= start + length)
      then Some (e, start - cat_start)
      else cat_scan es' (cat_start + len e) start length
  end.

(** [_lower_slice_cat]: the [while isinstance(node, Cat)] loop. *)
Fixpoint _lower_slice_cat (node : value) (start length : Z) : value * Z :=
  match node with
  | Cat l =>
      (fix scan (es : list value) (cat_start : Z) : value * Z :=
         match es with
         | [] => (node, start)
         | e :: es' =>
             if bool_decide (cat_start <= start /\ start < cat_start + len e /\
                             cat_start + len e >= start + length)
             then _lower_slice_cat e (start - cat_start) length
             else scan es' (cat_start + len e)
         end) l 0
  | _ => (node, start)
  end.

(** The test of [_lower_slice_replicate]; both floor divisions raise on a
    zero-width operand. *)
Definition replicate_test (w start length : Z) : outcome bool :=
  if bool_decide (w = 0) then Raise ZeroDivisionError
  else Ok (bool_decide (start / w = (start + length - 1) / w)).

(** [_lower_slice_replicate]: the [while isinstance(node, Replicate)]
    loop. *)
Fixpoint _lower_slice_replicate (node : value) (start length : Z)
  : outcome (value * Z) :=
  match node with
  | Replicate v n =>
      b <~ replicate_test (len v) start length;
      if b then _lower_slice_replicate v (start mod len v) length
      else Ok (node, start)
  | _ => Ok (node, start)
  end.

(** The [while True] loop of [visit_Slice]: narrow through concatenations,
    then through replications, and stop once the replication pass returns
    the very node it was given ([node is former_node]; a narrowed node is a
    proper sub-expression, so identity and structural equality agree). *)
Fixpoint narrow (fuel : nat) (node : value) (start length : Z)
  : outcome (value * Z) :=
  match fuel with
  | O => OutOfFuel
  | S fuel' =>
      let '(node1, start1) := _lower_slice_cat node start length in
      let former_node := node1 in
      '(node2, start2) <~ _lower_slice_replicate node1 start1 length;
      if bool_decide (node2 = former_node) then Ok (node2, start2)
      else narrow fuel' node2 start2 length
  end.

(** The [while isinstance(node, _Slice)] loop of [visit_Slice]. *)
Fixpoint strip (fuel : nat) (node : value) (start length : Z)
  : outcome (value * Z) :=
  match fuel with
  | O => OutOfFuel
  | S fuel' =>
      match node with
      | Slice v a _ =>
          '(node', start') <~ narrow (S (depth v)) v (start + a) length;
          strip fuel' node' start' length
      | _ => Ok (node, start)
      end
  end.
End Widths.

(* ------------------------------------------------------------------ *)
(** ** Facts about slice narrowing                                      *)
(* ------------------------------------------------------------------ *)

Section NarrowingFacts.
Variable operator_bits_sign : string -> list (Z * bool) -> Z * bool.
Local Abbreviation len := (len operator_bits_sign).
Local Abbreviation sum_len := (sum_len operator_bits_sign).
Local Abbreviation cat_scan := (cat_scan operator_bits_sign).
Local Abbreviation _lower_slice_cat := (_lower_slice_cat operator_bits_sign).
Local Abbreviation _lower_slice_replicate := (_lower_slice_replicate operator_bits_sign).
Local Abbreviation narrow := (narrow operator_bits_sign).
Local Abbreviation strip := (strip operator_bits_sign).

(** The slice [start, start+length) lies in the span of the operand [e]
    that follows the operands [pre] of a concatenation. *)
Definition within_operand (pre : list value) (e : value) (start length : Z)
  : Prop :=
  sum_len pre <= start /\ start + length <= sum_len pre + len e.

(** The slice [start, start+length) lies in one repetition period of an
    operand of width [w]. *)
Definition within_period (w start length : Z) : Prop :=
  exists k, k * w <= start /\ start + length <= (k + 1) * w.

Lemma cat_scan_sound es cs start length e s' :
  cat_scan es cs start length = Some (e, s') ->
  exists pre post, es = pre ++ e :: post /\
    cs + sum_len pre <= start /\
    start < cs + sum_len pre + len e /\
    start + length <= cs + sum_len pre + len e /\
    s' = start - (cs + sum_len pre).
Proof.
  revert cs. induction es as [|x es IH]; intros cs; simpl; [discriminate|].
  case_bool_decide as Hx.
  - intros [= -> <-]. exists [], es. simpl. repeat split; lia.
  - intros H. apply IH in H as (pre & post & -> & H1 & H2 & H3 & ->).
    exists (x :: pre), post. simpl.
    change (foldr (fun e acc => len e + acc) 0 pre) with (sum_len pre).
    repeat split; lia.
Qed.

Lemma cat_scan_complete pre e post cs start length :
  Forall (fun x => 0 <= len x) pre ->
  cs + sum_len pre <= start ->
  start < cs + sum_len pre + len e ->
  start + length <= cs + sum_len pre + len e ->
  cat_scan (pre ++ e :: post) cs start length
    = Some (e, start - (cs + sum_len pre)).
Proof.
  revert cs. induction pre as [|x pre IH]; intros cs Hpos H1 H2 H3; simpl in *.
  - rewrite bool_decide_eq_true_2 by lia. do 2 f_equal. lia.
  - change (foldr (fun e acc => len e + acc) 0 pre) with (sum_len pre) in *.
    inversion Hpos as [|? ? Hx Hpre]; subst.
    assert (0 <= sum_len pre).
    { clear -Hpre. induction Hpre; simpl; [lia|].
      change (foldr (fun e acc => len e + acc) 0 l) with (sum_len l). lia. }
    rewrite bool_decide_eq_false_2 by lia.
    rewrite IH by (try done; lia). do 2 f_equal. lia.
Qed.

Lemma cat_scan_None es cs start length :
  cat_scan es cs start length = None ->
  forall pre e post, es = pre ++ e :: post ->
    ~ (cs + sum_len pre <= start /\ start < cs + sum_len pre + len e /\
       start + length <= cs + sum_len pre + len e).
Proof.
  revert cs. induction es as [|x es IH]; intros cs Hs pre e post Heq.
  - by destruct pre.
  - simpl in Hs. case_bool_decide as Hx; [discriminate|].
    destruct pre as [|y pre]; simpl in Heq; injection Heq as -> ->.
    + simpl. lia.
    + specialize (IH _ Hs pre e post eq_refl). simpl.
      change (foldr (fun e acc => len e + acc) 0 pre) with (sum_len pre).
      lia.
Qed.

(** The [while] loop of [_lower_slice_cat], one iteration at a time. *)
Lemma _lower_slice_cat_Cat es start length :
  _lower_slice_cat (Cat es) start length =
    match cat_scan es 0 start length with
    | Some (e, s') => _lower_slice_cat e s' length
    | None => (Cat es, start)
    end.
Proof.
  simpl. generalize (Cat es) as node. generalize 0 as cs.
  induction es as [|x es IH]; intros cs node; simpl; [done|].
  case_bool_decide; [done|]. apply IH.
Qed.

Lemma _lower_slice_cat_other node start length :
  (forall l, node <> Cat l) ->
  _lower_slice_cat node start length = (node, start).
Proof. destruct node; simpl; try done. intros H. by destruct (H l). Qed.
Lemma depth_elem (e : value) (l : list value) :
  e ∈ l -> (depth e <= foldr (fun e acc => Nat.max (depth e) acc) O l)%nat.
Proof.
  induction 1 as [|x y l _ IH]; simpl; lia.
Qed.

Lemma cat_scan_elem es cs start length e s' :
  cat_scan es cs start length = Some (e, s') -> e ∈ es.
Proof.
  intros H. apply cat_scan_sound in H as (pre & post & -> & _).
  apply elem_of_app. right. left.
Qed.

(** [_lower_slice_cat] returns a sub-expression at which it no longer
    applies. *)
Lemma _lower_slice_cat_result node start length :
  (depth (_lower_slice_cat node start length).1 <= depth node)%nat /\
  _lower_slice_cat (_lower_slice_cat node start length).1
                   (_lower_slice_cat node start length).2 length
    = _lower_slice_cat node start length.
Proof.
  revert start.
  induction node as [v w sg|s|op l IH|v a b IH|l IH|v n IH]
    using value_nested_ind; intros start; try (simpl; split; [lia|done]).
  rewrite _lower_slice_cat_Cat.
  destruct (cat_scan l 0 start length) as [[e s']|] eqn:Hscan.
  - pose proof (cat_scan_elem _ _ _ _ _ _ Hscan) as Hin.
    rewrite Forall_forall in IH. destruct (IH e Hin s') as [Hd Hst].
    split; [|done]. pose proof (depth_elem e l Hin). simpl. lia.
  - split; [done|]. cbn [fst snd]. rewrite _lower_slice_cat_Cat, Hscan. done.
Qed.

Lemma replicate_test_within (w start length : Z) :
  0 < w -> 0 < length ->
  (replicate_test w start length = Ok true <-> within_period w start length) /\
  (replicate_test w start length = Ok false <-> ~ within_period w start length).
Proof.
  intros Hw Hl. unfold replicate_test, within_period.
  rewrite bool_decide_eq_false_2 by lia.
  assert (Hiff : start / w = (start + length - 1) / w <->
                 exists k, k * w <= start /\ start + length <= (k + 1) * w).
  { split.
    - intros Heq. exists (start / w). split.
      + pose proof (Z.mul_div_le start w Hw). lia.
      + rewrite Heq at 1.
        pose proof (Z.mul_succ_div_gt (start + length - 1) w Hw). lia.
    - intros (k & H1 & H2).
      assert (start / w = k) as ->.
      { symmetry. apply Z.div_unique with (r := start - k * w); lia. }
      apply Z.div_unique with (r := start + length - 1 - k * w); lia. }
  split.
  - rewrite <- Hiff. split; [intros [= H]; by apply bool_decide_eq_true in H|].
    intros H. by rewrite bool_decide_eq_true_2.
  - rewrite <- Hiff. split; [intros [= H]; by apply bool_decide_eq_false in H|].
    intros H. by rewrite bool_decide_eq_false_2.
Qed.

(** [_lower_slice_replicate] never exhausts a budget; when it returns, the
    result is the node itself with the start untouched, or a proper
    sub-expression, and the function no longer applies to it. *)
Lemma _lower_slice_replicate_result node start length :
  _lower_slice_replicate node start length = Raise ZeroDivisionError \/
  exists n' s', _lower_slice_replicate node start length = Ok (n', s') /\
    ((n' = node /\ s' = start) \/ (depth n' < depth node)%nat) /\
    _lower_slice_replicate n' s' length = Ok (n', s').
Proof.
  revert start.
  induction node as [v w sg|s|op l _|v a b _|l _|v n IH]
    using value_nested_ind; intros start;
    try (right; eexists _, _; split; [reflexivity|]; split; [by left|done]).
  simpl. unfold replicate_test. case_bool_decide as Hw; [by left|]. simpl.
  case_bool_decide as Ht.
  - destruct (IH (start mod len v)) as [->|(n' & s' & -> & Hd & Hst)]; [by left|].
    right. exists n', s'. split; [done|]. split; [|done].
    right. destruct Hd as [[-> _]|Hd]; lia.
  - right. eexists _, _. split; [reflexivity|]. split; [by left|].
    simpl. unfold replicate_test. rewrite bool_decide_eq_false_2 by done.
    simpl. by rewrite bool_decide_eq_false_2.
Qed.

(** The alternation ends within the budget, at a node to which neither
    narrowing applies. *)
Lemma narrow_result fuel node start length :
  (depth node < fuel)%nat ->
  narrow fuel node start length = Raise ZeroDivisionError \/
  exists n' s', narrow fuel node start length = Ok (n', s') /\
    (depth n' <= depth node)%nat /\
    _lower_slice_cat n' s' length = (n', s') /\
    _lower_slice_replicate n' s' length = Ok (n', s').
Proof.
  revert node start. induction fuel as [|fuel IH]; intros node start Hf; [lia|].
  simpl.
  destruct (_lower_slice_cat_result node start length) as [Hd Hst].
  destruct (_lower_slice_cat node start length) as [node1 start1] eqn:Hc.
  cbn [fst snd] in *.
  destruct (_lower_slice_replicate_result node1 start1 length)
    as [->|(n2 & s2 & -> & Hcase & Hst2)]; [by left|].
  simpl. case_bool_decide as Hsame.
  - right. exists n2, s2. split; [done|].
    destruct Hcase as [[-> ->]|Hlt]; [|subst; lia].
    split; [done|]. split; [|done]. by rewrite Hst.
  - destruct Hcase as [[-> _]|Hlt]; [done|].
    destruct (IH n2 s2) as [->|(n' & s' & -> & Hd' & Hr)]; [lia|by left|].
    right. exists n', s'. split; [done|]. split; [lia|done].
Qed.
End NarrowingFacts.

(** A signal of the given identity and width, everything else default. *)
Definition plain_signal (d w : Z) : signal :=
  MkSignal d w false 0 false None [].

(** Operator widths used in the examples: one bit, unsigned. *)
Definition unit_operator_bits_sign (_ : string) (_ : list (Z * bool))
  : Z * bool := (1, false).


(** An empty slice starting on a period boundary is left on the
    replication although it lies in one period: the floor-division test
    compares the periods of the bits [start] and [start + length - 1]. *)
Example empty_slice_not_narrowed :
  let a := Sig (plain_signal 1 4) in
  _lower_slice_replicate unit_operator_bits_sign (Replicate a 2) 0 0 =
    Ok (Replicate a 2, 0) /\
  within_period 4 0 0.
Proof. split; [reflexivity|]. exists 0. lia. Qed.

Example narrow_example :
  let a := Sig (plain_signal 1 4) in
  let b := Sig (plain_signal 2 4) in
  narrow unit_operator_bits_sign 3 (Cat [Replicate a 2; b]) 5 2 = Ok (a, 1) /\
  _lower_slice_cat unit_operator_bits_sign (Cat [a; b]) 5 2 = (b, 1) /\
  _lower_slice_cat unit_operator_bits_sign (Cat [a; b]) 3 2 = (Cat [a; b], 3).
Proof. repeat split. Qed.

(* ------------------------------------------------------------------ *)
(** ** Statements, specials and fragments                               *)
(* ------------------------------------------------------------------ *)

(** The keys of [Case.cases]: a [Constant], or the string "default". *)
Inductive case_key : Type :=
| KConstant (v : Z) (w : Z) (sg : bool)
| KDefault.

(** An argument of [Display]: a signal, or anything else (kept as the text
    [str(arg)] gives). *)
Inductive display_arg : Type :=
| DSignal (s : signal)
| DOther (repr : string).

(** Statement nodes, as [_generate_node] tells them apart. [Stmts] is a
    nested iterable of statements; [Unknown] stands for an object of any
    other type, carrying [str(type(node))]. *)
Inductive stmt : Type :=
| Assign (l r : value)
| Stmts (l : list stmt)
| If (cond : value) (t f : list stmt)
| Case (test : value) (cases : list (case_key * list stmt))
| Display (s : string) (args : list display_arg)
| Finish
| Unknown (type_name : string).

Section StmtInduction.
Variable P : stmt -> Prop.
Hypothesis HAssign : forall l r, P (Assign l r).
Hypothesis HStmts : forall l, Forall P l -> P (Stmts l).
Hypothesis HIf : forall c t f, Forall P t -> Forall P f -> P (If c t f).
Hypothesis HCase : forall test cases,
  Forall (fun kv => Forall P kv.2) cases -> P (Case test cases).
Hypothesis HDisplay : forall s args, P (Display s args).
Hypothesis HFinish : P Finish.
Hypothesis HUnknown : forall t, P (Unknown t).

Fixpoint stmt_nested_ind (s : stmt) : P s :=
  let fix go (l : list stmt) : Forall P l :=
    match l with
    | [] => Forall_nil_2 P
    | x :: l' => Forall_cons_2 P x l' (stmt_nested_ind x) (go l')
    end in
  match s with
  | Assign l r => HAssign l r
  | Stmts l => HStmts l (go l)
  | If c t f => HIf c t f (go t) (go f)
  | Case test cases =>
      HCase test cases
        ((fix goc (cs : list (case_key * list stmt))
            : Forall (fun kv => Forall P kv.2) cs :=
            match cs with
            | [] => Forall_nil_2 _
            | (k, b) :: cs' =>
                Forall_cons_2 (fun kv => Forall P kv.2) (k, b) cs' (go b) (goc cs')
            end) cases)
  | Display s args => HDisplay s args
  | Finish => HFinish
  | Unknown t => HUnknown t
  end.
End StmtInduction.

(** A clock-domain descriptor: its name, clock and optional reset. *)
Record clock_domain : Type := MkClockDomain {
  cd_name : string;
  clk : signal;
  rst : option signal
}.

(** What the specials emitter looks at in a special: its declaration order,
    its class, whether it carries an [attr] set, and its [str()]. *)
Inductive special_class : Type :=
| MemoryClass
| InstanceClass
| OtherClass (name : string).

Record special : Type := MkSpecial {
  sp_duid : Z;
  sp_class : special_class;
  sp_attr : option (list string);
  sp_str : string
}.

#[global] Instance special_class_eq_dec : EqDecision special_class.
Proof. solve_decision. Defined.

#[global] Instance special_class_countable : Countable special_class.
Proof.
  apply (inj_countable'
    (fun c => match c with
              | MemoryClass => inl true
              | InstanceClass => inl false
              | OtherClass n => inr n
              end)
    (fun x => match x with
              | inl true => MemoryClass
              | inl false => InstanceClass
              | inr n => OtherClass n
              end)).
  by intros [].
Defined.

#[global] Instance special_eq_dec : EqDecision special.
Proof. solve_decision. Defined.

#[global] Instance special_countable : Countable special.
Proof.
  apply (inj_countable'
    (fun s => (sp_duid s, sp_class s, sp_attr s, sp_str s))
    (fun t => let '(d, c, a, r) := t in MkSpecial d c a r)).
  by intros [].
Defined.

(** migen's [_Fragment]: [comb] is a list, [sync] a dict keyed by clock-domain
    name, [specials] a set and [clock_domains] a list searched by name. *)
Record fragment : Type := MkFragment {
  comb : list stmt;
  sync : gmap string (list stmt);
  specials : gset special;
  clock_domains : list clock_domain
}.

(* ------------------------------------------------------------------ *)
(** ** The complex-slice lowerer                                        *)
(* ------------------------------------------------------------------ *)

(** The lowerer's mutable state: [self.comb], and the counter from which a
    new [Signal] takes its [duid]. *)
Record lstate : Type := MkLState {
  next_duid : Z;
  lcomb : list stmt
}.

(** [Signal(bits_sign)]: a new signal with default attributes. *)
Definition new_Signal (bits_sign : Z * bool) (st : lstate) : signal * lstate :=
  (MkSignal (next_duid st) bits_sign.1 bits_sign.2 0 false None [],
   MkLState (next_duid st + 1) (lcomb st)).

(** [self.comb.append(s)]. *)
Definition comb_append (s : stmt) (st : lstate) : lstate :=
  MkLState (next_duid st) (lcomb st ++ [s]).

(** [self.visit] on an expression, at the current [self.target_context]. *)
Definition visitor : Type := bool -> value -> lstate -> outcome (value * lstate).

(** [[self.visit(e) for e in l]]. *)
Fixpoint visit_values (vis : value -> lstate -> outcome (value * lstate))
    (l : list value) (st : lstate) : outcome (list value * lstate) :=
  match l with
  | [] => Ok ([], st)
  | x :: l' =>
      '(x', st1) <~ vis x st;
      '(l'', st2) <~ visit_values vis l' st1;
      Ok (x' :: l'', st2)
  end.

(** [_Lowerer.visit_Assign] (migen): the target is visited with
    [target_context] set, the source with it cleared, and the former value
    is restored on exit; this lowerer never fills [extra_stmts], so a single
    assignment is returned. *)
Definition visit_Assign (vis : visitor) (l r : value) (st : lstate)
  : outcome (stmt * lstate) :=
  '(lhs, st1) <~ vis true l st;
  '(rhs, st2) <~ vis false r st1;
  Ok (Assign lhs rhs, st2).

Section Lowerer.
Variable operator_bits_sign : string -> list (Z * bool) -> Z * bool.
Local Abbreviation len := (len operator_bits_sign).
Local Abbreviation strip := (strip operator_bits_sign).

(** [_ComplexSliceLowerer.visit_Slice]; [vis] is [self.visit]. *)
Definition visit_Slice (vis : visitor) (target_context : bool) (node : value)
    (st : lstate) : outcome (value * lstate) :=
  let length := len node in
  '(node', start) <~ strip (S (depth node)) node 0 length;
  if bool_decide (start = 0 /\ len node' = length) then
    vis target_context node' st
  else if is_Signal node' then
    '(v, st1) <~ vis target_context node' st;
    Ok (Slice v start (start + length), st1)
  else
    let '(slice_proxy, st0) :=
      new_Signal (value_bits_sign operator_bits_sign node') st in
    let '(al, ar) :=
      if target_context then (node', Sig slice_proxy)
      else (Sig slice_proxy, node') in
    '(a, st1) <~ visit_Assign vis al ar st0;
    let st2 := comb_append a st1 in
    '(v, st3) <~ vis target_context (Sig slice_proxy) st2;
    Ok (Slice v start (start + length), st3).

(** [NodeTransformer.visit] on expressions (migen), with [visit_Slice]
    overridden; [fuel] bounds the recursion depth. *)
Fixpoint visit_fuel (fuel : nat) (target_context : bool) (node : value)
    (st : lstate) : outcome (value * lstate) :=
  match fuel with
  | O => OutOfFuel
  | S fuel' =>
      match node with
      | Constant _ _ _ | Sig _ => Ok (node, st)
      | Operator op l =>
          '(l', st1) <~ visit_values (visit_fuel fuel' target_context) l st;
          Ok (Operator op l', st1)
      | Slice _ _ _ => visit_Slice (visit_fuel fuel') target_context node st
      | Cat l =>
          '(l', st1) <~ visit_values (visit_fuel fuel' target_context) l st;
          Ok (Cat l', st1)
      | Replicate v n =>
          '(v', st1) <~ visit_fuel fuel' target_context v st;
          Ok (Replicate v' n, st1)
      end
  end.

(** [self.visit(node)] for an expression. *)
Definition visit : visitor :=
  fun target_context node st => visit_fuel (S (depth node)) target_context node st.

(** [NodeTransformer.visit] on statements (migen): assignments go through
    [visit_Assign], [If] and [Case] are rebuilt from their visited parts,
    lists element by element, anything else is returned as it is. Statements
    are visited outside any assignment target. *)
Fixpoint visit_node (node : stmt) (st : lstate) : outcome (stmt * lstate) :=
  let fix visit_statements (l : list stmt) (st : lstate)
      : outcome (list stmt * lstate) :=
    match l with
    | [] => Ok ([], st)
    | s :: l' =>
        '(s', st1) <~ visit_node s st;
        '(l'', st2) <~ visit_statements l' st1;
        Ok (s' :: l'', st2)
    end in
  match node with
  | Assign l r => visit_Assign visit l r st
  | Stmts l => '(l', st1) <~ visit_statements l st; Ok (Stmts l', st1)
  | If cond t f =>
      '(cond', st1) <~ visit false cond st;
      '(t', st2) <~ visit_statements t st1;
      '(f', st3) <~ visit_statements f st2;
      Ok (If cond' t' f', st3)
  | Case test cases =>
      '(cases', st1) <~
        (fix visit_cases (cs : list (case_key * list stmt)) (st : lstate)
           : outcome (list (case_key * list stmt) * lstate) :=
           match cs with
           | [] => Ok ([], st)
           | (k, b) :: cs' =>
               '(b', st1) <~ visit_statements b st;
               '(cs'', st2) <~ visit_cases cs' st1;
               Ok ((k, b') :: cs'', st2)
           end) cases st;
      '(test', st2) <~ visit false test st1;
      Ok (Case test' cases', st2)
  | Display _ _ | Finish | Unknown _ => Ok (node, st)
  end.

(** [NodeTransformer.visit_statements]. *)
Fixpoint visit_statements (l : list stmt) (st : lstate)
  : outcome (list stmt * lstate) :=
  match l with
  | [] => Ok ([], st)
  | s :: l' =>
      '(s', st1) <~ visit_node s st;
      '(l'', st2) <~ visit_statements l' st1;
      Ok (s' :: l'', st2)
  end.

(** [NodeTransformer.visit_clock_domains]: the groups of [f.sync], visited
    in the order of their sorted names. *)
Fixpoint visit_groups (items : list (string * list stmt)) (st : lstate)
  : outcome (list (string * list stmt) * lstate) :=
  match items with
  | [] => Ok ([], st)
  | (k, v) :: items' =>
      '(v', st1) <~ visit_statements v st;
      '(items'', st2) <~ visit_groups items' st1;
      Ok ((k, v') :: items'', st2)
  end.

Definition visit_clock_domains (node : gmap string (list stmt)) (st : lstate)
  : outcome (gmap string (list stmt) * lstate) :=
  '(items, st1) <~ visit_groups (sorted str_le fst (map_to_list node)) st;
  Ok (list_to_map items, st1).

(** [lower_complex_slices]: [_apply_lowerer] (migen) visits the fragment
    ([visit_Fragment] rebuilds [comb] and [sync] on a copy) and appends the
    lowerer's collected assignments to [comb]. [first_duid] is the value of
    the global [duid] counter when the pass starts. *)
Definition lower_complex_slices (first_duid : Z) (f : fragment)
  : outcome fragment :=
  let st := MkLState first_duid [] in
  '(comb', st1) <~ visit_statements (comb f) st;
  '(sync', st2) <~ visit_clock_domains (sync f) st1;
  Ok (MkFragment (comb' ++ lcomb st2) sync' (specials f) (clock_domains f)).
End Lowerer.

Definition sig_a : signal := plain_signal 1 4.
Definition sig_b : signal := plain_signal 2 4.
Definition sig_y : signal := plain_signal 3 2.

Example lower_crossing_slice :
  lower_complex_slices unit_operator_bits_sign 10
    (MkFragment [Assign (Sig sig_y) (Slice (Cat [Sig sig_a; Sig sig_b]) 3 5)]
                ∅ ∅ [])
  = Ok (MkFragment
          [Assign (Sig sig_y) (Slice (Sig (plain_signal 10 8)) 3 5);
           Assign (Sig (plain_signal 10 8)) (Cat [Sig sig_a; Sig sig_b])]
          ∅ ∅ []).
Proof. vm_compute. reflexivity. Qed.

Example lower_contained_slice :
  lower_complex_slices unit_operator_bits_sign 10
    (MkFragment [Assign (Sig sig_y) (Slice (Cat [Sig sig_a; Sig sig_b]) 5 7)]
                ∅ ∅ [])
  = Ok (MkFragment [Assign (Sig sig_y) (Slice (Sig sig_b) 1 3)] ∅ ∅ []).
Proof. vm_compute. reflexivity. Qed.

(* ------------------------------------------------------------------ *)
(** ** What occurs in an expression, a statement, a fragment            *)
(* ------------------------------------------------------------------ *)

(** The signals an expression mentions. *)
Fixpoint signals_of (v : value) : list signal :=
  match v with
  | Constant _ _ _ => []
  | Sig s => [s]
  | Operator _ l => l ≫= signals_of
  | Slice v _ _ => signals_of v
  | Cat l => l ≫= signals_of
  | Replicate v _ => signals_of v
  end.

(** The operands of the slices an expression contains, at any depth. *)
Fixpoint slice_operands (v : value) : list value :=
  match v with
  | Constant _ _ _ | Sig _ => []
  | Operator _ l => l ≫= slice_operands
  | Slice v _ _ => v :: slice_operands v
  | Cat l => l ≫= slice_operands
  | Replicate v _ => slice_operands v
  end.

(** The expressions a statement holds, through nested statements. *)
Fixpoint stmt_values (s : stmt) : list value :=
  match s with
  | Assign l r => [l; r]
  | Stmts l => l ≫= stmt_values
  | If cond t f => cond :: (t ≫= stmt_values) ++ (f ≫= stmt_values)
  | Case test cases =>
      test :: (cases ≫= (fun '(_, b) => b ≫= stmt_values))
  | Display _ _ | Finish | Unknown _ => []
  end.

Definition fragment_values (f : fragment) : list value :=
  (comb f ≫= stmt_values) ++
  (map_to_list (sync f) ≫= (fun kv => kv.2 ≫= stmt_values)).

Definition fragment_signals (f : fragment) : list signal :=
  fragment_values f ≫= signals_of.

Definition fragment_slice_operands (f : fragment) : list value :=
  fragment_values f ≫= slice_operands.

(** A signal made by [new_Signal] once the counter has reached
    [first_duid]. *)
Definition slice_proxy_from (first_duid : Z) (s : signal) : Prop :=
  exists d bits_sign,
    first_duid <= d /\ s = (new_Signal bits_sign (MkLState d [])).1.

(* ------------------------------------------------------------------ *)
(** ** The narrowing loops return sub-expressions                       *)
(* ------------------------------------------------------------------ *)

Section SubExpressions.
Variable operator_bits_sign : string -> list (Z * bool) -> Z * bool.
Local Abbreviation _lower_slice_cat := (_lower_slice_cat operator_bits_sign).
Local Abbreviation _lower_slice_replicate :=
  (_lower_slice_replicate operator_bits_sign).
Local Abbreviation cat_scan := (cat_scan operator_bits_sign).
Local Abbreviation narrow := (narrow operator_bits_sign).
Local Abbreviation strip := (strip operator_bits_sign).

(** A property inherited by the operands of concatenations, replications
    and slices. *)
Variable Q : value -> Prop.
Hypothesis Q_Cat : forall l e, Q (Cat l) -> e ∈ l -> Q e.
Hypothesis Q_Replicate : forall v n, Q (Replicate v n) -> Q v.
Hypothesis Q_Slice : forall v a b, Q (Slice v a b) -> Q v.

Lemma _lower_slice_cat_sub node start length :
  Q node -> Q (_lower_slice_cat node start length).1.
Proof.
  revert start.
  induction node as [v w sg|s|op l IH|v a b IH|l IH|v n IH]
    using value_nested_ind; intros start HQ; try done.
  rewrite _lower_slice_cat_Cat.
  destruct (cat_scan l 0 start length) as [[e s']|] eqn:Hscan; [|done].
  pose proof (cat_scan_elem _ _ _ _ _ _ _ Hscan) as Hin.
  rewrite Forall_forall in IH. apply IH; [done|]. by apply (Q_Cat l).
Qed.

Lemma _lower_slice_replicate_sub node start length n' s' :
  _lower_slice_replicate node start length = Ok (n', s') -> Q node -> Q n'.
Proof.
  revert start.
  induction node as [v w sg|s|op l _|v a b _|l _|v n IH]
    using value_nested_ind; intros start; simpl; try (by intros [= <- <-]).
  unfold replicate_test. case_bool_decide; [done|]. simpl.
  case_bool_decide.
  - intros Hres HQ. apply (IH _ Hres). by apply (Q_Replicate v n).
  - by intros [= <- <-].
Qed.

Lemma narrow_sub fuel node start length n' s' :
  narrow fuel node start length = Ok (n', s') -> Q node -> Q n'.
Proof.
  revert node start. induction fuel as [|fuel IH]; intros node start; [done|].
  simpl. pose proof (_lower_slice_cat_sub node start length) as Hc.
  destruct (_lower_slice_cat node start length) as [node1 start1].
  destruct (_lower_slice_replicate node1 start1 length) as [[n2 s2]| |] eqn:Hr;
    try done.
  simpl. pose proof (_lower_slice_replicate_sub _ _ _ _ _ Hr) as Hq.
  case_bool_decide.
  - intros [= <- <-] HQ. auto.
  - intros Hres HQ. apply (IH _ _ Hres). auto.
Qed.

Lemma strip_Slice fuel v a b start length :
  strip (S fuel) (Slice v a b) start length =
    obind (narrow (S (depth v)) v (start + a) length)
          (fun x => strip fuel x.1 x.2 length).
Proof.
  change (strip (S fuel) (Slice v a b) start length) with
    (obind (narrow (S (depth v)) v (start + a) length)
           (fun x => let '(n, s) := x in strip fuel n s length)).
  by destruct (narrow (S (depth v)) v (start + a) length) as [[]| |].
Qed.

Lemma strip_sub fuel node start length n' s' :
  strip fuel node start length = Ok (n', s') -> Q node -> Q n'.
Proof.
  revert node start. induction fuel as [|fuel IH]; intros node start; [done|].
  destruct node as [v w sg|s|op l|v a b|l|v n];
    try (by intros [= <- <-]).
  rewrite strip_Slice.
  destruct (narrow (S (depth v)) v (start + a) length) as [[n1 s1]| |] eqn:Hn;
    try done.
  cbn [obind fst snd]. intros Hres HQ. apply (IH _ _ Hres).
  apply (narrow_sub _ _ _ _ _ _ Hn). by apply (Q_Slice v a b).
Qed.
End SubExpressions.

Section StripFacts.
Variable operator_bits_sign : string -> list (Z * bool) -> Z * bool.
Local Abbreviation narrow := (narrow operator_bits_sign).
Local Abbreviation strip := (strip operator_bits_sign).

(** The outer loop ends within its budget, below every slice it removed. *)
Lemma strip_result fuel node start length :
  (depth node < fuel)%nat ->
  strip fuel node start length = Raise ZeroDivisionError \/
  exists n' s', strip fuel node start length = Ok (n', s') /\
    (depth n' <= depth node)%nat /\
    (forall v a b, node = Slice v a b -> (depth n' <= depth v)%nat).
Proof.
  revert node start. induction fuel as [|fuel IH]; intros node start Hf; [lia|].
  destruct node as [v w sg|s|op l|v a b|l|v n];
    try (right; eexists _, _; split; [reflexivity|]; split; [lia|done]).
  rewrite strip_Slice.
  destruct (narrow_result operator_bits_sign (S (depth v)) v (start + a) length)
    as [->|(n1 & s1 & -> & Hd & _)]; [lia|by left|].
  cbn [obind fst snd]. cbn [depth] in Hf.
  destruct (IH n1 s1) as [->|(n' & s' & -> & Hd' & _)]; [lia|by left|].
  right. exists n', s'. split; [done|]. split; [cbn [depth]; lia|].
  intros ? ? ? [= <- _ _]. lia.
Qed.
End StripFacts.

(* ------------------------------------------------------------------ *)
(** ** The lowerer leaves slices of signals only                        *)
(* ------------------------------------------------------------------ *)

Ltac step_visit_fuel := cbn [visit_fuel].
Ltac unfold_visit_Slice := unfold visit_Slice.
Ltac step_visit_statements := cbn [visit_statements].
Ltac step_visit_groups := cbn [visit_groups].

Section Lowered.
Variable operator_bits_sign : string -> list (Z * bool) -> Z * bool.
Local Abbreviation visit_Slice := (visit_Slice operator_bits_sign).
Local Abbreviation visit_fuel := (visit_fuel operator_bits_sign).
Local Abbreviation visit := (visit operator_bits_sign).
Local Abbreviation visit_node := (visit_node operator_bits_sign).
Local Abbreviation visit_statements := (visit_statements operator_bits_sign).
Local Abbreviation visit_groups := (visit_groups operator_bits_sign).
Local Abbreviation strip := (strip operator_bits_sign).

(** [P] holds of the signals the pass may leave behind: those it was given
    and the proxies it makes from [first_duid] on. *)
Variable P : signal -> Prop.
Variable first_duid : Z.
Hypothesis P_proxy : forall st bits_sign,
  first_duid <= next_duid st -> P (new_Signal bits_sign st).1.

Definition value_lowered (v : value) : Prop :=
  Forall P (signals_of v) /\
  Forall (fun o => is_Signal o = true) (slice_operands v).

Definition stmt_lowered (s : stmt) : Prop :=
  Forall value_lowered (stmt_values s).

Definition lstate_ok (st : lstate) : Prop :=
  first_duid <= next_duid st /\ Forall stmt_lowered (lcomb st).

(** The call returned a good result in a good state, or the division of
    [_lower_slice_replicate] raised; the budget was not exhausted. *)
Definition lowers {A} (good : A -> Prop) (r : outcome (A * lstate)) : Prop :=
  match r with
  | Ok (a, st') => good a /\ lstate_ok st'
  | Raise e => e = ZeroDivisionError
  | OutOfFuel => False
  end.

Lemma lowers_bind {A B} (good : A -> Prop) (good' : B -> Prop)
    (m : outcome (A * lstate)) (k : A * lstate -> outcome (B * lstate)) :
  lowers good m ->
  (forall a st, good a -> lstate_ok st -> lowers good' (k (a, st))) ->
  lowers good' (obind m k).
Proof.
  destruct m as [[a st]|e|]; simpl; [|done..].
  intros [Ha Hst] Hk. by apply Hk.
Qed.

Lemma value_lowered_list (l : list value) :
  Forall value_lowered l ->
  Forall P (l ≫= signals_of) /\
  Forall (fun o => is_Signal o = true) (l ≫= slice_operands).
Proof.
  intros H. rewrite !Forall_bind. split.
  - eapply Forall_impl; [exact H|]. by intros v [Hs _].
  - eapply Forall_impl; [exact H|]. by intros v [_ Ho].
Qed.

Lemma visit_values_lowers vis (l : list value) st :
  (forall x st, x ∈ l -> Forall P (signals_of x) -> lstate_ok st ->
     lowers value_lowered (vis x st)) ->
  Forall P (l ≫= signals_of) ->
  lstate_ok st ->
  lowers (Forall value_lowered) (visit_values vis l st).
Proof.
  revert st. induction l as [|x l IH]; intros st Hvis Hsig Hst; simpl; [done|].
  rewrite bind_cons, Forall_app in Hsig. destruct Hsig as [Hx Hl].
  eapply lowers_bind; [apply Hvis; [left|done..]|].
  intros x' st1 Hx' Hst1.
  eapply lowers_bind; [apply IH; [|done..]|].
  { intros y st' Hy. apply Hvis. by right. }
  intros l' st2 Hl' Hst2. simpl. split; [|done]. by constructor.
Qed.

Lemma visit_fuel_Sig fuel tc s st :
  fuel <> O -> visit_fuel fuel tc (Sig s) st = Ok (Sig s, st).
Proof. by destruct fuel. Qed.

Lemma visit_Assign_lowers (vis : visitor) l r st :
  (forall tc st, lstate_ok st -> lowers value_lowered (vis tc l st)) ->
  (forall tc st, lstate_ok st -> lowers value_lowered (vis tc r st)) ->
  lstate_ok st ->
  lowers stmt_lowered (visit_Assign vis l r st).
Proof.
  intros Hl Hr Hst. unfold visit_Assign.
  eapply lowers_bind; [by apply Hl|]. intros lhs st1 Hlhs Hst1.
  eapply lowers_bind; [by apply Hr|]. intros rhs st2 Hrhs Hst2.
  simpl. split; [|done]. unfold stmt_lowered. simpl.
  repeat (apply Forall_cons_2; [done|]). apply Forall_nil_2.
Qed.

Lemma signals_of_sub :
  (forall l e, Forall P (signals_of (Cat l)) -> e ∈ l -> Forall P (signals_of e)) /\
  (forall v (n : Z), Forall P (signals_of (Replicate v n)) -> Forall P (signals_of v)) /\
  (forall v (a b : Z), Forall P (signals_of (Slice v a b)) -> Forall P (signals_of v)).
Proof.
  repeat split; try done.
  intros l e Hl He. simpl in Hl. rewrite Forall_bind, Forall_forall in Hl.
  by apply Hl.
Qed.

Lemma value_lowered_Sig s : P s -> value_lowered (Sig s).
Proof. intros Hs. split; simpl; [by repeat constructor|constructor]. Qed.

Lemma value_lowered_Slice_Sig s a b : P s -> value_lowered (Slice (Sig s) a b).
Proof. intros Hs. split; simpl; by repeat constructor. Qed.

Lemma visit_fuel_lowers fuel tc node st :
  (depth node < fuel)%nat ->
  Forall P (signals_of node) ->
  lstate_ok st ->
  lowers value_lowered (visit_fuel fuel tc node st).
Proof.
  revert tc node st. induction fuel as [|fuel IH]; intros tc node st Hf Hsig Hst;
    [lia|].
  destruct node as [c w sg|s|op l|v a b|l|v n].
  - simpl. split; [|done]. split; simpl; constructor.
  - simpl. split; [|done]. by apply value_lowered_Sig, Forall_singleton.
  - step_visit_fuel.
    eapply lowers_bind.
    { apply visit_values_lowers; [|done..].
      intros x st' Hx Hxs Hst'. apply IH; [|done..].
      pose proof (depth_elem x l Hx). cbn [depth] in Hf. lia. }
    intros l' st1 Hl' Hst1. simpl. split; [|done].
    by apply value_lowered_list.
  - step_visit_fuel. unfold_visit_Slice.
    set (length := len operator_bits_sign (Slice v a b)).
    pose proof (strip_result operator_bits_sign (S (depth (Slice v a b)))
                  (Slice v a b) 0 length) as Hres.
    destruct signals_of_sub as (HQ1 & HQ2 & HQ3).
    pose proof (fun n' s' => strip_sub operator_bits_sign
                  (fun x => Forall P (signals_of x)) HQ1 HQ2 HQ3
                  (S (depth (Slice v a b))) (Slice v a b) 0 length n' s') as Hsub.
    destruct (strip (S (depth (Slice v a b)))
                (Slice v a b) 0 length) as [[n' s']|e|].
    2:{ destruct Hres as [[= ->]|(? & ? & ? & _)]; [lia|done|done]. }
    2:{ destruct Hres as [?|(? & ? & ? & _)]; [lia|done|done]. }
    destruct Hres as [?|(? & ? & [= <- <-] & _ & Hd)]; [lia|done|].
    specialize (Hd v a b eq_refl). specialize (Hsub n' s' eq_refl Hsig).
    cbn [depth] in Hf. cbn [obind].
    case_bool_decide as Hwhole; [apply IH; [lia|done..]|].
    assert (fuel <> O) as Hfuel by lia.
    destruct n' as [c' w' sg'|s|op' l'|v' a' b'|l'|v' m'] eqn:En'; cbn [is_Signal].
    2:{ rewrite visit_fuel_Sig by done. simpl. split; [|done].
        apply value_lowered_Slice_Sig. simpl in Hsub. by inversion Hsub. }
    all: rewrite <- En' in *; clear En'.
    all: destruct (new_Signal (value_bits_sign operator_bits_sign n') st)
           as [slice_proxy st0] eqn:Hnew.
    all: assert (P slice_proxy) as Hproxy
           by (destruct Hst; pose proof (P_proxy st
                 (value_bits_sign operator_bits_sign n')) as HP;
               rewrite Hnew in HP; by apply HP).
    all: assert (lstate_ok st0) as Hst0
           by (unfold new_Signal in Hnew; injection Hnew as <- <-;
               destruct Hst; split; simpl; [lia|done]).
    all: assert (forall tc' st', lstate_ok st' ->
                   lowers value_lowered (visit_fuel fuel tc' (Sig slice_proxy) st'))
           as Hvp
           by (intros tc' st' Hst'; rewrite visit_fuel_Sig by done; simpl;
               split; [by apply value_lowered_Sig|done]).
    all: assert (forall tc' st', lstate_ok st' ->
                   lowers value_lowered (visit_fuel fuel tc' n' st'))
           as Hvn by (intros tc' st' Hst'; apply IH; [lia|done..]).
    all: destruct tc.
    all: (eapply lowers_bind;
          [by apply visit_Assign_lowers|]; intros asg st1 Hasg Hst1;
          rewrite visit_fuel_Sig by done; simpl; split;
          [by apply value_lowered_Slice_Sig|];
          destruct Hst1 as [Hd1 Hc1]; split; simpl; [done|];
          apply Forall_app; split; [done|]; by apply Forall_singleton).
  - step_visit_fuel.
    eapply lowers_bind.
    { apply visit_values_lowers; [|done..].
      intros x st' Hx Hxs Hst'. apply IH; [|done..].
      pose proof (depth_elem x l Hx). cbn [depth] in Hf. lia. }
    intros l' st1 Hl' Hst1. simpl. split; [|done].
    by apply value_lowered_list.
  - step_visit_fuel.
    eapply lowers_bind; [apply IH; [cbn [depth] in Hf; lia|done..]|].
    intros v' st1 Hv' Hst1. simpl. by split.
Qed.
Lemma visit_lowers tc node st :
  Forall P (signals_of node) ->
  lstate_ok st ->
  lowers value_lowered (visit tc node st).
Proof. intros. apply visit_fuel_lowers; [lia|done..]. Qed.

(** The expressions of a statement mention signals satisfying [P] only. *)
Definition stmt_signals_ok (s : stmt) : Prop :=
  Forall (fun v => Forall P (signals_of v)) (stmt_values s).

Lemma visit_node_Stmts l st :
  visit_node (Stmts l) st =
    obind (visit_statements l st) (fun x => Ok (Stmts x.1, x.2)).
Proof.
  change (visit_node (Stmts l) st) with
    (obind (visit_statements l st) (fun x => let '(l', st1) := x in Ok (Stmts l', st1))).
  by destruct (visit_statements l st) as [[]| |].
Qed.

Lemma visit_node_If c t f st :
  visit_node (If c t f) st =
    obind (visit false c st) (fun x1 =>
    obind (visit_statements t x1.2) (fun x2 =>
    obind (visit_statements f x2.2) (fun x3 =>
    Ok (If x1.1 x2.1 x3.1, x3.2)))).
Proof.
  change (visit_node (If c t f) st) with
    (obind (visit false c st) (fun x1 => let '(c', st1) := x1 in
     obind (visit_statements t st1) (fun x2 => let '(t', st2) := x2 in
     obind (visit_statements f st2) (fun x3 => let '(f', st3) := x3 in
     Ok (If c' t' f', st3))))).
  destruct (visit false c st) as [[c' st1]| |]; simpl; try done.
  destruct (visit_statements t st1) as [[t' st2]| |]; simpl; try done.
  by destruct (visit_statements f st2) as [[f' st3]| |].
Qed.

(** The loop over [node.cases] inside [visit_node]. *)
Fixpoint visit_cases (cs : list (case_key * list stmt)) (st : lstate)
  : outcome (list (case_key * list stmt) * lstate) :=
  match cs with
  | [] => Ok ([], st)
  | (k, b) :: cs' =>
      '(b', st1) <~ visit_statements b st;
      '(cs'', st2) <~ visit_cases cs' st1;
      Ok ((k, b') :: cs'', st2)
  end.

Lemma visit_node_Case test cases st :
  visit_node (Case test cases) st =
    obind (visit_cases cases st) (fun x1 =>
    obind (visit false test x1.2) (fun x2 =>
    Ok (Case x2.1 x1.1, x2.2))).
Proof.
  change (visit_node (Case test cases) st) with
    (obind (visit_cases cases st) (fun x1 => let '(cases', st1) := x1 in
     obind (visit false test st1) (fun x2 => let '(test', st2) := x2 in
     Ok (Case test' cases', st2)))).
  destruct (visit_cases cases st) as [[cases' st1]| |]; simpl; try done.
  by destruct (visit false test st1) as [[]| |].
Qed.

Lemma visit_statements_lowers l st :
  Forall (fun s => forall st, stmt_signals_ok s -> lstate_ok st ->
            lowers stmt_lowered (visit_node s st)) l ->
  Forall stmt_signals_ok l ->
  lstate_ok st ->
  lowers (Forall stmt_lowered) (visit_statements l st).
Proof.
  intros IH. revert st. induction IH as [|s l Hs _ IHl]; intros st Hsig Hst.
  - by simpl.
  - apply Forall_cons in Hsig as [Hsig1 Hsig2].
    step_visit_statements.
    eapply lowers_bind; [by apply Hs|]. intros s' st1 Hs' Hst1.
    eapply lowers_bind; [by apply IHl|]. intros l' st2 Hl' Hst2.
    simpl. split; [by constructor|done].
Qed.

Lemma stmt_signals_ok_list (l : list stmt) :
  Forall (fun v => Forall P (signals_of v)) (l ≫= stmt_values) ->
  Forall stmt_signals_ok l.
Proof. by rewrite Forall_bind. Qed.

Lemma stmt_lowered_list (l : list stmt) :
  Forall stmt_lowered l -> Forall value_lowered (l ≫= stmt_values).
Proof. by rewrite Forall_bind. Qed.

Lemma visit_node_lowers node st :
  stmt_signals_ok node ->
  lstate_ok st ->
  lowers stmt_lowered (visit_node node st).
Proof.
  revert st.
  induction node as [l r|l IH|c t f IHt IHf|test cases IH|s args| |ty]
    using stmt_nested_ind; intros st Hsig Hst.
  - unfold stmt_signals_ok in Hsig. simpl in Hsig.
    apply Forall_cons in Hsig as [Hl Hsig]. apply Forall_cons in Hsig as [Hr _].
    apply visit_Assign_lowers; [| |done]; intros; by apply visit_lowers.
  - rewrite visit_node_Stmts.
    eapply lowers_bind.
    { apply visit_statements_lowers; [done| |done]. by apply stmt_signals_ok_list. }
    intros l' st1 Hl' Hst1. simpl. split; [|done]. by apply stmt_lowered_list.
  - rewrite visit_node_If. unfold stmt_signals_ok in Hsig. simpl in Hsig.
    apply Forall_cons in Hsig as [Hc Hsig]. apply Forall_app in Hsig as [Ht Hf].
    eapply lowers_bind; [by apply visit_lowers|]. intros c' st1 Hc' Hst1.
    eapply lowers_bind.
    { apply visit_statements_lowers; [done| |done]. by apply stmt_signals_ok_list. }
    intros t' st2 Ht' Hst2.
    eapply lowers_bind.
    { apply visit_statements_lowers; [done| |done]. by apply stmt_signals_ok_list. }
    intros f' st3 Hf' Hst3. simpl. split; [|done].
    unfold stmt_lowered. simpl. apply Forall_cons_2; [done|].
    apply Forall_app. split; by apply stmt_lowered_list.
  - rewrite visit_node_Case. unfold stmt_signals_ok in Hsig. simpl in Hsig.
    apply Forall_cons in Hsig as [Htest Hsig].
    eapply lowers_bind with
      (good := fun cs => Forall value_lowered
                 (cs ≫= (fun '(_, b) => b ≫= stmt_values))).
    { clear Htest. revert st Hst Hsig.
      induction IH as [|[k b] cs Hb _ IHcs]; intros st Hst Hsig; [by simpl|].
      rewrite bind_cons in Hsig. apply Forall_app in Hsig as [Hb' Hcs'].
      cbn [visit_cases].
      eapply lowers_bind.
      { apply visit_statements_lowers; [exact Hb| |done].
        by apply stmt_signals_ok_list. }
      intros b' st1 Hb'' Hst1.
      eapply lowers_bind; [by apply IHcs|]. intros cs' st2 Hcs'' Hst2.
      cbn [lowers]. split; [|done]. rewrite bind_cons. apply Forall_app.
      split; [by apply stmt_lowered_list|done]. }
    intros cases' st1 Hcases' Hst1.
    eapply lowers_bind; [by apply visit_lowers|]. intros test' st2 Htest' Hst2.
    simpl. split; [|done]. unfold stmt_lowered. simpl. by apply Forall_cons_2.
  - simpl. split; [constructor|done].
  - simpl. split; [constructor|done].
  - simpl. split; [constructor|done].
Qed.

Lemma visit_statements_lowers' l st :
  Forall stmt_signals_ok l ->
  lstate_ok st ->
  lowers (Forall stmt_lowered) (visit_statements l st).
Proof.
  intros. apply visit_statements_lowers; [|done..].
  apply Forall_forall. intros s _ st'. apply visit_node_lowers.
Qed.

Lemma visit_groups_lowers items st :
  Forall (fun kv => Forall stmt_signals_ok kv.2) items ->
  lstate_ok st ->
  lowers (Forall (fun kv => Forall stmt_lowered kv.2)) (visit_groups items st).
Proof.
  revert st. induction items as [|[k v] items IH]; intros st Hsig Hst; [by simpl|].
  apply Forall_cons in Hsig as [Hv Hitems].
  step_visit_groups.
  eapply lowers_bind; [by apply visit_statements_lowers'|]. intros v' st1 Hv' Hst1.
  eapply lowers_bind; [by apply IH|]. intros items' st2 Hitems' Hst2.
  simpl. split; [by constructor|done].
Qed.
Lemma slice_operand_signals v o s :
  o ∈ slice_operands v -> s ∈ signals_of o -> s ∈ signals_of v.
Proof.
  induction v as [c w sg|s0|op l IH|v a b IH|l IH|v n IH] using value_nested_ind;
    simpl; intros Ho Hs.
  - by apply elem_of_nil in Ho.
  - by apply elem_of_nil in Ho.
  - apply list_elem_of_bind in Ho as (x & Ho & Hx).
    apply list_elem_of_bind. exists x. split; [|done].
    rewrite Forall_forall in IH. by apply IH.
  - apply elem_of_cons in Ho as [->|Ho]; [done|by apply IH].
  - apply list_elem_of_bind in Ho as (x & Ho & Hx).
    apply list_elem_of_bind. exists x. split; [|done].
    rewrite Forall_forall in IH. by apply IH.
  - by apply IH.
Qed.

Lemma value_lowered_operand v o :
  value_lowered v -> o ∈ slice_operands v -> exists s, o = Sig s /\ P s.
Proof.
  intros [Hsig Hops] Ho.
  rewrite Forall_forall in Hops. specialize (Hops o Ho).
  destruct o as [| s | | | |]; try done.
  exists s. split; [done|]. rewrite Forall_forall in Hsig. apply Hsig.
  apply (slice_operand_signals v (Sig s)); [done|]. simpl. left.
Qed.
End Lowered.

(** The pass does not exhaust its recursion budget. *)
Lemma lower_complex_slices_returns
    (operator_bits_sign : string -> list (Z * bool) -> Z * bool)
    (first_duid : Z) (f : fragment) :
  returns_or_raises (lower_complex_slices operator_bits_sign first_duid f).
Proof.
  set (P := fun _ : signal => True).
  assert (Hany : forall l : list stmt, Forall (stmt_signals_ok P) l).
  { intros l. apply Forall_forall. intros s _. apply Forall_forall.
    intros v _. by apply Forall_forall. }
  assert (Hst : lstate_ok P first_duid (MkLState first_duid [])).
  { split; simpl; [lia|constructor]. }
  pose proof (visit_statements_lowers' operator_bits_sign P first_duid
                (fun _ _ _ => I) (comb f) _ (Hany _) Hst) as H1.
  unfold lower_complex_slices, returns_or_raises.
  destruct (visit_statements operator_bits_sign (comb f) (MkLState first_duid []))
    as [[comb' st1]|e|]; simpl in H1; [|done..].
  destruct H1 as [_ Hst1]. cbn [obind]. unfold visit_clock_domains.
  assert (Hsync : Forall (fun kv : string * list stmt =>
                            Forall (stmt_signals_ok P) kv.2)
                    (sorted str_le fst (map_to_list (sync f)))).
  { apply Forall_forall. intros kv _. apply Hany. }
  pose proof (visit_groups_lowers operator_bits_sign P first_duid
                (fun _ _ _ => I) _ st1 Hsync Hst1) as H2.
  destruct (visit_groups operator_bits_sign
              (sorted str_le fst (map_to_list (sync f))) st1)
    as [[items' st2]|e|]; simpl in H2; [done|done|done].
Qed.

(** C2. [lower_complex_slices] finishes within its recursion budget (or the
    floor division of a zero-width replication raises), and in the fragment
    it returns the operand of every slice, in [comb] and in every group of
    [sync], is a signal: one the fragment already mentioned, or a proxy the
    pass created. No slice of a concatenation or replication is left. *)
Theorem lower_complex_slices_leaves_signal_slices
    (operator_bits_sign : string -> list (Z * bool) -> Z * bool)
    (first_duid : Z) (f : fragment) :
  (lower_complex_slices operator_bits_sign first_duid f = Raise ZeroDivisionError \/
   exists f', lower_complex_slices operator_bits_sign first_duid f = Ok f') /\
  (forall f', lower_complex_slices operator_bits_sign first_duid f = Ok f' ->
     forall o, o ∈ fragment_slice_operands f' ->
       exists s, o = Sig s /\
         (s ∈ fragment_signals f \/ slice_proxy_from first_duid s)).
Proof.
  set (P := fun s => s ∈ fragment_signals f \/ slice_proxy_from first_duid s).
  assert (P_proxy : forall st bits_sign,
             first_duid <= next_duid st -> P (new_Signal bits_sign st).1).
  { intros st bs Hd. right. by exists (next_duid st), bs. }
  assert (Hcomb : Forall (stmt_signals_ok P) (comb f)).
  { apply Forall_forall. intros s Hs. apply Forall_forall. intros v Hv.
    apply Forall_forall. intros sg Hsg. left.
    apply list_elem_of_bind. exists v. split; [done|].
    apply elem_of_app. left. apply list_elem_of_bind. by exists s. }
  assert (Hsync : Forall (fun kv => Forall (stmt_signals_ok P) kv.2)
                    (sorted str_le fst (map_to_list (sync f)))).
  { apply Forall_forall. intros kv Hkv. apply elem_of_sorted in Hkv.
    apply Forall_forall. intros s Hs. apply Forall_forall. intros v Hv.
    apply Forall_forall. intros sg Hsg. left.
    apply list_elem_of_bind. exists v. split; [done|].
    apply elem_of_app. right. apply list_elem_of_bind. exists kv.
    split; [|done]. apply list_elem_of_bind. by exists s. }
  assert (Hst : lstate_ok P first_duid (MkLState first_duid [])).
  { split; simpl; [lia|constructor]. }
  pose proof (visit_statements_lowers' operator_bits_sign P first_duid P_proxy
                (comb f) _ Hcomb Hst) as H1.
  unfold lower_complex_slices.
  destruct (visit_statements operator_bits_sign (comb f) (MkLState first_duid []))
    as [[comb' st1]|e|]; simpl in H1; [|subst e; split; [by left|done]|done].
  destruct H1 as [Hcomb' Hst1]. cbn [obind]. unfold visit_clock_domains.
  pose proof (visit_groups_lowers operator_bits_sign P first_duid P_proxy
                _ st1 Hsync Hst1) as H2.
  destruct (visit_groups operator_bits_sign
              (sorted str_le fst (map_to_list (sync f))) st1)
    as [[items' st2]|e|]; simpl in H2; [|subst e; split; [by left|done]|done].
  destruct H2 as [Hitems' [_ Hlcomb]]. cbn [obind].
  split; [right; by eexists|].
  intros f' [= <-] o Ho.
  apply list_elem_of_bind in Ho as (v & Ho & Hv).
  apply (value_lowered_operand P v o); [|done].
  unfold fragment_values in Hv. cbn [comb sync] in Hv.
  apply elem_of_app in Hv as [Hv|Hv].
  - apply list_elem_of_bind in Hv as (s & Hv & Hs).
    apply elem_of_app in Hs as [Hs|Hs].
    + rewrite Forall_forall in Hcomb'. specialize (Hcomb' s Hs).
      unfold stmt_lowered in Hcomb'. rewrite Forall_forall in Hcomb'. by apply Hcomb'.
    + rewrite Forall_forall in Hlcomb. specialize (Hlcomb s Hs).
      unfold stmt_lowered in Hlcomb. rewrite Forall_forall in Hlcomb. by apply Hlcomb.
  - apply list_elem_of_bind in Hv as ([k b] & Hv & Hkb).
    apply elem_of_map_to_list, elem_of_list_to_map_2 in Hkb.
    rewrite Forall_forall in Hitems'. specialize (Hitems' _ Hkb). simpl in *.
    apply list_elem_of_bind in Hv as (s & Hv & Hs).
    rewrite Forall_forall in Hitems'. specialize (Hitems' s Hs).
    unfold stmt_lowered in Hitems'. rewrite Forall_forall in Hitems'. by apply Hitems'.
Qed.

(* ------------------------------------------------------------------ *)
(** ** Text helpers                                                     *)
(* ------------------------------------------------------------------ *)

(** The line feed and the double quote. *)
Definition nl : string := String "010"%char EmptyString.
Definition dquote : string := String "034"%char EmptyString.

(** [_tab = " "*4] and [_tab*level]. *)
Definition _tab : string := "    ".

Fixpoint tabs (level : nat) : string :=
  match level with
  | O => EmptyString
  | S n => _tab +:+ tabs n
  end.

(** Concatenation of texts. *)
Fixpoint concat_text (l : list string) : string :=
  match l with
  | [] => EmptyString
  | s :: l' => s +:+ concat_text l'
  end.

(** Concatenation of texts, the first exception winning. *)
Fixpoint join (l : list (outcome string)) : outcome string :=
  match l with
  | [] => Ok EmptyString
  | m :: l' => s <~ m; r <~ join l'; Ok (s +:+ r)
  end.

Lemma append_assoc (a b c : string) : (a +:+ b) +:+ c = a +:+ b +:+ c.
Proof.
  induction a as [|x a IH]; [done|].
  change (String x ((a +:+ b) +:+ c) = String x (a +:+ b +:+ c)). by rewrite IH.
Qed.

Lemma append_nil_r (a : string) : a +:+ EmptyString = a.
Proof.
  induction a as [|x a IH]; [done|].
  change (String x (a +:+ EmptyString) = String x a). by rewrite IH.
Qed.

Lemma join_app l1 l2 :
  join (l1 ++ l2) = (a <~ join l1; b <~ join l2; Ok (a +:+ b)).
Proof.
  induction l1 as [|m l1 IH]; simpl.
  - by destruct (join l2).
  - destruct m as [s| |]; simpl; [|done..]. rewrite IH.
    destruct (join l1) as [a| |]; simpl; [|done..].
    destruct (join l2) as [b| |]; simpl; [|done..].
    by rewrite append_assoc.
Qed.

Lemma join_returns (l : list (outcome string)) :
  Forall returns_or_raises l -> returns_or_raises (join l).
Proof.
  induction 1 as [|m l Hm _ IH]; simpl; [done|].
  apply obind_returns; [done|]. intros a. by apply obind_returns.
Qed.

Lemma join_fmap_returns {A} (g : A -> outcome string) (l : list A) :
  (forall x, x ∈ l -> returns_or_raises (g x)) ->
  returns_or_raises (join (g <$> l)).
Proof.
  intros H. apply join_returns, Forall_fmap, Forall_forall. exact H.
Qed.

(* ------------------------------------------------------------------ *)
(** ** Nodes                                                            *)
(* ------------------------------------------------------------------ *)

Inductive AssignType : Type :=
| BLOCKING
| NON_BLOCKING
| SIGNAL.

(** The value a [Constant] key of [Case.cases] carries, by which the
    branches are sorted. *)
Definition key_value (k : case_key) : Z :=
  match k with
  | KConstant v _ _ => v
  | KDefault => 0
  end.

Definition is_Constant_key (k : case_key) : bool :=
  match k with
  | KConstant _ _ _ => true
  | KDefault => false
  end.

(** The key as the expression handed to the expression renderer. *)
Definition key_expr (k : case_key) : value :=
  match k with
  | KConstant v w sg => Constant v w sg
  | KDefault => Constant 0 0 false
  end.

(** [node.cases["default"]], when ["default" in node.cases]. *)
Fixpoint default_case {B} (cases : list (case_key * B)) : option B :=
  match cases with
  | [] => None
  | (KDefault, b) :: _ => Some b
  | (KConstant _ _ _, _) :: cases' => default_case cases'
  end.

(** The reset constant of a signal, as an expression. *)
Definition reset_expr (s : signal) : value :=
  Constant (reset s) (nbits s) (signed s).

Section Emitter.
(** The namespace and the imported renderers: [ns.get_name],
    [_generate_expression(ns, e)[0]], migen's [is_variable] and
    [list_targets]. *)
Variable get_name : signal -> string.
Variable generate_expression : value -> string.
Variable is_variable : value -> bool.
Variable list_targets : stmt -> gset signal.

(** [target_filter is not None and target_filter not in list_targets(node)]. *)
Definition filtered_out (target_filter : option signal) (node : stmt) : bool :=
  match target_filter with
  | Some t => negb (bool_decide (t ∈ list_targets node))
  | None => false
  end.

(** One branch of a [case]: label, body, [end]. *)
Definition case_branch (level : nat) (label : string) (body : outcome string)
  : outcome string :=
  b <~ body;
  Ok (tabs (S level) +:+ label +:+ ": begin" +:+ nl +:+ b +:+
      tabs (S level) +:+ "end" +:+ nl).

(** The text of a [Display] argument list. *)
Fixpoint display_args (args : list display_arg) : string :=
  match args with
  | [] => EmptyString
  | DSignal s :: args' => ", " +:+ get_name s +:+ display_args args'
  | DOther repr :: args' => ", " +:+ repr +:+ display_args args'
  end.

(** The text of a [case] statement whose branch bodies are rendered
    ([_generate_node], [Case] branch, for non-empty [node.cases]): the
    [Constant] keys sorted by value, then the default branch. *)
Definition case_text (level : nat) (test : value)
    (cases : list (case_key * outcome string)) : outcome string :=
  let css := filter (fun kv => is_Constant_key kv.1 = true) cases in
  let css := sorted Z.le (fun kv => key_value kv.1) css in
  bs <~ join ((fun kv => case_branch level (generate_expression (key_expr kv.1))
                           kv.2) <$> css);
  d <~ match default_case cases with
       | Some body => case_branch level "default" body
       | None => Ok EmptyString
       end;
  Ok (tabs level +:+ "case (" +:+ generate_expression test +:+ ")" +:+ nl +:+
      bs +:+ d +:+ tabs level +:+ "endcase" +:+ nl).

(** [_generate_node(ns, at, level, node, target_filter)]. A list of
    statements ([node.t], [node.f], a branch body) is itself a node: the
    filter applies to it as a whole, then its elements are rendered in turn.
    The branch bodies of a [Case] are rendered where they stand and the
    resulting texts sorted, which yields the text (or the exception) the
    loop over the sorted branches yields. *)
Fixpoint _generate_node (at_ : AssignType) (level : nat) (node : stmt)
    (target_filter : option signal) {struct node} : outcome string :=
  let fix iterable (level : nat) (l : list stmt) {struct l} : outcome string :=
    match l with
    | [] => Ok EmptyString
    | n :: l' =>
        s <~ _generate_node at_ level n target_filter;
        r <~ iterable level l';
        Ok (s +:+ r)
    end in
  let block (level : nat) (l : list stmt) : outcome string :=
    if filtered_out target_filter (Stmts l) then Ok EmptyString
    else iterable level l in
  if filtered_out target_filter node then Ok EmptyString
  else
    match node with
    | Assign l r =>
        let assignment :=
          match at_ with
          | BLOCKING => " = "
          | NON_BLOCKING => " <= "
          | SIGNAL => if is_variable l then " = " else " <= "
          end in
        Ok (tabs level +:+ generate_expression l +:+ assignment +:+
            generate_expression r +:+ ";" +:+ nl)
    | Stmts l => iterable level l
    | If cond t f =>
        rt <~ block (S level) t;
        rf <~ match f with
              | [] => Ok EmptyString
              | _ :: _ =>
                  b <~ block (S level) f;
                  Ok (tabs level +:+ "end else begin" +:+ nl +:+ b)
              end;
        Ok (tabs level +:+ "if (" +:+ generate_expression cond +:+ ") begin" +:+
            nl +:+ rt +:+ rf +:+ tabs level +:+ "end" +:+ nl)
    | Case test cases =>
        match cases with
        | [] => Ok EmptyString
        | _ :: _ =>
            case_text level test
              ((fix bodies (cs : list (case_key * list stmt))
                  : list (case_key * outcome string) :=
                  match cs with
                  | [] => []
                  | (k, b) :: cs' => (k, block (S (S level)) b) :: bodies cs'
                  end) cases)
        end
    | Display s args =>
        Ok (tabs level +:+ "$display(" +:+ dquote +:+ s +:+ dquote +:+
            display_args args +:+ ");" +:+ nl)
    | Finish => Ok (tabs level +:+ "$finish;" +:+ nl)
    | Unknown type_name =>
        Raise (TypeError ("Node of unrecognized type: " +:+ type_name))
    end.
End Emitter.

(* ------------------------------------------------------------------ *)
(** ** Banner, trailer, separators, timescale, hierarchy                *)
(* ------------------------------------------------------------------ *)

(** [_generate_banner(filename, device)]; [revision] is what
    [get_litex_git_revision()] returns and [date] the formatted reading of
    the clock. *)
Definition _generate_banner (filename device revision date : string) : string :=
  "// -----------------------------------------------------------------------------" +:+
  nl +:+ "// Auto-Generated by:        __   _ __      _  __" +:+ nl +:+
  "//                          / /  (_) /____ | |/_/" +:+ nl +:+
  "//                         / /__/ / __/ -_)>  <" +:+ nl +:+
  "//                        /____/_/\__/\__/_/|_|" +:+ nl +:+
  "//                     Build your hardware, easily!" +:+ nl +:+
  "//                   https://github.com/enjoy-digital/litex" +:+ nl +:+
  "//" +:+ nl +:+ "// Filename   : " +:+ filename +:+ ".v" +:+ nl +:+
  "// Device     : " +:+ device +:+ nl +:+ "// LiteX sha1 : " +:+
  revision +:+ nl +:+ "// Date       : " +:+ date +:+ nl +:+
  "//------------------------------------------------------------------------------" +:+
  nl +:+ nl.

(** [_generate_trailer()]; [date] is the formatted reading of the clock. *)
Definition _generate_trailer (date : string) : string :=
  nl +:+
  "// -----------------------------------------------------------------------------" +:+
  nl +:+ "//  Auto-Generated by LiteX on " +:+ date +:+ "." +:+ nl +:+
  "//------------------------------------------------------------------------------" +:+
  nl.

(** ["-"*78]. *)
Definition dashes78 : string :=
  "------------------------------------------------------------------------------".

Definition _generate_separator (msg : string) : string :=
  nl +:+ "//" +:+ dashes78 +:+ nl +:+ "// " +:+ msg +:+ nl +:+
  "//" +:+ dashes78 +:+ nl +:+ nl.

Definition _generate_timescale (time_unit time_precision : string) : string :=
  "`timescale " +:+ time_unit +:+ " / " +:+ time_precision +:+ nl.

(** [_generate_hierarchy(top)]; [top] is the text [get_hierarchy()] gives for
    [LiteXContext.top], when there is one. Splitting the text into lines,
    ending each with a line feed and dropping the last character gives the
    text back. *)
Definition _generate_hierarchy (top : option string) : string :=
  match top with
  | None => EmptyString
  | Some hierarchy => "/*" +:+ nl +:+ hierarchy +:+ "*/" +:+ nl
  end.

(* ------------------------------------------------------------------ *)
(** ** Reserved keywords                                                *)
(* ------------------------------------------------------------------ *)

(** [_ieee_1800_2017_verilog_reserved_keywords], entry by entry. *)
Definition _ieee_1800_2017_verilog_reserved_keywords : list string :=
  ["accept_on"; "alias"; "always"; "always_comb"; "always_ff";
   "always_latch"; "and"; "assert"; "assign"; "assume"; "automatic";
   "before"; "begin"; "bind"; "bins"; "binsof"; "bit"; "break"; "buf";
   "bufif0"; "bufif1"; "byte"; "case"; "casex"; "casez"; "cell"; "chandle";
   "checker"; "class"; "clocking"; "cmos"; "config"; "const"; "constraint";
   "context"; "continue"; "cover"; "covergroup"; "coverpoint"; "cross";
   "deassign"; "default"; "defparam"; "design"; "disable"; "dist"; "do";
   "edge"; "else"; "end"; "endcase"; "endchecker"; "endclass"; "endclocking";
   "endconfig"; "endfunction"; "endgenerate"; "endgroup"; "endinterface";
   "endmodule"; "endpackage"; "endprimitive"; "endprogram"; "endproperty";
   "endsequence"; "endspecify"; "endtable"; "endtask"; "enum"; "event";
   "eventually"; "expect"; "export"; "extends"; "extern"; "final";
   "first_match"; "for"; "force"; "foreach"; "forever"; "fork"; "forkjoin";
   "function"; "generate"; "genvar"; "global"; "highz0"; "highz1"; "if";
   "iff"; "ifnone"; "ignore_bins"; "illegal_bins"; "implements"; "implies";
   "import"; "incdir"; "include"; "initial"; "inout"; "input"; "inside";
   "instance"; "int"; "integer"; "interconnect"; "interface"; "intersect";
   "join"; "join_any"; "join_none"; "large"; "let"; "liblist"; "library";
   "local"; "localparam"; "logic"; "longint"; "macromodule"; "matches";
   "medium"; "modport"; "module"; "nand"; "negedge"; "nettype"; "new";
   "nexttime"; "nmos"; "nor"; "noshowcancelled"; "not"; "notif0"; "notif1";
   "null"; "or"; "output"; "package"; "packed"; "parameter"; "pmos";
   "posedge"; "primitive"; "priority"; "program"; "property"; "protected";
   "pull0"; "pull1"; "pulldown"; "pullup"; "pulsestyle_ondetect";
   "pulsestyle_onevent"; "pure"; "rand"; "randc"; "randcase"; "randsequence";
   "rcmos"; "real"; "realtime"; "ref"; "reg"; "reject_on"; "release";
   "      repeat"; "restrict"; "return"; "rnmos"; "rpmos"; "rtran";
   "rtranif0"; "rtranif1"; "s_always"; "s_eventually"; "s_nexttime";
   "s_until"; "s_until_with"; "scalared"; "sequence"; "shortint";
   "shortreal"; "showcancelled"; "signed"; "small"; "soft"; "solve";
   "specify"; "specparam"; "static"; "string"; "strong"; "strong0";
   "strong1"; "struct"; "super"; "supply0"; "supply1"; "sync_accept_on";
   "sync_reject_on"; "table"; "tagged"; "task"; "this"; "throughout"; "time";
   "timeprecision"; "timeunit"; "tran"; "tranif0"; "tranif1"; "tri"; "tri0";
   "tri1"; "triand"; "trior"; "trireg"; "type"; "typedef"; "       union";
   "unique"; "unique0"; "unsigned"; "until"; "until_with"; "untyped"; "use";
   "   uwire"; "var"; "vectored"; "virtual"; "void"; "wait"; "wait_order";
   "wand"; "weak"; "weak0"; "weak1"; "while"; "wildcard"; "wire"; "with";
   "within"; "wor"; "xnor"; "xor"].

(* ------------------------------------------------------------------ *)
(** ** Module, signals, combinatorial and synchronous logic, specials   *)
(* ------------------------------------------------------------------ *)

(** [_use_wire(stmts)]. *)
Definition _use_wire (stmts : list stmt) : bool :=
  bool_decide (length stmts = 1%nat) &&
  match stmts !! 0%nat with
  | Some (Assign l _) => negb (is_Slice l)
  | _ => false
  end.

(** [f.clock_domains[key]]: the first descriptor of that name. *)
Definition clock_domain_lookup (cds : list clock_domain) (key : string)
  : option clock_domain :=
  list_find (fun cd => cd_name cd = key) cds ≫= (fun x => Some x.2).

(** [target_stmt_map[t].append(statement)] on a dict kept in insertion
    order. *)
Fixpoint dict_append (t : signal) (statement : stmt)
    (m : list (signal * list stmt)) : list (signal * list stmt) :=
  match m with
  | [] => [(t, [statement])]
  | (k, v) :: m' =>
      if decide (k = t) then (k, v ++ [statement]) :: m'
      else (k, v) :: dict_append t statement m'
  end.

Section Generator.
(** The namespace ([ns.get_name]) and the renderers of
    litex.gen.fhdl.expression, applied to it. *)
Variable get_name : signal -> string.
Variable generate_expression : value -> string.
Variable generate_signal : signal -> string.
(** [_generate_attribute(attr, attr_translate)], the attribute line. *)
Variable _generate_attribute : list string -> string.
(** migen's helpers. *)
Variable is_variable : value -> bool.
Variable list_targets : stmt -> gset signal.
Variable group_by_targets : list stmt -> list (gset signal * list stmt).
Variable flat_iteration : list stmt -> list stmt.
Variable fragment_targets : fragment -> gset signal.
Variable list_signals : fragment -> gset signal.
Variable list_special_ios : fragment -> bool -> bool -> bool -> gset signal.
(** The special emitters: [_memory_generate_verilog],
    [_instance_generate_verilog] and
    [call_special_classmethod(overrides, special, "emit_verilog", ...)];
    [None] is Python's [None]. *)
Variable _memory_generate_verilog : special -> option string.
Variable _instance_generate_verilog : special -> option string.
Variable call_special_classmethod_emit_verilog : special -> option string.

Local Abbreviation _generate_node :=
  (_generate_node get_name generate_expression is_variable list_targets).

(** [_list_comb_wires(f)]. *)
Definition _list_comb_wires (f : fragment) : gset signal :=
  foldl (fun r g => if _use_wire g.2 then r ∪ g.1 else r) ∅
        (group_by_targets (comb f)).

(** One port of [_generate_module]. *)
Definition port_text (inouts targets wires : gset signal) (sig : signal)
  : string :=
  let attr := _generate_attribute (attr sig) in
  (if decide (attr = EmptyString) then EmptyString else _tab +:+ attr) +:+
  (if decide (sig ∈ inouts) then _tab +:+ "inout  wire " +:+ generate_signal sig
   else if decide (sig ∈ targets) then
     if decide (sig ∈ wires) then _tab +:+ "output wire " +:+ generate_signal sig
     else _tab +:+ "output reg  " +:+ generate_signal sig
   else _tab +:+ "input  wire " +:+ generate_signal sig).

(** The ports, separated by a comma and a line feed. *)
Fixpoint ports_text (inouts targets wires : gset signal) (firstp : bool)
    (sigs : list signal) : string :=
  match sigs with
  | [] => EmptyString
  | sig :: sigs' =>
      (if firstp then EmptyString else "," +:+ nl) +:+
      port_text inouts targets wires sig +:+
      ports_text inouts targets wires false sigs'
  end.

Definition _generate_module (f : fragment) (ios : gset signal) (name : string)
  : string :=
  let special_outs := list_special_ios f false true true in
  let inouts := list_special_ios f false false true in
  let targets := fragment_targets f ∪ special_outs in
  let wires := _list_comb_wires f ∪ special_outs in
  "module " +:+ name +:+ " (" +:+ nl +:+
  ports_text inouts targets wires true (sorted str_le get_name (elements ios)) +:+
  nl +:+ ");" +:+ nl +:+ nl.

(** The declaration of one signal in [_generate_signals]. *)
Definition signal_declaration (wires : gset signal) (regs_init : bool)
    (sig : signal) : string :=
  _generate_attribute (attr sig) +:+
  (if decide (sig ∈ wires) then "wire " +:+ generate_signal sig +:+ ";" +:+ nl
   else "reg  " +:+ generate_signal sig +:+
        (if regs_init then " = " +:+ generate_expression (reset_expr sig)
         else EmptyString) +:+ ";" +:+ nl).

Definition _generate_signals (f : fragment) (ios : gset signal)
    (regs_init : bool) : string :=
  let sigs := list_signals f ∪ list_special_ios f true true true in
  let special_outs := list_special_ios f false true true in
  let wires := _list_comb_wires f ∪ special_outs in
  concat_text (signal_declaration wires regs_init <$>
               sorted str_le get_name (elements (sigs ∖ ios))).

(** The default assignment opening a procedural block. *)
Definition reset_assignment (t : signal) : string :=
  _tab +:+ get_name t +:+ " <= " +:+ generate_expression (reset_expr t) +:+
  ";" +:+ nl.

(** The text of one group in [_generate_combinatorial_logic_synth]. *)
Definition comb_group_synth (g : gset signal * list stmt) : outcome string :=
  if _use_wire g.2 then
    match g.2 !! 0%nat with
    | Some s => r <~ _generate_node BLOCKING 0 s None; Ok ("assign " +:+ r)
    | None => Ok EmptyString
    end
  else
    body <~ _generate_node NON_BLOCKING 1 (Stmts g.2) None;
    Ok ("always @(*) begin" +:+ nl +:+
        concat_text (reset_assignment <$> sorted str_le get_name (elements g.1)) +:+
        body +:+ "end" +:+ nl).

Definition _generate_combinatorial_logic_synth (f : fragment) : outcome string :=
  r <~ match comb f with
       | [] => Ok EmptyString
       | _ :: _ => join (comb_group_synth <$> group_by_targets (comb f))
       end;
  Ok (r +:+ nl).

(** The [target_stmt_map] of [_generate_combinatorial_logic_sim]. *)
Definition target_stmt_map (comb : list stmt) : list (signal * list stmt) :=
  foldl (fun m statement =>
           foldl (fun m t => dict_append t statement m) m
                 (elements (list_targets statement)))
        [] (flat_iteration comb).

(** The text for one target in [_generate_combinatorial_logic_sim]. *)
Definition comb_target_sim (ts : signal * list stmt) : outcome string :=
  if _use_wire ts.2 then
    match ts.2 !! 0%nat with
    | Some s => r <~ _generate_node BLOCKING 0 s None; Ok ("assign " +:+ r)
    | None => Ok EmptyString
    end
  else
    body <~ _generate_node NON_BLOCKING 1 (Stmts ts.2) (Some ts.1);
    Ok ("always @(*) begin" +:+ nl +:+ reset_assignment ts.1 +:+
        body +:+ "end" +:+ nl).

Definition _generate_combinatorial_logic_sim (f : fragment) : outcome string :=
  r <~ match comb f with
       | [] => Ok EmptyString
       | _ :: _ => join (comb_target_sim <$> target_stmt_map (comb f))
       end;
  Ok (r +:+ nl).

(** The block of one clock domain in [_generate_synchronous_logic]. *)
Definition sync_block (f : fragment) (kv : string * list stmt)
  : outcome string :=
  match clock_domain_lookup (clock_domains f) kv.1 with
  | None => Raise (KeyError kv.1)
  | Some cd =>
      body <~ _generate_node SIGNAL 1 (Stmts kv.2) None;
      Ok ("always @(posedge " +:+ get_name (clk cd) +:+ ") begin" +:+ nl +:+
          body +:+ "end" +:+ nl +:+ nl)
  end.

Definition _generate_synchronous_logic (f : fragment) : outcome string :=
  join (sync_block f <$> sorted str_le fst (map_to_list (sync f))).

(** The dispatch of [_generate_specials] on the class of the special. *)
Definition special_emit (sp : special) : option string :=
  match sp_class sp with
  | MemoryClass => _memory_generate_verilog sp
  | InstanceClass => _instance_generate_verilog sp
  | OtherClass _ => call_special_classmethod_emit_verilog sp
  end.

(** The text of one special in [_generate_specials]. *)
Definition special_text (sp : special) : outcome string :=
  let a := match sp_attr sp with
           | Some attr => _generate_attribute attr
           | None => EmptyString
           end in
  match special_emit sp with
  | None =>
      Raise (NotImplementedError
               ("Special " +:+ sp_str sp +:+ " failed to implement emit_verilog"))
  | Some pr => Ok (a +:+ pr)
  end.

Definition _generate_specials (specials : gset special) : outcome string :=
  join (special_text <$> sorted Z.le sp_duid (elements specials)).
End Generator.

(* ------------------------------------------------------------------ *)
(** ** FHDL to Verilog                                                  *)
(* ------------------------------------------------------------------ *)

(** Modelled from the spec: [insert_resets], which verilog.py imports from
    migen.fhdl.tools and calls for its effect on the fragment; its body is
    not part of verilog.py. The spec gives its contract: the fragment's
    synchronous statements are unchanged in count and shape, reset values
    being applied at declaration time and not injected as statements. *)
Definition insert_resets (f : fragment) : fragment := f.

(** What [convert] reads of the platform: [getattr(platform, "device",
    "Unknown")] and [platform.constraint_manager.get_io_signals()]. *)
Record platform_t : Type := MkPlatform {
  device : option string;
  io_signals : gset signal
}.

(** [ConvOutput]: the main source and the namespace. *)
Record ConvOutput : Type := MkConvOutput {
  main_source : string;
  ns : signal -> string
}.

(** The message of the unresolved clock-domain error. *)
Definition unresolved_message (cd_name' : string) (cds : list clock_domain)
  : string :=
  "Unresolved clock domain " +:+ cd_name' +:+ ", availables:" +:+ nl +:+
  concat_text ((fun d => "- " +:+ cd_name d +:+ nl) <$> cds).

(** The loop "Verify/Create Clock Domains" of [convert], over the sorted
    names. *)
Fixpoint verify_clock_domains (cds : list clock_domain) (names : list string)
  : outcome unit :=
  match names with
  | [] => Ok tt
  | cd_name' :: names' =>
      match clock_domain_lookup cds cd_name' with
      | Some _ => verify_clock_domains cds names'
      | None => Raise (Exception (unresolved_message cd_name' cds))
      end
  end.

Section Convert.
(** Imported from migen. *)
Variable operator_bits_sign : string -> list (Z * bool) -> Z * bool.
Variable list_clock_domains : fragment -> gset string.
Variable lower_basics : fragment -> fragment.
Variable lower_specials : fragment -> fragment * gset special.
Variable is_variable : value -> bool.
Variable list_targets : stmt -> gset signal.
Variable group_by_targets : list stmt -> list (gset signal * list stmt).
Variable flat_iteration : list stmt -> list stmt.
Variable fragment_targets : fragment -> gset signal.
Variable list_signals : fragment -> gset signal.
Variable list_special_ios : fragment -> bool -> bool -> bool -> gset signal.
(** Imported from the other modules of litex.gen.fhdl; the namer also
    takes the names of the ports from their backtrace. *)
Variable build_signal_namespace : gset signal -> list string -> signal -> string.
Variable _generate_expression : (signal -> string) -> value -> string.
Variable _generate_signal : (signal -> string) -> signal -> string.
Variable _memory_generate_verilog :
  string -> special -> (signal -> string) -> option string.
Variable _instance_generate_verilog :
  special -> (signal -> string) -> option string.
(** [call_special_classmethod(overrides, special, "emit_verilog", ...)] for
    the given [special_overrides], and [_generate_attribute] for the given
    [attr_translate]. *)
Variable call_special_classmethod_emit_verilog :
  special -> (signal -> string) -> option string.
Variable _generate_attribute : list string -> string.
(** The state of the process around the call: the [duid] counter, the
    hierarchy of [LiteXContext.top], the git revision. *)
Variable first_duid : Z.
Variable top_hierarchy : option string.
Variable revision : string.

(** [convert(f, ios, name, platform, ...)]; [date_banner] and
    [date_trailer] are the formatted readings of the clock in
    [_generate_banner] and [_generate_trailer]. *)
Definition convert (f : fragment) (ios : gset signal) (name : string)
    (platform : option platform_t) (regular_comb regs_init : bool)
    (time_unit time_precision : string)
    (date_banner date_trailer : string) : outcome ConvOutput :=
  _ <~ verify_clock_domains (clock_domains f)
         (sorted str_le id (elements (list_clock_domains f)));
  f <~ lower_complex_slices operator_bits_sign first_duid f;
  let f := insert_resets f in
  let f := lower_basics f in
  let '(f, lowered_specials) := lower_specials f in
  let f := lower_basics f in
  ios <~ (if decide (size ios = 0%nat) then
            match platform with
            | None => Raise AssertionError
            | Some p => Ok (io_signals p)
            end
          else Ok ios);
  let ns :=
    build_signal_namespace
      (list_signals f ∪ list_special_ios f true true true ∪ ios)
      _ieee_1800_2017_verilog_reserved_keywords in
  let expr := _generate_expression ns in
  let verilog :=
    _generate_banner name
      (match platform with
       | Some p => default "Unknown" (device p)
       | None => "Unknown"
       end) revision date_banner in
  let verilog := verilog +:+ _generate_timescale time_unit time_precision in
  let verilog := verilog +:+ _generate_separator "Module" in
  let verilog := verilog +:+
    _generate_module ns (_generate_signal ns) _generate_attribute
      group_by_targets fragment_targets list_special_ios f ios name in
  let verilog := verilog +:+ _generate_separator "Hierarchy" in
  let verilog := verilog +:+ _generate_hierarchy top_hierarchy in
  let verilog := verilog +:+ _generate_separator "Signals" in
  let verilog := verilog +:+
    _generate_signals ns expr (_generate_signal ns) _generate_attribute
      group_by_targets list_signals list_special_ios f ios regs_init in
  let verilog := verilog +:+ _generate_separator "Combinatorial Logic" in
  comb_text <~
    (if regular_comb then
       _generate_combinatorial_logic_synth ns expr is_variable list_targets
         group_by_targets f
     else
       _generate_combinatorial_logic_sim ns expr is_variable list_targets
         flat_iteration f);
  let verilog := verilog +:+ comb_text in
  let verilog := verilog +:+ _generate_separator "Synchronous Logic" in
  sync_text <~ _generate_synchronous_logic ns expr is_variable list_targets f;
  let verilog := verilog +:+ sync_text in
  let verilog := verilog +:+ _generate_separator "Specialized Logic" in
  specials_text <~
    _generate_specials _generate_attribute
      (fun sp => _memory_generate_verilog name sp ns)
      (fun sp => _instance_generate_verilog sp ns)
      (fun sp => call_special_classmethod_emit_verilog sp ns)
      (specials f ∖ lowered_specials);
  let verilog := verilog +:+ specials_text in
  let verilog := verilog +:+ "endmodule" +:+ nl in
  let verilog := verilog +:+ _generate_trailer date_trailer in
  Ok (MkConvOutput verilog ns).
End Convert.

(* ------------------------------------------------------------------ *)
(** ** Facts about [sorted]                                             *)
(* ------------------------------------------------------------------ *)

Section SortedFacts.
Context {A B K : Type} (le : relation K) `{!RelDecision le}.

Lemma insert_by_fmap (key : B -> K) (f : A -> B) (x : A) (l : list A) :
  insert_by le key (f x) (f <$> l) = f <$> insert_by le (fun a => key (f a)) x l.
Proof.
  induction l as [|y l IH]; [done|]. simpl.
  case_decide; [done|]. rewrite fmap_cons. by f_equal.
Qed.

Lemma sorted_fmap (key : B -> K) (f : A -> B) (l : list A) :
  sorted le key (f <$> l) = f <$> sorted le (fun a => key (f a)) l.
Proof.
  induction l as [|x l IH]; [done|]. rewrite fmap_cons.
  change (sorted le key (f x :: (f <$> l))) with
    (insert_by le key (f x) (sorted le key (f <$> l))).
  by rewrite IH, insert_by_fmap.
Qed.
End SortedFacts.

(* ------------------------------------------------------------------ *)
(** ** Facts about the statement renderer                               *)
(* ------------------------------------------------------------------ *)

(** The identity of a key of [Case.cases] in the dict: a [Constant] hashes
    and compares by its value, "default" is the string. *)
Definition dict_key {B} (kv : case_key * B) : option Z :=
  match kv.1 with
  | KConstant v _ _ => Some v
  | KDefault => None
  end.

Section NodeFacts.
Variable get_name : signal -> string.
Variable generate_expression : value -> string.
Variable is_variable : value -> bool.
Variable list_targets : stmt -> gset signal.
Local Abbreviation _generate_node :=
  (_generate_node get_name generate_expression is_variable list_targets).
Local Abbreviation case_text := (case_text generate_expression).

(** Rendering a list of statements, unfiltered: the texts of its elements
    in order. *)
Lemma _generate_node_Stmts_cons at_ level s l :
  _generate_node at_ level (Stmts (s :: l)) None =
    (a <~ _generate_node at_ level s None;
     b <~ _generate_node at_ level (Stmts l) None;
     Ok (a +:+ b)).
Proof. reflexivity. Qed.

Lemma _generate_node_Stmts_nil at_ level :
  _generate_node at_ level (Stmts []) None = Ok EmptyString.
Proof. reflexivity. Qed.

Lemma _generate_node_Assign at_ level l r :
  _generate_node at_ level (Assign l r) None =
    Ok (tabs level +:+ generate_expression l +:+
        match at_ with
        | BLOCKING => " = "
        | NON_BLOCKING => " <= "
        | SIGNAL => if is_variable l then " = " else " <= "
        end +:+ generate_expression r +:+ ";" +:+ nl).
Proof. reflexivity. Qed.

(** The branch bodies of a [Case], rendered. *)
Definition rendered_cases (at_ : AssignType) (level : nat)
    (cases : list (case_key * list stmt)) : list (case_key * outcome string) :=
  (fun kv => (kv.1, _generate_node at_ (S (S level)) (Stmts kv.2) None)) <$> cases.

Lemma _generate_node_Case at_ level test cases :
  cases <> [] ->
  _generate_node at_ level (Case test cases) None =
    case_text level test (rendered_cases at_ level cases).
Proof.
  intros Hne. destruct cases as [|kv cases]; [done|].
  change (_generate_node at_ level (Case test (kv :: cases)) None) with
    (case_text level test
       ((fix bodies (cs : list (case_key * list stmt))
           : list (case_key * outcome string) :=
           match cs with
           | [] => []
           | (k, b) :: cs' =>
               (k, _generate_node at_ (S (S level)) (Stmts b) None) :: bodies cs'
           end) (kv :: cases))).
  assert (Hb : forall cs,
    (fix bodies (cs : list (case_key * list stmt))
       : list (case_key * outcome string) :=
       match cs with
       | [] => []
       | (k, b) :: cs' =>
           (k, _generate_node at_ (S (S level)) (Stmts b) None) :: bodies cs'
       end) cs = rendered_cases at_ level cs).
  { induction cs as [|[k b] cs IH]; [done|].
    unfold rendered_cases in *. rewrite fmap_cons, <- IH. reflexivity. }
  by rewrite Hb.
Qed.

Lemma default_case_fmap {B C} (f : B -> C) (cases : list (case_key * B)) :
  default_case ((fun kv => (kv.1, f kv.2)) <$> cases) = f <$> default_case cases.
Proof.
  induction cases as [|[[v w sg|] b] cases IH]; simpl; [done|apply IH|done].
Qed.

(** A dict has one entry per key: the entry of "default" does not depend
    on the order of insertion. *)
Lemma default_case_Permutation {B} (cases cases' : list (case_key * B)) :
  NoDup (dict_key <$> cases) -> cases ≡ₚ cases' ->
  default_case cases = default_case cases'.
Proof.
  intros Hnd Hp. induction Hp as [|[k b] l l' Hp IH|[k1 b1] [k2 b2] l|l1 l2 l3 H12 IH12 H23 IH23].
  - done.
  - rewrite fmap_cons in Hnd. apply NoDup_cons in Hnd as [_ Hnd].
    destruct k; simpl; [by apply IH|done].
  - destruct k1, k2; simpl; try done.
    rewrite !fmap_cons in Hnd. apply NoDup_cons in Hnd as [Hin _].
    exfalso. apply Hin. left.
  - rewrite IH12 by done. apply IH23. by rewrite <- H12.
Qed.
End NodeFacts.

Ltac unfold_case_text := unfold case_text, rendered_cases.

Section CaseFacts.
Variable get_name : signal -> string.
Variable generate_expression : value -> string.
Variable is_variable : value -> bool.
Variable list_targets : stmt -> gset signal.
Local Abbreviation _generate_node :=
  (_generate_node get_name generate_expression is_variable list_targets).
Local Abbreviation case_text := (case_text generate_expression).
Local Abbreviation rendered_cases :=
  (rendered_cases get_name generate_expression is_variable list_targets).

Lemma filter_fmap_fst {B C} (f : B -> C) (cases : list (case_key * B)) :
  filter (fun kv => is_Constant_key kv.1 = true)
         ((fun kv => (kv.1, f kv.2)) <$> cases) =
  (fun kv => (kv.1, f kv.2)) <$>
    filter (fun kv => is_Constant_key kv.1 = true) cases.
Proof.
  induction cases as [|[k b] cases IH]; [done|].
  rewrite fmap_cons.
  destruct k as [v w sg|].
  - rewrite !filter_cons_True by done. by rewrite fmap_cons, IH.
  - by rewrite !filter_cons_False by done.
Qed.

(** The constant-keyed branches in ascending order of their values. *)
Definition sorted_constant_cases {B} (cases : list (case_key * B))
  : list (case_key * B) :=
  sorted Z.le (fun kv => key_value kv.1)
         (filter (fun kv => is_Constant_key kv.1 = true) cases).

Lemma case_text_rendered at_ level test cases :
  case_text level test (rendered_cases at_ level cases) =
    (bs <~ join ((fun kv =>
                    case_branch level (generate_expression (key_expr kv.1))
                      (_generate_node at_ (S (S level)) (Stmts kv.2) None))
                 <$> sorted_constant_cases cases);
     d <~ match default_case cases with
          | Some b =>
              case_branch level "default"
                (_generate_node at_ (S (S level)) (Stmts b) None)
          | None => Ok EmptyString
          end;
     Ok (tabs level +:+ "case (" +:+ generate_expression test +:+ ")" +:+ nl +:+
         bs +:+ d +:+ tabs level +:+ "endcase" +:+ nl)).
Proof.
  unfold_case_text. unfold sorted_constant_cases.
  rewrite (filter_fmap_fst
             (fun b => _generate_node at_ (S (S level)) (Stmts b) None)).
  rewrite (sorted_fmap Z.le (fun kv : case_key * outcome string => key_value kv.1)).
  rewrite <- list_fmap_compose.
  rewrite (default_case_fmap
             (fun b => _generate_node at_ (S (S level)) (Stmts b) None)).
  f_equal. by destruct (default_case cases).
Qed.

Lemma NoDup_constant_values {B} (cases : list (case_key * B)) :
  NoDup (dict_key <$> cases) ->
  NoDup ((fun kv => key_value kv.1) <$>
           filter (fun kv => is_Constant_key kv.1 = true) cases).
Proof.
  induction cases as [|[k b] cases IH]; [constructor|].
  rewrite fmap_cons. intros [Hk Hnd]%NoDup_cons.
  destruct k as [v w sg|];
    [rewrite filter_cons_True by done|rewrite filter_cons_False by done];
    [|by apply IH].
  rewrite fmap_cons. apply NoDup_cons. split; [|by apply IH].
  intros Hin. apply Hk. apply list_elem_of_fmap in Hin as ([k' b'] & Hv & Hin).
  apply list_elem_of_filter in Hin as [Hc Hin]. simpl in *.
  apply list_elem_of_fmap. exists (k', b'). split; [|done].
  destruct k'; [|done]. unfold dict_key. simpl in *. by rewrite Hv.
Qed.

End CaseFacts.

(* ------------------------------------------------------------------ *)
(** ** A small design used in the examples                              *)
(* ------------------------------------------------------------------ *)

Definition sig_clk : signal := plain_signal 4 1.
Definition sig_q : signal := plain_signal 5 4.
Definition sig_v : signal := MkSignal 6 4 false 0 true None [].

(** A stand-in for the namespace. *)
Definition sample_name (s : signal) : string :=
  match duid s with
  | 1 => "a"
  | 2 => "b"
  | 3 => "y"
  | 4 => "sys_clk"
  | 5 => "q"
  | 6 => "v"
  | _ => "slice_proxy"
  end.

(** A stand-in for the expression renderer. *)
Definition sample_expression (v : value) : string :=
  match v with
  | Sig s => sample_name s
  | Constant 0 _ _ => "0"
  | Constant 1 _ _ => "1"
  | Constant 2 _ _ => "2"
  | Slice (Sig s) _ _ => sample_name s +:+ "[..]"
  | _ => "expr"
  end.

(** A stand-in for migen's [is_variable]: the flag of a signal. *)
Definition sample_is_variable (v : value) : bool :=
  match v with
  | Sig s => variable s
  | _ => false
  end.

(** A stand-in for migen's [list_targets]: the signals assigned in a
    statement. *)
Fixpoint sample_value_targets (v : value) : gset signal :=
  match v with
  | Sig t => {[t]}
  | Slice v _ _ => sample_value_targets v
  | Cat l => ⋃ (sample_value_targets <$> l)
  | _ => ∅
  end.

Fixpoint sample_list_targets (s : stmt) : gset signal :=
  match s with
  | Assign l _ => sample_value_targets l
  | Stmts l => ⋃ (sample_list_targets <$> l)
  | If _ t f =>
      ⋃ (sample_list_targets <$> t) ∪ ⋃ (sample_list_targets <$> f)
  | Case _ cases =>
      ⋃ ((fun kv => match kv with (_, b) => ⋃ (sample_list_targets <$> b) end)
         <$> cases)
  | _ => ∅
  end.

Definition sample_cases : list (case_key * list stmt) :=
  [(KConstant 2 2 false, [Assign (Sig sig_y) (Sig sig_b)]);
   (KDefault, [Assign (Sig sig_y) (Constant 0 2 false)]);
   (KConstant 1 2 false, [Assign (Sig sig_y) (Sig sig_a)])].

Example case_text_example :
  _generate_node sample_name sample_expression sample_is_variable
    sample_list_targets NON_BLOCKING 0 (Case (Sig sig_a) sample_cases) None
  = Ok ("case (a)" +:+ nl +:+
        "    1: begin" +:+ nl +:+
        "        y <= a;" +:+ nl +:+
        "    end" +:+ nl +:+
        "    2: begin" +:+ nl +:+
        "        y <= b;" +:+ nl +:+
        "    end" +:+ nl +:+
        "    default: begin" +:+ nl +:+
        "        y <= 0;" +:+ nl +:+
        "    end" +:+ nl +:+
        "endcase" +:+ nl).
Proof. vm_compute. reflexivity. Qed.


Section AssignmentOperator.
Variable get_name : signal -> string.
Variable generate_expression : value -> string.
Variable list_targets : stmt -> gset signal.
Local Abbreviation _generate_node :=
  (_generate_node get_name generate_expression).

Lemma _generate_node_If is_variable at_ level cond t f :
  _generate_node is_variable list_targets at_ level (If cond t f) None =
    (rt <~ _generate_node is_variable list_targets at_ (S level) (Stmts t) None;
     rf <~ match f with
           | [] => Ok EmptyString
           | _ :: _ =>
               b <~ _generate_node is_variable list_targets at_ (S level)
                      (Stmts f) None;
               Ok (tabs level +:+ "end else begin" +:+ nl +:+ b)
           end;
     Ok (tabs level +:+ "if (" +:+ generate_expression cond +:+ ") begin" +:+
         nl +:+ rt +:+ rf +:+ tabs level +:+ "end" +:+ nl)).
Proof. by destruct f. Qed.

Lemma _generate_node_Stmts_ext isv1 isv2 at1 at2 l :
  Forall (fun s => forall level,
            _generate_node isv1 list_targets at1 level s None =
            _generate_node isv2 list_targets at2 level s None) l ->
  forall level,
    _generate_node isv1 list_targets at1 level (Stmts l) None =
    _generate_node isv2 list_targets at2 level (Stmts l) None.
Proof.
  intros Hl. induction Hl as [|s l Hs _ IHl]; intros lv; [done|].
  by rewrite !_generate_node_Stmts_cons, Hs, IHl.
Qed.

(** Under [NON_BLOCKING] every assignment of a node, at any depth, is
    rendered as under [SIGNAL] with no target taken for a variable. *)
Lemma _generate_node_NON_BLOCKING is_variable node level :
  _generate_node is_variable list_targets NON_BLOCKING level node None =
  _generate_node (fun _ => false) list_targets SIGNAL level node None.
Proof.
  revert level.
  induction node as [l r|l IH|c t f IHt IHf|test cases IH|s args| |ty]
    using stmt_nested_ind; intros level; try reflexivity.
  - by apply _generate_node_Stmts_ext.
  - rewrite !_generate_node_If.
    rewrite (_generate_node_Stmts_ext _ _ _ _ t IHt).
    destruct f as [|s f]; [done|].
    by rewrite (_generate_node_Stmts_ext _ _ _ _ (s :: f) IHf).
  - destruct cases as [|kv cases]; [done|].
    rewrite !_generate_node_Case by done. f_equal.
    unfold rendered_cases. apply list_fmap_ext.
    intros i [k b] Hkb%list_elem_of_lookup_2. f_equal.
    rewrite Forall_forall in IH. specialize (IH _ Hkb).
    by apply _generate_node_Stmts_ext.
Qed.
(** The renderer under a target filter, one node at a time. *)
Lemma _generate_node_Stmts_filter is_variable at_ level l tf :
  _generate_node is_variable list_targets at_ level (Stmts l) tf =
    if filtered_out list_targets tf (Stmts l) then Ok EmptyString
    else join ((fun s => _generate_node is_variable list_targets at_ level s tf)
               <$> l).
Proof.
  change (_generate_node is_variable list_targets at_ level (Stmts l) tf) with
    (if filtered_out list_targets tf (Stmts l) then Ok EmptyString
     else (fix iterable (level : nat) (l : list stmt) {struct l}
             : outcome string :=
             match l with
             | [] => Ok EmptyString
             | n :: l' =>
                 obind (_generate_node is_variable list_targets at_ level n tf)
                   (fun s => obind (iterable level l') (fun r => Ok (s +:+ r)))
             end) level l).
  destruct (filtered_out _ _ _); [done|].
  induction l as [|s l IH]; [done|].
  rewrite fmap_cons. cbn [join]. by rewrite <- IH.
Qed.

Lemma _generate_node_If_filter is_variable at_ level c t f tf :
  _generate_node is_variable list_targets at_ level (If c t f) tf =
    if filtered_out list_targets tf (If c t f) then Ok EmptyString
    else
      obind (_generate_node is_variable list_targets at_ (S level) (Stmts t) tf)
        (fun rt =>
      obind (match f with
             | [] => Ok EmptyString
             | _ :: _ =>
                 obind (_generate_node is_variable list_targets at_ (S level)
                          (Stmts f) tf)
                   (fun b => Ok (tabs level +:+ "end else begin" +:+ nl +:+ b))
             end) (fun rf =>
      Ok (tabs level +:+ "if (" +:+ generate_expression c +:+ ") begin" +:+
          nl +:+ rt +:+ rf +:+ tabs level +:+ "end" +:+ nl))).
Proof. destruct f; reflexivity. Qed.

Lemma _generate_node_Case_filter is_variable at_ level test cases tf :
  _generate_node is_variable list_targets at_ level (Case test cases) tf =
    if filtered_out list_targets tf (Case test cases) then Ok EmptyString
    else match cases with
         | [] => Ok EmptyString
         | _ :: _ =>
             case_text generate_expression level test
               ((fun kv =>
                   (kv.1, _generate_node is_variable list_targets at_
                            (S (S level)) (Stmts kv.2) tf)) <$> cases)
         end.
Proof.
  destruct cases as [|kv cases]; [reflexivity|].
  assert (Hb : forall cs,
    (fix bodies (cs : list (case_key * list stmt))
       : list (case_key * outcome string) :=
       match cs with
       | [] => []
       | (k, b) :: cs' =>
           (k, _generate_node is_variable list_targets at_ (S (S level))
                 (Stmts b) tf) :: bodies cs'
       end) cs =
    (fun kv => (kv.1, _generate_node is_variable list_targets at_
                        (S (S level)) (Stmts kv.2) tf)) <$> cs).
  { induction cs as [|[k b] cs IH]; [done|]. rewrite fmap_cons, <- IH.
    reflexivity. }
  rewrite <- Hb. reflexivity.
Qed.

Lemma case_branch_returns level label body :
  returns_or_raises body -> returns_or_raises (case_branch level label body).
Proof. intros H. unfold case_branch. by apply obind_returns. Qed.

Lemma case_text_returns level test (cases : list (case_key * outcome string)) :
  Forall (fun kv => returns_or_raises kv.2) cases ->
  returns_or_raises (case_text generate_expression level test cases).
Proof.
  intros Hall. unfold case_text. apply obind_returns.
  - apply join_fmap_returns. intros kv Hkv. apply case_branch_returns.
    apply elem_of_sorted, list_elem_of_filter in Hkv as [_ Hkv].
    rewrite Forall_forall in Hall. by apply Hall.
  - intros bs. apply obind_returns; [|done].
    destruct (default_case cases) as [body|] eqn:Hd; [|done].
    apply case_branch_returns. clear -Hall Hd.
    induction Hall as [|[[v w sg|] b] cases Hb _ IH]; simpl in *;
      [done|by apply IH|by injection Hd as <-].
Qed.

(** The renderer has no budget to exhaust. *)
Lemma _generate_node_returns is_variable at_ node level tf :
  returns_or_raises (_generate_node is_variable list_targets at_ level node tf).
Proof.
  revert level.
  assert (Hlist : forall l,
    Forall (fun s => forall level, returns_or_raises
              (_generate_node is_variable list_targets at_ level s tf)) l ->
    forall level, returns_or_raises
      (_generate_node is_variable list_targets at_ level (Stmts l) tf)).
  { intros l Hl level. rewrite _generate_node_Stmts_filter.
    destruct (filtered_out _ _ _); [done|].
    apply join_fmap_returns. intros s Hs.
    rewrite Forall_forall in Hl. by apply Hl. }
  induction node as [l r|l IH|c t f IHt IHf|test cases IH|s args| |ty]
    using stmt_nested_ind; intros level.
  - simpl. by destruct (filtered_out _ _ _).
  - by apply Hlist.
  - rewrite _generate_node_If_filter. destruct (filtered_out _ _ _); [done|].
    apply obind_returns; [by apply Hlist|]. intros rt.
    apply obind_returns; [|done].
    destruct f as [|s0 f]; [done|]. apply obind_returns; [by apply Hlist|done].
  - rewrite _generate_node_Case_filter. destruct (filtered_out _ _ _); [done|].
    destruct cases as [|kv cases]; [done|].
    apply case_text_returns, Forall_fmap.
    eapply Forall_impl; [exact IH|]. intros [k b] Hb. simpl in *. by apply Hlist.
  - simpl. by destruct (filtered_out _ _ _).
  - simpl. by destruct (filtered_out _ _ _).
  - simpl. by destruct (filtered_out _ _ _).
Qed.
End AssignmentOperator.

(* ------------------------------------------------------------------ *)
(** ** Combinatorial and synchronous emission                           *)
(* ------------------------------------------------------------------ *)

Lemma _use_wire_iff (stmts : list stmt) :
  _use_wire stmts = true <->
  exists l r, stmts = [Assign l r] /\ is_Slice l = false.
Proof.
  unfold _use_wire. rewrite andb_true_iff, bool_decide_eq_true. split.
  - intros [Hlen H0]. destruct stmts as [|s [|s' stmts]]; try done.
    simpl in H0. destruct s as [l r| | | | | |]; try done.
    exists l, r. split; [done|]. by apply negb_true_iff.
  - intros (l & r & -> & Hl). simpl. by rewrite Hl.
Qed.

Ltac unfold_comb_synth := unfold _generate_combinatorial_logic_synth.
Ltac unfold_comb_group_synth := unfold comb_group_synth.
Ltac unfold_generate_signals := unfold _generate_signals.
Ltac unfold_generate_specials := unfold _generate_specials.
Ltac unfold_convert := unfold convert.

Section LogicFacts.
Variable get_name : signal -> string.
Variable generate_expression : value -> string.
Variable is_variable : value -> bool.
Variable list_targets : stmt -> gset signal.
Variable group_by_targets : list stmt -> list (gset signal * list stmt).
Local Abbreviation _generate_node :=
  (_generate_node get_name generate_expression).
Local Abbreviation _generate_combinatorial_logic_synth :=
  (_generate_combinatorial_logic_synth get_name generate_expression
     is_variable list_targets group_by_targets).
Local Abbreviation _generate_synchronous_logic :=
  (_generate_synchronous_logic get_name generate_expression is_variable
     list_targets).


End LogicFacts.

(** A stand-in for migen's [group_by_targets], for designs in which no two
    statements share a target: one group per statement. *)
Definition sample_group_by_targets (comb : list stmt)
  : list (gset signal * list stmt) :=
  (fun s => (sample_list_targets s, [s])) <$> comb.

Definition sample_fragment : fragment :=
  MkFragment
    [Assign (Sig sig_y) (Sig sig_a);
     If (Sig sig_a) [Assign (Sig sig_b) (Constant 1 4 false)] []]
    {[ "sys" := [Assign (Sig sig_q) (Sig sig_a);
                 Assign (Sig sig_v) (Sig sig_b)] ]}
    ∅
    [MkClockDomain "sys" sig_clk None].

Example comb_synth_example :
  _generate_combinatorial_logic_synth sample_name sample_expression
    sample_is_variable sample_list_targets sample_group_by_targets
    sample_fragment
  = Ok ("assign y = a;" +:+ nl +:+
        "always @(*) begin" +:+ nl +:+
        "    b <= 0;" +:+ nl +:+
        "    if (a) begin" +:+ nl +:+
        "        b <= 1;" +:+ nl +:+
        "    end" +:+ nl +:+
        "end" +:+ nl +:+ nl).
Proof. vm_compute. reflexivity. Qed.

Example sync_example :
  _generate_synchronous_logic sample_name sample_expression
    sample_is_variable sample_list_targets sample_fragment
  = Ok ("always @(posedge sys_clk) begin" +:+ nl +:+
        "    q <= a;" +:+ nl +:+
        "    v = b;" +:+ nl +:+
        "end" +:+ nl +:+ nl).
Proof. vm_compute. reflexivity. Qed.

(* ------------------------------------------------------------------ *)
(** ** Specials                                                         *)
(* ------------------------------------------------------------------ *)

Lemma join_fmap_Ok {A} (g : A -> outcome string) (l : list A) :
  (forall x, x ∈ l -> exists s, g x = Ok s) ->
  exists text, join (g <$> l) = Ok text.
Proof.
  induction l as [|x l IH]; intros Hl; [by eexists|].
  destruct (Hl x) as [s Hs]; [left|].
  destruct IH as [text Ht]; [intros y Hy; apply Hl; by right|].
  rewrite fmap_cons. cbn [join]. rewrite Hs, Ht. by eexists.
Qed.

Lemma join_fmap_Raise {A} (g : A -> outcome string) (pre post : list A) x e :
  (forall y, y ∈ pre -> exists s, g y = Ok s) ->
  g x = Raise e ->
  join (g <$> pre ++ x :: post) = Raise e.
Proof.
  induction pre as [|y pre IH]; intros Hpre Hx.
  - rewrite app_nil_l, fmap_cons. cbn [join]. by rewrite Hx.
  - rewrite <- app_comm_cons, fmap_cons. cbn [join].
    destruct (Hpre y) as [s ->]; [left|]. cbn [obind].
    rewrite IH; [done| |done]. intros z Hz. apply Hpre. by right.
Qed.

Lemma first_None {A B} (h : A -> option B) (l : list A) x :
  x ∈ l -> h x = None ->
  exists pre y post, l = pre ++ y :: post /\ h y = None /\
    forall z, z ∈ pre -> is_Some (h z).
Proof.
  induction l as [|a l IH]; intros Hin Hx; [by apply elem_of_nil in Hin|].
  destruct (h a) as [b|] eqn:Ha.
  - apply elem_of_cons in Hin as [->|Hin]; [congruence|].
    destruct (IH Hin Hx) as (pre & y & post & -> & Hy & Hpre).
    exists (a :: pre), y, post. split; [done|]. split; [done|].
    intros z [->|Hz]%elem_of_cons; [by rewrite Ha|by apply Hpre].
  - exists [], a, l. split; [done|]. split; [done|].
    intros z Hz. by apply elem_of_nil in Hz.
Qed.

Definition sample_memory : special := MkSpecial 7 MemoryClass None "<Memory>".
Definition sample_instance : special :=
  MkSpecial 3 InstanceClass (Some ["keep"]) "<Instance>".
Definition sample_tristate : special :=
  MkSpecial 5 (OtherClass "Tristate") None "<Tristate>".

Definition sample_attribute (attr : list string) : string :=
  match attr with
  | [] => EmptyString
  | _ :: _ => "(* keep = 1 *)" +:+ nl
  end.

Example specials_example :
  _generate_specials sample_attribute
    (fun _ => Some ("// memory" +:+ nl)) (fun _ => Some ("// instance" +:+ nl))
    (fun _ => None)
    ({[sample_memory; sample_instance; sample_tristate]} ∖ {[sample_tristate]})
  = Ok ("(* keep = 1 *)" +:+ nl +:+ "// instance" +:+ nl +:+
        "// memory" +:+ nl).
Proof. vm_compute. reflexivity. Qed.

Example specials_unimplemented_example :
  _generate_specials sample_attribute
    (fun _ => Some ("// memory" +:+ nl)) (fun _ => Some ("// instance" +:+ nl))
    (fun _ => None)
    {[sample_memory; sample_instance; sample_tristate]}
  = Raise (NotImplementedError
             "Special <Tristate> failed to implement emit_verilog").
Proof. vm_compute. reflexivity. Qed.

(* ------------------------------------------------------------------ *)
(** ** Clock-domain verification                                        *)
(* ------------------------------------------------------------------ *)

Lemma verify_clock_domains_first cds pre cd post :
  (forall k, k ∈ pre -> is_Some (clock_domain_lookup cds k)) ->
  clock_domain_lookup cds cd = None ->
  verify_clock_domains cds (pre ++ cd :: post) =
    Raise (Exception (unresolved_message cd cds)).
Proof.
  induction pre as [|k pre IH]; intros Hpre Hcd; simpl.
  - by rewrite Hcd.
  - destruct (Hpre k) as [d ->]; [left|].
    apply IH; [|done]. intros k' Hk'. apply Hpre. by right.
Qed.

Lemma verify_clock_domains_Ok cds names :
  (forall k, k ∈ names -> is_Some (clock_domain_lookup cds k)) ->
  verify_clock_domains cds names = Ok tt.
Proof.
  induction names as [|k names IH]; intros Hall; simpl; [done|].
  destruct (Hall k) as [d ->]; [left|].
  apply IH. intros k' Hk'. apply Hall. by right.
Qed.

(** The names in sorted order: the first unresolved one is the least. *)
Lemma first_unresolved_least (names : gset string) cds pre cd post :
  sorted str_le id (elements names) = pre ++ cd :: post ->
  (forall k, k ∈ pre -> is_Some (clock_domain_lookup cds k)) ->
  forall k, k ∈ names -> clock_domain_lookup cds k = None -> str_le cd k.
Proof.
  intros Heq Hpre k Hk Hnone.
  pose proof (sorted_Sorted str_le id (elements names)) as Hs.
  apply (Sorted_StronglySorted (fun a b : string => str_le (id a) (id b))) in Hs.
  rewrite Heq in Hs.
  destruct (proj1 (StronglySorted_app _ _ _) Hs) as (_ & _ & Hs2).
  destruct (proj1 (StronglySorted_cons _ _ _) Hs2) as [Hall _].
  assert (k ∈ pre ++ cd :: post) as Hin.
  { rewrite <- Heq. by apply elem_of_sorted, elem_of_elements. }
  apply elem_of_app in Hin as [Hin|Hin].
  - destruct (Hpre k Hin) as [d Hd]. congruence.
  - apply elem_of_cons in Hin as [->|Hin]; [done|].
    rewrite Forall_forall in Hall. by apply Hall.
Qed.

(* ------------------------------------------------------------------ *)
(** ** Facts about [convert]                                            *)
(* ------------------------------------------------------------------ *)

(** The banner and the trailer around their date. *)
Definition banner_before_date (filename device revision : string) : string :=
  "// -----------------------------------------------------------------------------" +:+
  nl +:+ "// Auto-Generated by:        __   _ __      _  __" +:+ nl +:+
  "//                          / /  (_) /____ | |/_/" +:+ nl +:+
  "//                         / /__/ / __/ -_)>  <" +:+ nl +:+
  "//                        /____/_/\__/\__/_/|_|" +:+ nl +:+
  "//                     Build your hardware, easily!" +:+ nl +:+
  "//                   https://github.com/enjoy-digital/litex" +:+ nl +:+
  "//" +:+ nl +:+ "// Filename   : " +:+ filename +:+ ".v" +:+ nl +:+
  "// Device     : " +:+ device +:+ nl +:+ "// LiteX sha1 : " +:+ revision +:+
  nl +:+ "// Date       : ".

Definition banner_after_date : string :=
  nl +:+
  "//------------------------------------------------------------------------------" +:+
  nl +:+ nl.

Definition trailer_before_date : string :=
  nl +:+
  "// -----------------------------------------------------------------------------" +:+
  nl +:+ "//  Auto-Generated by LiteX on ".

Definition trailer_after_date : string :=
  "." +:+ nl +:+
  "//------------------------------------------------------------------------------" +:+
  nl.

Lemma _generate_banner_date filename device revision date :
  _generate_banner filename device revision date =
    banner_before_date filename device revision +:+ date +:+ banner_after_date.
Proof.
  unfold _generate_banner, banner_before_date, banner_after_date.
  by rewrite !append_assoc.
Qed.

Lemma _generate_trailer_date date :
  _generate_trailer date =
    trailer_before_date +:+ date +:+ trailer_after_date.
Proof.
  unfold _generate_trailer, trailer_before_date, trailer_after_date.
  by rewrite !append_assoc.
Qed.

Lemma dated_append (w x pre d rest : string) :
  w = pre +:+ d +:+ rest -> w +:+ x = pre +:+ d +:+ (rest +:+ x).
Proof. intros ->. by rewrite !append_assoc. Qed.

Lemma dated_trailer (w pre d rest d' : string) :
  w = pre +:+ d +:+ rest ->
  w +:+ _generate_trailer d' =
    pre +:+ d +:+ (rest +:+ trailer_before_date) +:+ d' +:+ trailer_after_date.
Proof. intros ->. by rewrite _generate_trailer_date, !append_assoc. Qed.

Lemma verify_clock_domains_returns cds names :
  returns_or_raises (verify_clock_domains cds names).
Proof.
  induction names as [|k names IH]; simpl; [done|].
  by destruct (clock_domain_lookup cds k).
Qed.

Section EmittersReturn.
Variable get_name : signal -> string.
Variable generate_expression : value -> string.
Variable is_variable : value -> bool.
Variable list_targets : stmt -> gset signal.

Lemma _generate_combinatorial_logic_synth_returns group_by_targets f :
  returns_or_raises
    (_generate_combinatorial_logic_synth get_name generate_expression
       is_variable list_targets group_by_targets f).
Proof.
  unfold _generate_combinatorial_logic_synth.
  apply obind_returns; [|done]. destruct (comb f); [done|].
  apply join_fmap_returns. intros g _. unfold comb_group_synth.
  destruct (_use_wire g.2).
  - destruct (g.2 !! 0%nat); [|done].
    apply obind_returns; [apply _generate_node_returns|done].
  - apply obind_returns; [apply _generate_node_returns|done].
Qed.

Lemma _generate_combinatorial_logic_sim_returns flat_iteration f :
  returns_or_raises
    (_generate_combinatorial_logic_sim get_name generate_expression
       is_variable list_targets flat_iteration f).
Proof.
  unfold _generate_combinatorial_logic_sim.
  apply obind_returns; [|done]. destruct (comb f); [done|].
  apply join_fmap_returns. intros g _. unfold comb_target_sim.
  destruct (_use_wire g.2).
  - destruct (g.2 !! 0%nat); [|done].
    apply obind_returns; [apply _generate_node_returns|done].
  - apply obind_returns; [apply _generate_node_returns|done].
Qed.

Lemma _generate_synchronous_logic_returns f :
  returns_or_raises
    (_generate_synchronous_logic get_name generate_expression is_variable
       list_targets f).
Proof.
  unfold _generate_synchronous_logic.
  apply join_fmap_returns. intros kv _. unfold sync_block.
  destruct (clock_domain_lookup _ _); [|done].
  apply obind_returns; [apply _generate_node_returns|done].
Qed.
End EmittersReturn.

Lemma _generate_specials_returns ga mem inst other specials :
  returns_or_raises (_generate_specials ga mem inst other specials).
Proof.
  unfold _generate_specials. apply join_fmap_returns. intros sp _.
  unfold special_text. by destruct (special_emit _ _ _ _).
Qed.

Section ConvertFacts.
Variable operator_bits_sign : string -> list (Z * bool) -> Z * bool.
Variable list_clock_domains : fragment -> gset string.
Variable lower_basics : fragment -> fragment.
Variable lower_specials : fragment -> fragment * gset special.
Variable is_variable : value -> bool.
Variable list_targets : stmt -> gset signal.
Variable group_by_targets : list stmt -> list (gset signal * list stmt).
Variable flat_iteration : list stmt -> list stmt.
Variable fragment_targets : fragment -> gset signal.
Variable list_signals : fragment -> gset signal.
Variable list_special_ios : fragment -> bool -> bool -> bool -> gset signal.
Variable build_signal_namespace : gset signal -> list string -> signal -> string.
Variable _generate_expression : (signal -> string) -> value -> string.
Variable _generate_signal : (signal -> string) -> signal -> string.
Variable _memory_generate_verilog :
  string -> special -> (signal -> string) -> option string.
Variable _instance_generate_verilog :
  special -> (signal -> string) -> option string.
Variable call_special_classmethod_emit_verilog :
  special -> (signal -> string) -> option string.
Variable _generate_attribute : list string -> string.
Variable first_duid : Z.
Variable top_hierarchy : option string.
Variable revision : string.

Local Abbreviation convert :=
  (convert operator_bits_sign list_clock_domains lower_basics lower_specials
     is_variable list_targets group_by_targets flat_iteration fragment_targets
     list_signals list_special_ios build_signal_namespace _generate_expression
     _generate_signal _memory_generate_verilog _instance_generate_verilog
     call_special_classmethod_emit_verilog _generate_attribute first_duid
     top_hierarchy revision).

(** C8. [list_clock_domains] holding the names of the clocked groups, a
    clocked group whose name has no descriptor makes [convert] raise, for
    whatever the lowering passes and emitters would do with the fragment:
    the verification comes first and no output is returned. The message
    names the least unresolved name and lists the names of the descriptors
    at hand. *)
Theorem unresolved_clock_domain_aborts
    (f : fragment) (ios : gset signal) (name : string)
    (platform : option platform_t) (regular_comb regs_init : bool)
    (time_unit time_precision date_banner date_trailer : string) :
  (forall k, k ∈ dom (sync f) -> k ∈ list_clock_domains f) ->
  (exists k, k ∈ dom (sync f) /\
     clock_domain_lookup (clock_domains f) k = None) ->
  exists cd,
    cd ∈ list_clock_domains f /\
    clock_domain_lookup (clock_domains f) cd = None /\
    (forall k, k ∈ list_clock_domains f ->
       clock_domain_lookup (clock_domains f) k = None -> str_le cd k) /\
    convert f ios name platform regular_comb regs_init time_unit time_precision
      date_banner date_trailer =
    Raise (Exception
             ("Unresolved clock domain " +:+ cd +:+ ", availables:" +:+ nl +:+
              concat_text ((fun d => "- " +:+ cd_name d +:+ nl)
                           <$> clock_domains f))).
Proof.
  intros Hsub (k & Hk & Hnone).
  assert (k ∈ sorted str_le id (elements (list_clock_domains f))) as Hin.
  { apply elem_of_sorted, elem_of_elements. by apply Hsub. }
  destruct (first_None (clock_domain_lookup (clock_domains f)) _ k Hin Hnone)
    as (pre & cd & post & Heq & Hcd & Hpre).
  exists cd. split.
  { apply elem_of_elements.
    apply (elem_of_sorted str_le id). rewrite Heq.
    apply elem_of_app. right. left. }
  split; [done|]. split.
  { by apply (first_unresolved_least _ _ pre cd post). }
  unfold_convert.
  rewrite Heq, (verify_clock_domains_first _ pre cd post Hpre Hcd).
  reflexivity.
Qed.

(** C9. For a given fragment and configuration, in a given process state,
    [convert] either raises one and the same exception whatever the clock
    reads, or returns one and the same namespace and a text that is the
    same for every reading of the clock except for the date in the banner
    and the date in the trailer. *)
Theorem conversion_repeatable_up_to_dates
    (f : fragment) (ios : gset signal) (name : string)
    (platform : option platform_t) (regular_comb regs_init : bool)
    (time_unit time_precision : string) :
  (exists e, forall date_banner date_trailer,
     convert f ios name platform regular_comb regs_init time_unit
       time_precision date_banner date_trailer = Raise e) \/
  (exists pre mid post names, forall date_banner date_trailer,
     convert f ios name platform regular_comb regs_init time_unit
       time_precision date_banner date_trailer =
     Ok (MkConvOutput
           (pre +:+ date_banner +:+ mid +:+ date_trailer +:+ post) names)).
Proof.
  unfold_convert.
  destruct (verify_clock_domains _ _) as [[]|e|] eqn:E1; cbn [obind];
    [|left; by exists e|by destruct (verify_clock_domains_returns _ _ E1)].
  destruct (lower_complex_slices _ _ _) as [f1|e|] eqn:E2; cbn [obind];
    [|left; by exists e|by destruct (lower_complex_slices_returns _ _ _ E2)].
  destruct (lower_specials _) as [f2 lowered_specials].
  destruct (decide (size ios = 0%nat)) as [Hz|Hz];
    [destruct platform as [p|]; [|left; by exists AssertionError]|];
    cbn [obind].
  all: match goal with
  | |- context [obind ?m _] =>
      assert (returns_or_raises m) as Hcomb
        by (destruct regular_comb;
            [apply _generate_combinatorial_logic_synth_returns
            |apply _generate_combinatorial_logic_sim_returns]);
      destruct m as [comb_text|e|]; cbn [obind];
        [|left; by exists e|by destruct Hcomb]
  end.
  all: match goal with
  | |- context [obind ?m _] =>
      assert (returns_or_raises m) as Hsync
        by apply _generate_synchronous_logic_returns;
      destruct m as [sync_text|e|]; cbn [obind];
        [|left; by exists e|by destruct Hsync]
  end.
  all: match goal with
  | |- context [obind ?m _] =>
      assert (returns_or_raises m) as Hspecials
        by apply _generate_specials_returns;
      destruct m as [specials_text|e|]; cbn [obind];
        [|left; by exists e|by destruct Hspecials]
  end.
  all: right; eexists _, _, _, _; intros date_banner date_trailer.
  all: apply (f_equal Ok); apply f_equal2; [|reflexivity].
  all: apply dated_trailer; do 14 apply dated_append.
  all: apply _generate_banner_date.
Qed.
End ConvertFacts.

(* ------------------------------------------------------------------ *)
(** ** Reserved keywords and names                                      *)
(* ------------------------------------------------------------------ *)

(** Modelled from the spec: the keyword check of the Namespace Builder
    ([build_signal_namespace], litex/gen/fhdl/namer.py, which verilog.py
    imports and hands the reserved-keyword set). The spec: no produced
    identifier collides, case-sensitively, with a reserved keyword; a name
    colliding with the set must be rewritten, never passed through. A
    preferred name found in [reserved] is rewritten by [rewrite]; any other
    name is kept. *)
Definition keyword_safe_name (reserved : list string)
    (rewrite : string -> string) (sig_name : string) : string :=
  if bool_decide (sig_name ∈ reserved) then rewrite sig_name else sig_name.

Example keyword_count :
  length _ieee_1800_2017_verilog_reserved_keywords = 248%nat /\
  "module" ∈ _ieee_1800_2017_verilog_reserved_keywords /\
  keyword_safe_name _ieee_1800_2017_verilog_reserved_keywords
    (fun n => n +:+ "_") "module" = "module_".
Proof.
  split; [reflexivity|]. split; [|by vm_compute].
  apply (bool_decide_unpack
           ("module" ∈ _ieee_1800_2017_verilog_reserved_keywords)).
  vm_compute. exact I.
Qed.

(** C3 (the code departs from the claim). The entries of the reserved set
    for [repeat], [union] and [uwire] carry leading spaces inside the
    quotes; the three keywords themselves are not in the set handed to the
    namer, so a namer that rewrites exactly the names found in the set
    passes a signal named [repeat], [union] or [uwire] through. *)
Theorem padded_keywords_pass_through :
  ("repeat" ∉ _ieee_1800_2017_verilog_reserved_keywords) /\
  ("union" ∉ _ieee_1800_2017_verilog_reserved_keywords) /\
  ("uwire" ∉ _ieee_1800_2017_verilog_reserved_keywords) /\
  "      repeat" ∈ _ieee_1800_2017_verilog_reserved_keywords /\
  "       union" ∈ _ieee_1800_2017_verilog_reserved_keywords /\
  "   uwire" ∈ _ieee_1800_2017_verilog_reserved_keywords /\
  forall rewrite,
    keyword_safe_name _ieee_1800_2017_verilog_reserved_keywords rewrite
      "repeat" = "repeat" /\
    keyword_safe_name _ieee_1800_2017_verilog_reserved_keywords rewrite
      "union" = "union" /\
    keyword_safe_name _ieee_1800_2017_verilog_reserved_keywords rewrite
      "uwire" = "uwire".
Proof.
  split; [|split; [|split; [|split; [|split; [|split]]]]].
  - apply (bool_decide_unpack
             ("repeat" ∉ _ieee_1800_2017_verilog_reserved_keywords)).
    vm_compute. exact I.
  - apply (bool_decide_unpack
             ("union" ∉ _ieee_1800_2017_verilog_reserved_keywords)).
    vm_compute. exact I.
  - apply (bool_decide_unpack
             ("uwire" ∉ _ieee_1800_2017_verilog_reserved_keywords)).
    vm_compute. exact I.
  - apply (bool_decide_unpack
             ("      repeat" ∈ _ieee_1800_2017_verilog_reserved_keywords)).
    vm_compute. exact I.
  - apply (bool_decide_unpack
             ("       union" ∈ _ieee_1800_2017_verilog_reserved_keywords)).
    vm_compute. exact I.
  - apply (bool_decide_unpack
             ("   uwire" ∈ _ieee_1800_2017_verilog_reserved_keywords)).
    vm_compute. exact I.
  - intros rewrite. by vm_compute.
Qed.

(* ------------------------------------------------------------------ *)
(** ** Reset values                                                     *)
(* ------------------------------------------------------------------ *)

(** The same signal with another reset value. *)
Definition with_reset (r : signal -> Z) (s : signal) : signal :=
  MkSignal (duid s) (nbits s) (signed s) (r s) (variable s)
    (name_override s) (attr s).

(** An expression, a statement, a clock domain and a fragment with every
    signal replaced by its image. *)
Fixpoint map_value (h : signal -> signal) (v : value) : value :=
  match v with
  | Constant _ _ _ => v
  | Sig s => Sig (h s)
  | Operator op l => Operator op (map_value h <$> l)
  | Slice v a b => Slice (map_value h v) a b
  | Cat l => Cat (map_value h <$> l)
  | Replicate v n => Replicate (map_value h v) n
  end.

Definition map_display_arg (h : signal -> signal) (a : display_arg)
  : display_arg :=
  match a with
  | DSignal s => DSignal (h s)
  | DOther _ => a
  end.

Fixpoint map_stmt (h : signal -> signal) (s : stmt) : stmt :=
  match s with
  | Assign l r => Assign (map_value h l) (map_value h r)
  | Stmts l => Stmts (map_stmt h <$> l)
  | If c t f => If (map_value h c) (map_stmt h <$> t) (map_stmt h <$> f)
  | Case test cases =>
      Case (map_value h test)
        ((fun kv : case_key * list stmt => (kv.1, map_stmt h <$> kv.2))
           <$> cases)
  | Display s args => Display s (map_display_arg h <$> args)
  | Finish | Unknown _ => s
  end.

Definition map_clock_domain (h : signal -> signal) (cd : clock_domain)
  : clock_domain :=
  MkClockDomain (cd_name cd) (h (clk cd)) (h <$> rst cd).

Definition map_group (h : signal -> signal) (l : list stmt) : list stmt :=
  map_stmt h <$> l.

Definition map_fragment (h : signal -> signal) (f : fragment) : fragment :=
  MkFragment (map_stmt h <$> comb f) (map_group h <$> sync f) (specials f)
    (map_clock_domain h <$> clock_domains f).

Lemma clock_domain_lookup_map h cds key :
  clock_domain_lookup (map_clock_domain h <$> cds) key =
  map_clock_domain h <$> clock_domain_lookup cds key.
Proof.
  unfold clock_domain_lookup.
  induction cds as [|cd cds IH]; [done|].
  rewrite fmap_cons. cbn [list_find].
  change (cd_name (map_clock_domain h cd)) with (cd_name cd).
  destruct (decide (cd_name cd = key)); [done|].
  destruct (list_find _ (map_clock_domain h <$> cds)) as [[i x]|];
    destruct (list_find _ cds) as [[j y]|]; simpl in *; congruence.
Qed.

Lemma sorted_map_to_list_fmap (g : list stmt -> list stmt)
    (m : gmap string (list stmt)) :
  sorted str_le fst (map_to_list (g <$> m)) =
  prod_map id g <$> sorted str_le fst (map_to_list m).
Proof.
  rewrite map_to_list_fmap.
  by rewrite (sorted_fmap str_le fst (prod_map id g)).
Qed.

Section ResetFacts.
Variable get_name : signal -> string.
Variable generate_expression : value -> string.
Variable generate_signal : signal -> string.
Variable _generate_attribute : list string -> string.
Variable is_variable : value -> bool.
Variable list_targets : stmt -> gset signal.
Variable group_by_targets : list stmt -> list (gset signal * list stmt).
Variable list_signals : fragment -> gset signal.
Variable list_special_ios : fragment -> bool -> bool -> bool -> gset signal.
Local Abbreviation _generate_signals :=
  (_generate_signals get_name generate_expression generate_signal
     _generate_attribute group_by_targets list_signals list_special_ios).
Local Abbreviation _list_comb_wires := (_list_comb_wires group_by_targets).
Local Abbreviation gen :=
  (_generate_node get_name generate_expression is_variable list_targets).
Local Abbreviation _generate_synchronous_logic :=
  (_generate_synchronous_logic get_name generate_expression is_variable
     list_targets).

(** The namespace and the renderers do not look at reset values. *)
Variable h : signal -> signal.
Hypothesis get_name_h : forall s, get_name (h s) = get_name s.
Hypothesis generate_expression_h :
  forall v, generate_expression (map_value h v) = generate_expression v.
Hypothesis is_variable_h :
  forall v, is_variable (map_value h v) = is_variable v.

Lemma display_args_map args :
  display_args get_name (map_display_arg h <$> args) =
  display_args get_name args.
Proof.
  induction args as [|[s|r] args IH]; [done| |].
  - rewrite fmap_cons. cbn [display_args map_display_arg].
    by rewrite get_name_h, IH.
  - rewrite fmap_cons. cbn [display_args map_display_arg]. by rewrite IH.
Qed.

Lemma gen_Stmts_map at_ l :
  Forall (fun s => forall level,
            gen at_ level (map_stmt h s) None = gen at_ level s None) l ->
  forall level,
    gen at_ level (Stmts (map_stmt h <$> l)) None =
    gen at_ level (Stmts l) None.
Proof.
  intros Hl. induction Hl as [|s l Hs _ IH]; intros level; [done|].
  rewrite fmap_cons, !_generate_node_Stmts_cons. by rewrite Hs, IH.
Qed.

(** A statement renders to the same text when its signals are replaced by
    their images. *)
Lemma gen_map at_ node level :
  gen at_ level (map_stmt h node) None = gen at_ level node None.
Proof.
  revert level.
  induction node as [l r|l IH|c t f IHt IHf|test cases IH|s args| |ty]
    using stmt_nested_ind; intros level.
  - cbn [map_stmt]. rewrite !_generate_node_Assign.
    by rewrite !generate_expression_h, is_variable_h.
  - cbn [map_stmt]. by apply gen_Stmts_map.
  - cbn [map_stmt]. rewrite !_generate_node_If.
    rewrite generate_expression_h, (gen_Stmts_map at_ t IHt).
    destruct f as [|s0 f]; [done|].
    rewrite fmap_cons. rewrite <- fmap_cons.
    by rewrite (gen_Stmts_map at_ (s0 :: f) IHf).
  - cbn [map_stmt]. destruct cases as [|kv cases]; [done|].
    rewrite !_generate_node_Case by done.
    unfold case_text. rewrite generate_expression_h.
    assert (rendered_cases get_name generate_expression is_variable
              list_targets at_ level
              ((fun kv : case_key * list stmt => (kv.1, map_stmt h <$> kv.2))
                 <$> kv :: cases) =
            rendered_cases get_name generate_expression is_variable
              list_targets at_ level (kv :: cases)) as ->; [|done].
    unfold rendered_cases. rewrite <- list_fmap_compose.
    apply Forall_fmap_ext_1. eapply Forall_impl; [exact IH|].
    intros [k b] Hb. cbn [compose fst snd]. f_equal.
    by apply gen_Stmts_map.
  - cbn [map_stmt].
    change (gen at_ level (Display s (map_display_arg h <$> args)) None) with
      (Ok (tabs level +:+ "$display(" +:+ dquote +:+ s +:+ dquote +:+
           display_args get_name (map_display_arg h <$> args) +:+ ");" +:+ nl)
       : outcome string).
    by rewrite display_args_map.
  - done.
  - done.
Qed.

Lemma sync_block_map f kv :
  sync_block get_name generate_expression is_variable list_targets
    (map_fragment h f) (prod_map id (map_group h) kv) =
  sync_block get_name generate_expression is_variable list_targets f kv.
Proof.
  destruct kv as [k v]. unfold sync_block, prod_map.
  cbn [map_fragment clock_domains fst snd id].
  rewrite clock_domain_lookup_map.
  destruct (clock_domain_lookup (clock_domains f) k) as [cd|]; [|reflexivity].
  cbn [fmap option_fmap option_map map_clock_domain clk].
  rewrite get_name_h. unfold map_group.
  rewrite (gen_Stmts_map SIGNAL v); [done|].
  apply Forall_forall. intros s _ level. apply gen_map.
Qed.

Lemma _generate_synchronous_logic_map f :
  _generate_synchronous_logic (map_fragment h f) =
  _generate_synchronous_logic f.
Proof.
  unfold _generate_synchronous_logic. cbn [map_fragment sync].
  rewrite sorted_map_to_list_fmap, <- list_fmap_compose. f_equal.
  apply list_fmap_ext. intros i kv _. apply sync_block_map.
Qed.
End ResetFacts.

Section ResetValues.
Variable get_name : signal -> string.
Variable generate_expression : value -> string.
Variable generate_signal : signal -> string.
Variable _generate_attribute : list string -> string.
Variable is_variable : value -> bool.
Variable list_targets : stmt -> gset signal.
Variable group_by_targets : list stmt -> list (gset signal * list stmt).
Variable list_signals : fragment -> gset signal.
Variable list_special_ios : fragment -> bool -> bool -> bool -> gset signal.
Local Abbreviation _generate_signals :=
  (_generate_signals get_name generate_expression generate_signal
     _generate_attribute group_by_targets list_signals list_special_ios).
Local Abbreviation _list_comb_wires := (_list_comb_wires group_by_targets).
Local Abbreviation _generate_synchronous_logic :=
  (_generate_synchronous_logic get_name generate_expression is_variable
     list_targets).

(** C6. The reset-insertion pass (as the spec gives it) leaves the
    synchronous groups as they are, and the synchronous section holds no
    reset value: given a namespace and renderers that do not look at reset
    values, the text of [_generate_synchronous_logic] stays the same
    whatever reset values the signals of the fragment are given. The reset
    value of a signal is written where the signal is declared: as the
    initializer [= reset] of a signal that is not a wire, when [regs_init]
    is set and only then. *)
Theorem reset_values_surface_at_declaration
    (f : fragment) (ios : gset signal) (r : signal -> Z) :
  (forall s, get_name (with_reset r s) = get_name s) ->
  (forall v, generate_expression (map_value (with_reset r) v) =
             generate_expression v) ->
  (forall v, is_variable (map_value (with_reset r) v) = is_variable v) ->
  let wires := _list_comb_wires f ∪ list_special_ios f false true true in
  let declared :=
    sorted str_le get_name
      (elements ((list_signals f ∪ list_special_ios f true true true) ∖ ios)) in
  sync (insert_resets f) = sync f /\
  _generate_synchronous_logic
    (map_fragment (with_reset r) (insert_resets f)) =
    _generate_synchronous_logic (insert_resets f) /\
  _generate_signals f ios true =
    concat_text
      ((fun sig =>
          _generate_attribute (attr sig) +:+
          (if decide (sig ∈ wires)
           then "wire " +:+ generate_signal sig +:+ ";" +:+ nl
           else "reg  " +:+ generate_signal sig +:+ " = " +:+
                generate_expression (reset_expr sig) +:+ ";" +:+ nl))
       <$> declared) /\
  _generate_signals f ios false =
    concat_text
      ((fun sig =>
          _generate_attribute (attr sig) +:+
          (if decide (sig ∈ wires) then "wire " else "reg  ") +:+
          generate_signal sig +:+ ";" +:+ nl)
       <$> declared).
Proof.
  intros Hname Hexpr Hvar wires declared.
  split; [reflexivity|]. split; [|split].
  - by apply _generate_synchronous_logic_map.
  - unfold_generate_signals. fold wires declared. by f_equal.
  - unfold_generate_signals. fold wires declared. f_equal.
    apply list_fmap_ext. intros _ sig _. unfold signal_declaration.
    destruct (decide (sig ∈ wires)); by rewrite ?append_assoc.
Qed.
End ResetValues.

Lemma sample_expression_reset (r : signal -> Z) (v : value) :
  sample_expression (map_value (with_reset r) v) = sample_expression v.
Proof.
  destruct v as [c w sg|s|op l|v a b|l|v n]; try reflexivity.
  by destruct v.
Qed.

Lemma reset_values_surface_at_declaration_witness :
  (forall s, sample_name (with_reset (fun _ => 7) s) = sample_name s) /\
  (forall v, sample_expression (map_value (with_reset (fun _ => 7)) v) =
             sample_expression v) /\
  (forall v, sample_is_variable (map_value (with_reset (fun _ => 7)) v) =
             sample_is_variable v) /\
  _generate_synchronous_logic sample_name sample_expression
    sample_is_variable sample_list_targets
    (map_fragment (with_reset (fun _ => 7)) (insert_resets sample_fragment)) =
  _generate_synchronous_logic sample_name sample_expression
    sample_is_variable sample_list_targets (insert_resets sample_fragment).
Proof.
  assert (H1 : forall s, sample_name (with_reset (fun _ => 7) s) = sample_name s)
    by done.
  assert (H2 : forall v,
            sample_expression (map_value (with_reset (fun _ => 7)) v) =
            sample_expression v) by apply sample_expression_reset.
  assert (H3 : forall v,
            sample_is_variable (map_value (with_reset (fun _ => 7)) v) =
            sample_is_variable v) by (by intros []).
  split; [exact H1|]. split; [exact H2|]. split; [exact H3|].
  apply (reset_values_surface_at_declaration sample_name sample_expression
           sample_name sample_attribute sample_is_variable sample_list_targets
           sample_group_by_targets (fun _ => ∅) (fun _ _ _ _ => ∅)
           sample_fragment ∅ (fun _ => 7) H1 H2 H3).
Defined.

(** The declarations of a design do change with a reset value when
    [regs_init] is set: the same register with reset 0 and with reset 1. *)
Example reset_value_in_declaration :
  _generate_signals sample_name sample_expression sample_name sample_attribute
    sample_group_by_targets (fun _ => {[sig_q]}) (fun _ _ _ _ => ∅)
    sample_fragment ∅ true
  = "reg  q = 0;" +:+ nl /\
  _generate_signals sample_name sample_expression sample_name sample_attribute
    sample_group_by_targets (fun _ => {[with_reset (fun _ => 1) sig_q]})
    (fun _ _ _ _ => ∅) sample_fragment ∅ true
  = "reg  q = 1;" +:+ nl /\
  _generate_signals sample_name sample_expression sample_name sample_attribute
    sample_group_by_targets (fun _ => {[with_reset (fun _ => 1) sig_q]})
    (fun _ _ _ _ => ∅) sample_fragment ∅ false
  = "reg  q;" +:+ nl.
Proof. split; [by vm_compute|]. split; by vm_compute. Qed.

(* ------------------------------------------------------------------ *)
(** ** A complete conversion                                            *)
(* ------------------------------------------------------------------ *)

(** Stand-ins for the imported collaborators, enough to run [convert] on
    the small designs above. *)
Definition sample_list_clock_domains (f : fragment) : gset string :=
  dom (sync f) ∪ list_to_set (cd_name <$> clock_domains f).

Definition sample_fragment_targets (f : fragment) : gset signal :=
  ⋃ (sample_list_targets <$> comb f) ∪
  ⋃ ((fun kv => ⋃ (sample_list_targets <$> kv.2)) <$> map_to_list (sync f)).

Definition sample_list_signals (f : fragment) : gset signal :=
  list_to_set (fragment_signals f) ∪ list_to_set (clk <$> clock_domains f).

Definition sample_convert (f : fragment) (ios : gset signal)
    (regular_comb regs_init : bool) (date_banner date_trailer : string)
  : outcome ConvOutput :=
  convert unit_operator_bits_sign sample_list_clock_domains id
    (fun f => (f, ∅)) sample_is_variable sample_list_targets
    sample_group_by_targets id sample_fragment_targets sample_list_signals
    (fun _ _ _ _ => ∅) (fun _ _ => sample_name) (fun _ => sample_expression)
    (fun ns s => ns s) (fun _ _ _ => None) (fun _ _ => None) (fun _ _ => None)
    sample_attribute 100 None "0000000" f ios "top" None regular_comb
    regs_init "1ns" "1ps" date_banner date_trailer.

(** The same design with its clocked group moved to a domain that has no
    descriptor. *)
Definition unresolved_fragment : fragment :=
  MkFragment (comb sample_fragment)
    {[ "video" := [Assign (Sig sig_q) (Sig sig_a)] ]}
    ∅ [MkClockDomain "sys" sig_clk None].

Example unresolved_example :
  sample_convert unresolved_fragment {[sig_a]} true true "d1" "d2" =
  Raise (Exception ("Unresolved clock domain video, availables:" +:+ nl +:+
                    "- sys" +:+ nl)).
Proof. by vm_compute. Qed.

Lemma unresolved_clock_domain_aborts_witness :
  (forall k, k ∈ dom (sync unresolved_fragment) ->
     k ∈ sample_list_clock_domains unresolved_fragment) /\
  (exists k, k ∈ dom (sync unresolved_fragment) /\
     clock_domain_lookup (clock_domains unresolved_fragment) k = None) /\
  exists cd,
    cd ∈ sample_list_clock_domains unresolved_fragment /\
    clock_domain_lookup (clock_domains unresolved_fragment) cd = None /\
    sample_convert unresolved_fragment {[sig_a]} true true "d1" "d2" =
    Raise (Exception
             ("Unresolved clock domain " +:+ cd +:+ ", availables:" +:+ nl +:+
              concat_text ((fun d => "- " +:+ cd_name d +:+ nl)
                           <$> clock_domains unresolved_fragment))).
Proof.
  assert (H1 : forall k, k ∈ dom (sync unresolved_fragment) ->
     k ∈ sample_list_clock_domains unresolved_fragment).
  { intros k Hk. apply elem_of_union. by left. }
  assert (H2 : exists k, k ∈ dom (sync unresolved_fragment) /\
     clock_domain_lookup (clock_domains unresolved_fragment) k = None).
  { exists "video". split; [|reflexivity].
    apply elem_of_dom. by eexists. }
  split; [exact H1|]. split; [exact H2|].
  destruct (unresolved_clock_domain_aborts unit_operator_bits_sign
              sample_list_clock_domains id (fun f => (f, ∅)) sample_is_variable
              sample_list_targets sample_group_by_targets id
              sample_fragment_targets sample_list_signals (fun _ _ _ _ => ∅)
              (fun _ _ => sample_name) (fun _ => sample_expression)
              (fun ns s => ns s) (fun _ _ _ => None) (fun _ _ => None)
              (fun _ _ => None) sample_attribute 100 None "0000000"
              unresolved_fragment {[sig_a]} "top" None true true "1ns" "1ps"
              "d1" "d2" H1 H2) as (cd & Hcd & Hnone & _ & Hconv).
  exists cd. split; [exact Hcd|]. split; [exact Hnone|]. exact Hconv.
Defined.


(* ------------------------------------------------------------------ *)
(** ** The specials in the output of a conversion                       *)
(* ------------------------------------------------------------------ *)

Lemma join_fmap_Ok_inv {A} (g : A -> outcome string) (l : list A) text :
  join (g <$> l) = Ok text ->
  exists blocks, Forall2 (fun x b => g x = Ok b) l blocks /\
    text = concat_text blocks.
Proof.
  revert text. induction l as [|x l IH]; intros text.
  - intros [= <-]. exists []. by split.
  - rewrite fmap_cons. cbn [join].
    destruct (g x) as [b| |] eqn:Hx; cbn [obind]; [|done..].
    destruct (join (g <$> l)) as [r| |]; cbn [obind]; [|done..].
    intros [= <-]. destruct (IH r eq_refl) as (blocks & HF & ->).
    exists (b :: blocks). split; [by constructor|done].
Qed.

Lemma lower_complex_slices_specials
    (operator_bits_sign : string -> list (Z * bool) -> Z * bool)
    (first_duid : Z) (f f1 : fragment) :
  lower_complex_slices operator_bits_sign first_duid f = Ok f1 ->
  specials f1 = specials f.
Proof.
  unfold lower_complex_slices.
  destruct (visit_statements _ _ _) as [[comb' st1]| |]; cbn [obind]; [|done..].
  destruct (visit_clock_domains _ _ _) as [[sync' st2]| |]; cbn [obind];
    [|done..].
  by intros [= <-].
Qed.

Section SpecialsInOutput.
Variable operator_bits_sign : string -> list (Z * bool) -> Z * bool.
Variable list_clock_domains : fragment -> gset string.
Variable lower_basics : fragment -> fragment.
Variable lower_specials : fragment -> fragment * gset special.
Variable is_variable : value -> bool.
Variable list_targets : stmt -> gset signal.
Variable group_by_targets : list stmt -> list (gset signal * list stmt).
Variable flat_iteration : list stmt -> list stmt.
Variable fragment_targets : fragment -> gset signal.
Variable list_signals : fragment -> gset signal.
Variable list_special_ios : fragment -> bool -> bool -> bool -> gset signal.
Variable build_signal_namespace : gset signal -> list string -> signal -> string.
Variable _generate_expression : (signal -> string) -> value -> string.
Variable _generate_signal : (signal -> string) -> signal -> string.
Variable _memory_generate_verilog :
  string -> special -> (signal -> string) -> option string.
Variable _instance_generate_verilog :
  special -> (signal -> string) -> option string.
Variable call_special_classmethod_emit_verilog :
  special -> (signal -> string) -> option string.
Variable _generate_attribute : list string -> string.
Variable first_duid : Z.
Variable top_hierarchy : option string.
Variable revision : string.

(** [convert] with the given special emitters. *)
Local Abbreviation convert_with mem inst other :=
  (convert operator_bits_sign list_clock_domains lower_basics lower_specials
     is_variable list_targets group_by_targets flat_iteration fragment_targets
     list_signals list_special_ios build_signal_namespace _generate_expression
     _generate_signal mem inst other _generate_attribute first_duid
     top_hierarchy revision).
Local Abbreviation convert :=
  (convert_with _memory_generate_verilog _instance_generate_verilog
     call_special_classmethod_emit_verilog).

(** The passes of [convert] up to the second [lower_basics]: the fragment
    the text is generated from and the set [lowered_specials]. *)
Definition convert_passes (f : fragment) : outcome (fragment * gset special) :=
  _ <~ verify_clock_domains (clock_domains f)
         (sorted str_le id (elements (list_clock_domains f)));
  f <~ lower_complex_slices operator_bits_sign first_duid f;
  let f := insert_resets f in
  let f := lower_basics f in
  let '(f, lowered_specials) := lower_specials f in
  let f := lower_basics f in
  Ok (f, lowered_specials).

(** The dispatch of [_generate_specials] as [convert] calls it, for the
    module name and a namespace. *)
Definition emit_with
    (mem : string -> special -> (signal -> string) -> option string)
    (inst other : special -> (signal -> string) -> option string)
    (name : string) (names : signal -> string) (sp : special)
  : option string :=
  special_emit (fun sp => mem name sp names) (fun sp => inst sp names)
    (fun sp => other sp names) sp.
Local Abbreviation emit :=
  (emit_with _memory_generate_verilog _instance_generate_verilog
     call_special_classmethod_emit_verilog).

(** The text block of an emitted special: its attribute line, then what
    its emitter returns. *)
Definition special_block (sp : special) (pr : string) : string :=
  match sp_attr sp with
  | Some attr => _generate_attribute attr
  | None => EmptyString
  end +:+ pr.

Lemma convert_returns f ios name platform regular_comb regs_init
    time_unit time_precision date_banner date_trailer :
  returns_or_raises
    (convert f ios name platform regular_comb regs_init time_unit
       time_precision date_banner date_trailer).
Proof.
  unfold_convert.
  destruct (verify_clock_domains _ _) as [[]|e|] eqn:E1; cbn [obind];
    [|done|by destruct (verify_clock_domains_returns _ _ E1)].
  destruct (lower_complex_slices _ _ _) as [f1|e|] eqn:E2; cbn [obind];
    [|done|by destruct (lower_complex_slices_returns _ _ _ E2)].
  destruct (lower_specials _) as [f2 lowered_specials].
  destruct (decide (size ios = 0%nat)) as [Hz|Hz];
    [destruct platform as [p|]; [|done]|]; cbn [obind].
  all: match goal with
  | |- context [obind ?m _] =>
      assert (returns_or_raises m) as Hcomb
        by (destruct regular_comb;
            [apply _generate_combinatorial_logic_synth_returns
            |apply _generate_combinatorial_logic_sim_returns]);
      destruct m as [comb_text|e|]; cbn [obind]; [|done|by destruct Hcomb]
  end.
  all: match goal with
  | |- context [obind ?m _] =>
      assert (returns_or_raises m) as Hsync
        by apply _generate_synchronous_logic_returns;
      destruct m as [sync_text|e|]; cbn [obind]; [|done|by destruct Hsync]
  end.
  all: match goal with
  | |- context [obind ?m _] =>
      assert (returns_or_raises m) as Hspecials
        by apply _generate_specials_returns;
      destruct m as [specials_text|e|]; cbn [obind];
        [done|done|by destruct Hspecials]
  end.
Qed.

End SpecialsInOutput.

(** A design with three specials, and a specials lowering that absorbs
    the tristate and leaves the fragment as it is. *)
Definition specials_fragment : fragment :=
  MkFragment [Assign (Sig sig_y) (Sig sig_a)] ∅
    {[sample_memory; sample_instance; sample_tristate]} [].

Definition sample_lower_specials (f : fragment) : fragment * gset special :=
  (f, {[sample_tristate]}).

(* ================================================================== *)
(** * Further properties of the generator                               *)
(* ================================================================== *)

(* ------------------------------------------------------------------ *)
(** ** The hierarchy comment                                            *)
(* ------------------------------------------------------------------ *)

(** Python's [s.split("\n")]. *)
Fixpoint split_lines (s : string) : list string :=
  match s with
  | EmptyString => [EmptyString]
  | String c s' =>
      if Ascii.eqb c "010"%char then EmptyString :: split_lines s'
      else match split_lines s' with
           | l :: ls => String c l :: ls
           | [] => [String c EmptyString]
           end
  end.

(** Python's [r[:-1]]. *)
Fixpoint drop_last (r : string) : string :=
  match r with
  | EmptyString => EmptyString
  | String c r' =>
      match r' with
      | EmptyString => EmptyString
      | String _ _ => String c (drop_last r')
      end
  end.

(** [_generate_hierarchy(top)], line by line as the source has it: every
    line of the hierarchy text is appended with a line feed, and the last
    character is dropped before the comment is closed. *)
Definition _generate_hierarchy_lines (top : option string) : string :=
  match top with
  | None => EmptyString
  | Some hierarchy =>
      let r := "/*" +:+ nl in
      let r := foldl (fun r l => r +:+ l +:+ nl) r (split_lines hierarchy) in
      let r := drop_last r in
      r +:+ "*/" +:+ nl
  end.

Lemma foldl_append_lines (r : string) (ls : list string) :
  foldl (fun r l => r +:+ l +:+ nl) r ls =
  r +:+ concat_text ((fun l => l +:+ nl) <$> ls).
Proof.
  revert r. induction ls as [|l ls IH]; intros r; simpl.
  - by rewrite append_nil_r.
  - rewrite IH. by rewrite !append_assoc.
Qed.

Lemma split_lines_nonempty s : split_lines s <> [].
Proof.
  destruct s as [|c s]; simpl; [done|].
  destruct (Ascii.eqb c "010"); [done|]. by destruct (split_lines s).
Qed.

(** Rejoining the lines gives the text back, followed by one line feed. *)
Lemma join_split_lines s :
  concat_text ((fun l => l +:+ nl) <$> split_lines s) = s +:+ nl.
Proof.
  induction s as [|c s IH]; [reflexivity|]. simpl.
  destruct (Ascii.eqb c "010") eqn:Hc.
  - apply Ascii.eqb_eq in Hc as ->. rewrite fmap_cons. simpl concat_text.
    rewrite IH. reflexivity.
  - destruct (split_lines s) as [|l ls] eqn:Hs; [by apply split_lines_nonempty in Hs|].
    rewrite fmap_cons in *. simpl concat_text in *.
    change (String c (((l +:+ nl) +:+ concat_text ((fun l => l +:+ nl) <$> ls)))
            = String c (s +:+ nl)).
    by rewrite IH.
Qed.

Lemma drop_last_append_char (r : string) (c : ascii) :
  drop_last (r +:+ String c EmptyString) = r.
Proof.
  induction r as [|x r IH]; [reflexivity|].
  destruct r as [|y r]; [reflexivity|].
  change (String x (drop_last (String y r +:+ String c EmptyString)) =
          String x (String y r)).
  by rewrite IH.
Qed.

Lemma drop_last_nl (r : string) : drop_last (r +:+ nl) = r.
Proof. apply drop_last_append_char. Qed.

(** X1. The loop of [_generate_hierarchy] that splits the hierarchy text
    into lines, ends each with a line feed and drops the last character
    puts the text into the comment unchanged, whatever line feeds it
    holds: the result is the opening, the text, and the closing. *)
Theorem hierarchy_comment_keeps_text (top : option string) :
  _generate_hierarchy_lines top = _generate_hierarchy top /\
  forall hierarchy,
    _generate_hierarchy_lines (Some hierarchy) =
    "/*" +:+ nl +:+ hierarchy +:+ "*/" +:+ nl.
Proof.
  assert (H : forall hierarchy,
    _generate_hierarchy_lines (Some hierarchy) =
    "/*" +:+ nl +:+ hierarchy +:+ "*/" +:+ nl).
  { intros h. unfold _generate_hierarchy_lines.
    rewrite foldl_append_lines, join_split_lines.
    replace (("/*" +:+ nl) +:+ h +:+ nl) with ((("/*" +:+ nl) +:+ h) +:+ nl)
      by (by rewrite !append_assoc).
    rewrite drop_last_nl. by rewrite !append_assoc. }
  split; [|exact H]. destruct top as [h|]; [|reflexivity]. apply H.
Qed.

Example hierarchy_example :
  _generate_hierarchy_lines (Some ("top" +:+ nl +:+ "  sub" +:+ nl)) =
  "/*" +:+ nl +:+ "top" +:+ nl +:+ "  sub" +:+ nl +:+ "*/" +:+ nl /\
  split_lines ("top" +:+ nl +:+ "  sub" +:+ nl) = ["top"; "  sub"; EmptyString].
Proof. by vm_compute. Qed.

(* ------------------------------------------------------------------ *)
(** ** The exceptions of the statement renderer                         *)
(* ------------------------------------------------------------------ *)

(** The type names of the unrecognized nodes of a statement, at any
    depth. *)
Fixpoint unknown_types (s : stmt) : list string :=
  match s with
  | Unknown t => [t]
  | Stmts l => l ≫= unknown_types
  | If _ t f => (t ≫= unknown_types) ++ (f ≫= unknown_types)
  | Case _ cases => cases ≫= (fun '(_, b) => b ≫= unknown_types)
  | Assign _ _ | Display _ _ | Finish => []
  end.

Lemma obind_Raise {A B} (m : outcome A) (k : A -> outcome B) e :
  obind m k = Raise e -> m = Raise e \/ exists a, m = Ok a /\ k a = Raise e.
Proof. destruct m as [a| |]; simpl; [|intros [= ->]; by left|done]. eauto. Qed.

Lemma join_Raise (l : list (outcome string)) e :
  join l = Raise e -> Raise e ∈ l.
Proof.
  induction l as [|m l IH]; simpl; [done|].
  intros [->|(a & -> & H)]%obind_Raise; [left|]. right.
  apply obind_Raise in H as [H|(b & _ & H)]; [by apply IH|done].
Qed.

Lemma default_case_elem {B} (cases : list (case_key * B)) b :
  default_case cases = Some b -> (KDefault, b) ∈ cases.
Proof.
  induction cases as [|[[v w sg|] b'] cases IH]; simpl; [done| |].
  - intros H. right. by apply IH.
  - intros [= ->]. left.
Qed.

Section NodeExceptions.
Variable get_name : signal -> string.
Variable generate_expression : value -> string.
Variable is_variable : value -> bool.
Variable list_targets : stmt -> gset signal.
Local Abbreviation gen :=
  (_generate_node get_name generate_expression is_variable list_targets).

Lemma case_text_Raise level test (cases : list (case_key * outcome string)) e :
  case_text generate_expression level test cases = Raise e ->
  exists kv, kv ∈ cases /\ kv.2 = Raise e.
Proof.
  unfold case_text.
  intros [H|(bs & _ & H)]%obind_Raise.
  - apply join_Raise, list_elem_of_fmap in H as (kv & H & Hkv).
    apply elem_of_sorted, list_elem_of_filter in Hkv as [_ Hkv].
    exists kv. split; [done|]. unfold case_branch in H. symmetry in H.
    apply obind_Raise in H as [H|(b & _ & H)]; done.
  - apply obind_Raise in H as [H|(d & _ & H)]; [|done].
    destruct (default_case cases) as [body|] eqn:Hd; [|done].
    apply default_case_elem in Hd. exists (KDefault, body). split; [done|].
    unfold case_branch in H. apply obind_Raise in H as [H|(b & _ & H)]; done.
Qed.

Definition unrecognized (node : stmt) (e : exn) : Prop :=
  exists t, t ∈ unknown_types node /\
    e = TypeError ("Node of unrecognized type: " +:+ t).

Lemma gen_Stmts_unrecognized at_ level l tf e :
  Forall (fun s => forall level e, gen at_ level s tf = Raise e -> unrecognized s e) l ->
  gen at_ level (Stmts l) tf = Raise e -> unrecognized (Stmts l) e.
Proof.
  intros Hl. rewrite _generate_node_Stmts_filter.
  destruct (filtered_out _ _ _); [done|].
  intros H. apply join_Raise, list_elem_of_fmap in H as (s & H & Hs).
  rewrite Forall_forall in Hl. destruct (Hl s Hs level e) as (t & Ht & ->); [done|].
  exists t. split; [|done]. simpl. apply list_elem_of_bind. by exists s.
Qed.

(** Whatever [_generate_node] raises comes from an unrecognized node of
    the statement. *)
Lemma _generate_node_unrecognized at_ level node target_filter e :
  gen at_ level node target_filter = Raise e -> unrecognized node e.
Proof.
  revert level e.
  induction node as [l r|l IH|c t f IHt IHf|test cases IH|s args| |ty]
    using stmt_nested_ind; intros level e.
  - simpl. by destruct (filtered_out _ _ _).
  - by apply gen_Stmts_unrecognized.
  - rewrite _generate_node_If_filter. destruct (filtered_out _ _ _); [done|].
    intros [H|(rt & _ & H)]%obind_Raise.
    + apply gen_Stmts_unrecognized in H as (ty & Hty & ->); [|done].
      exists ty. split; [|done]. simpl. apply elem_of_app. by left.
    + apply obind_Raise in H as [H|(rf & _ & H)]; [|done].
      destruct f as [|s0 f]; [done|].
      apply obind_Raise in H as [H|(b & _ & H)]; [|done].
      apply gen_Stmts_unrecognized in H as (ty & Hty & ->); [|done].
      exists ty. split; [|done]. simpl. apply elem_of_app. by right.
  - rewrite _generate_node_Case_filter. destruct (filtered_out _ _ _); [done|].
    destruct cases as [|kv0 cases]; [done|].
    intros ([k body] & Hkv & H)%case_text_Raise.
    apply list_elem_of_fmap in Hkv as ([k' b] & [= -> ->] & Hkb).
    rewrite Forall_forall in IH. specialize (IH _ Hkb). simpl in *.
    apply gen_Stmts_unrecognized in H as (ty & Hty & ->); [|done].
    exists ty. split; [|done].
    change (ty ∈ (kv0 :: cases) ≫= (fun '(_, b) => b ≫= unknown_types)).
    apply list_elem_of_bind. by exists (k', b).
  - simpl. by destruct (filtered_out _ _ _).
  - simpl. by destruct (filtered_out _ _ _).
  - simpl. destruct (filtered_out _ _ _); [done|]. intros [= <-].
    exists ty. split; [left|done].
Qed.

(** X2. The only exception [_generate_node] raises is the [TypeError] of an
    unrecognized node, and the node it names occurs in the statement; a
    statement without such a node is always rendered; a node that the
    target filter rejects is rendered as the empty text before its type is
    looked at. *)
Theorem _generate_node_raises_only_unrecognized
    (at_ : AssignType) (level : nat) (node : stmt)
    (target_filter : option signal) :
  (forall e, gen at_ level node target_filter = Raise e ->
     exists t, t ∈ unknown_types node /\
       e = TypeError ("Node of unrecognized type: " +:+ t)) /\
  (unknown_types node = [] ->
     exists text, gen at_ level node target_filter = Ok text) /\
  (filtered_out list_targets target_filter node = true ->
     gen at_ level node target_filter = Ok EmptyString).
Proof.
  assert (Hraise : forall node level e,
            gen at_ level node target_filter = Raise e -> unrecognized node e)
    by (intros; by eapply _generate_node_unrecognized).
  split; [apply Hraise|]. split.
  - intros Hnone.
    destruct (gen at_ level node target_filter) as [text|e|] eqn:E.
    + by exists text.
    + destruct (Hraise _ _ _ E) as (t & Ht & _). rewrite Hnone in Ht.
      by apply elem_of_nil in Ht.
    + by destruct (_generate_node_returns get_name generate_expression
                     list_targets is_variable at_ node level target_filter).
  - intros Hf. destruct node; simpl; by rewrite Hf.
Qed.
End NodeExceptions.

(* ------------------------------------------------------------------ *)
(** ** The per-target map of the simulation emitter                     *)
(* ------------------------------------------------------------------ *)

(** [m.get(t)] on a dict kept as a list of entries. *)
Fixpoint dict_get (t : signal) (m : list (signal * list stmt))
  : option (list stmt) :=
  match m with
  | [] => None
  | (k, v) :: m' => if decide (k = t) then Some v else dict_get t m'
  end.

Lemma dict_get_append t' t s m :
  dict_get t' (dict_append t s m) =
    if decide (t = t') then Some (default [] (dict_get t m) ++ [s])
    else dict_get t' m.
Proof.
  induction m as [|[k v] m IH]; simpl.
  - by destruct (decide (t = t')).
  - destruct (decide (k = t)) as [->|Hk]; simpl.
    + by destruct (decide (t = t')).
    + rewrite IH. destruct (decide (k = t')) as [->|Hk'];
        destruct (decide (t = t')) as [->|Ht]; try done.
Qed.

Lemma dict_append_keys t s m :
  NoDup m.*1 -> NoDup (dict_append t s m).*1 /\
  forall k, k ∈ (dict_append t s m).*1 <-> k = t \/ k ∈ m.*1.
Proof.
  induction m as [|[k v] m IH]; simpl; intros Hnd.
  - split; [apply NoDup_singleton|]. intros k. rewrite list_elem_of_singleton.
    split; [by left|]. intros [?|?%elem_of_nil]; done.
  - apply NoDup_cons in Hnd as [Hk Hnd]. destruct (IH Hnd) as [IH1 IH2].
    destruct (decide (k = t)) as [->|Hkt]; simpl.
    + split; [by apply NoDup_cons|]. intros k'. rewrite elem_of_cons. tauto.
    + split.
      * apply NoDup_cons. split; [|done]. rewrite IH2. intros [?|?]; done.
      * intros k'. rewrite !elem_of_cons, IH2. tauto.
Qed.

Lemma dict_get_Some_key t m v : dict_get t m = Some v -> (t, v) ∈ m.
Proof.
  induction m as [|[k w] m IH]; simpl; [done|].
  destruct (decide (k = t)) as [->|]; [intros [= ->]; left|].
  intros H. right. by apply IH.
Qed.

Lemma dict_get_elem t m v : NoDup m.*1 -> (t, v) ∈ m -> dict_get t m = Some v.
Proof.
  induction m as [|[k w] m IH]; simpl; intros Hnd Hin; [by apply elem_of_nil in Hin|].
  apply NoDup_cons in Hnd as [Hk Hnd].
  apply elem_of_cons in Hin as [[= <- <-]|Hin].
  - by rewrite decide_True.
  - destruct (decide (k = t)) as [->|]; [|by apply IH].
    exfalso. apply Hk. apply list_elem_of_fmap. by exists (t, v).
Qed.

Section TargetStmtMap.
Variable list_targets : stmt -> gset signal.
Variable flat_iteration : list stmt -> list stmt.

(** The statements of [stmts] that have [t] among their targets. *)
Definition statements_of_target (t : signal) (stmts : list stmt) : list stmt :=
  filter (fun s => t ∈ list_targets s) stmts.

(** The map after the statements [stmts] went through the two loops. *)
Definition map_after (stmts : list stmt) (m : list (signal * list stmt))
  : list (signal * list stmt) :=
  foldl (fun m statement =>
           foldl (fun m t => dict_append t statement m) m
                 (elements (list_targets statement)))
        m stmts.

Lemma inner_loop_spec statement (ts : list signal) m :
  NoDup ts -> NoDup m.*1 ->
  let m' := foldl (fun m t => dict_append t statement m) m ts in
  NoDup m'.*1 /\
  forall t, dict_get t m' =
    if decide (t ∈ ts) then Some (default [] (dict_get t m) ++ [statement])
    else dict_get t m.
Proof.
  revert m. induction ts as [|t0 ts IH]; intros m Hts Hm; cbv zeta; cbn [foldl].
  - split; [done|]. intros t.
    destruct (decide (t ∈ [])) as [Hin|]; [by apply elem_of_nil in Hin|done].
  - apply NoDup_cons in Hts as [Ht0 Hts].
    destruct (dict_append_keys t0 statement m Hm) as [Hnd _].
    destruct (IH (dict_append t0 statement m) Hts Hnd) as [H1 H2].
    split; [exact H1|]. intros t. rewrite H2, !dict_get_append.
    repeat case_decide; subst; try done; set_solver.
Qed.

Lemma map_after_spec stmts m :
  NoDup m.*1 ->
  NoDup (map_after stmts m).*1 /\
  forall t, dict_get t (map_after stmts m) =
    match statements_of_target t stmts with
    | [] => dict_get t m
    | s :: l => Some (default [] (dict_get t m) ++ s :: l)
    end.
Proof.
  revert m. induction stmts as [|statement stmts IH]; intros m Hm.
  - split; [done|]. by intros t.
  - change (map_after (statement :: stmts) m) with
      (map_after stmts
         (foldl (fun m t => dict_append t statement m) m
                (elements (list_targets statement)))).
    destruct (inner_loop_spec statement (elements (list_targets statement)) m
                (NoDup_elements _) Hm) as [Hnd Hget].
    destruct (IH _ Hnd) as [IH1 IH2]. split; [exact IH1|].
    intros t. rewrite IH2, Hget. unfold statements_of_target.
    rewrite filter_cons.
    destruct (decide (t ∈ list_targets statement)) as [Hin|Hin];
      (destruct (decide (t ∈ elements (list_targets statement))) as [Hel|Hel];
       [apply elem_of_elements in Hel
       |rewrite elem_of_elements in Hel]); try done.
    destruct (filter _ stmts) as [|s l]; simpl; [done|].
    by rewrite <- app_assoc.
Qed.

(** X3. The map that [_generate_combinatorial_logic_sim] builds holds one
    entry for every signal targeted by some statement of the flattened
    combinatorial list and no other entry; the entry of a signal lists, in
    their order, exactly the statements that have the signal among their
    targets, and it is never empty. *)
Theorem target_stmt_map_entries (comb : list stmt) :
  NoDup (target_stmt_map list_targets flat_iteration comb).*1 /\
  (forall t stmts,
     (t, stmts) ∈ target_stmt_map list_targets flat_iteration comb <->
     stmts = statements_of_target t (flat_iteration comb) /\ stmts <> []) /\
  (forall t,
     t ∈ (target_stmt_map list_targets flat_iteration comb).*1 <->
     exists s, s ∈ flat_iteration comb /\ t ∈ list_targets s).
Proof.
  destruct (map_after_spec (flat_iteration comb) [] (NoDup_nil_2)) as [Hnd Hget].
  change (map_after (flat_iteration comb) []) with
    (target_stmt_map list_targets flat_iteration comb) in *.
  assert (Hentry : forall t stmts,
     (t, stmts) ∈ target_stmt_map list_targets flat_iteration comb <->
     stmts = statements_of_target t (flat_iteration comb) /\ stmts <> []).
  { intros t stmts. split.
    - intros Hin. apply (dict_get_elem _ _ _ Hnd) in Hin.
      rewrite Hget in Hin.
      destruct (statements_of_target t (flat_iteration comb)); [done|].
      by injection Hin as <-.
    - intros [-> Hne]. apply dict_get_Some_key. rewrite Hget.
      by destruct (statements_of_target t (flat_iteration comb)). }
  split; [exact Hnd|]. split; [exact Hentry|].
  intros t. rewrite list_elem_of_fmap. split.
  - intros ([t' stmts] & -> & Hin). apply Hentry in Hin as [-> Hne]. simpl.
    destruct (statements_of_target t' (flat_iteration comb)) as [|s l] eqn:E;
      [done|].
    assert (s ∈ statements_of_target t' (flat_iteration comb)) as Hs
      by (rewrite E; apply elem_of_cons; by left).
    apply list_elem_of_filter in Hs as [Ht Hs]. by exists s.
  - intros (s & Hs & Ht).
    exists (t, statements_of_target t (flat_iteration comb)). split; [done|].
    apply Hentry. split; [done|]. intros Hnil.
    assert (s ∈ statements_of_target t (flat_iteration comb)) as Hin
      by (by apply list_elem_of_filter).
    rewrite Hnil in Hin. by apply elem_of_nil in Hin.
Qed.
End TargetStmtMap.

(* ------------------------------------------------------------------ *)
(** ** Wires and continuous assignments                                 *)
(* ------------------------------------------------------------------ *)

Lemma foldl_union_wires (groups : list (gset signal * list stmt))
    (r : gset signal) (t : signal) :
  t ∈ foldl (fun r g => if _use_wire g.2 then r ∪ g.1 else r) r groups <->
  t ∈ r \/ exists g, g ∈ groups /\ _use_wire g.2 = true /\ t ∈ g.1.
Proof.
  revert r. induction groups as [|g groups IH]; intros r; cbn [foldl].
  - split; [by left|]. intros [?|(g & Hg & _)]; [done|].
    by apply elem_of_nil in Hg.
  - rewrite IH. split.
    + intros [Hr|(g' & Hg' & Hw & Ht)].
      * destruct (_use_wire g.2) eqn:Hw; [|by left].
        apply elem_of_union in Hr as [Hr|Hr]; [by left|].
        right. exists g. split; [left|done].
      * right. exists g'. split; [by right|done].
    + intros [Hr|(g' & Hg' & Hw & Ht)].
      * left. destruct (_use_wire g.2); [|done]. apply elem_of_union. by left.
      * apply elem_of_cons in Hg' as [->|Hg'].
        -- left. rewrite Hw. apply elem_of_union. by right.
        -- right. by exists g'.
Qed.

Section WireFacts.
Variable get_name : signal -> string.
Variable generate_expression : value -> string.
Variable is_variable : value -> bool.
Variable list_targets : stmt -> gset signal.
Variable group_by_targets : list stmt -> list (gset signal * list stmt).

(** X4. A signal is in [_list_comb_wires] exactly when it is a target of a
    group that [_generate_combinatorial_logic_synth] writes as a continuous
    assignment: the group holds a single assignment whose target is not a
    slice, and its text is [assign l = r;]. A group of any other form gives
    a text that opens a procedural block, and adds no wire. *)
Theorem comb_wires_are_continuous_assignments (f : fragment) :
  (forall t,
     t ∈ _list_comb_wires group_by_targets f <->
     exists g l r,
       g ∈ group_by_targets (comb f) /\ t ∈ g.1 /\
       g.2 = [Assign l r] /\ is_Slice l = false /\
       comb_group_synth get_name generate_expression is_variable list_targets g =
         Ok ("assign " +:+ generate_expression l +:+ " = " +:+
             generate_expression r +:+ ";" +:+ nl)) /\
  (forall g,
     g ∈ group_by_targets (comb f) ->
     _use_wire g.2 = false ->
     comb_group_synth get_name generate_expression is_variable list_targets g =
       (body <~ _generate_node get_name generate_expression is_variable
                  list_targets NON_BLOCKING 1 (Stmts g.2) None;
        Ok ("always @(*) begin" +:+ nl +:+
            concat_text (reset_assignment get_name generate_expression
                           <$> sorted str_le get_name (elements g.1)) +:+
            body +:+ "end" +:+ nl))).
Proof.
  split.
  - intros t. unfold _list_comb_wires. rewrite foldl_union_wires. split.
    + intros [Hin|(g & Hg & Hw & Ht)]; [set_solver|].
      apply _use_wire_iff in Hw as Hform. destruct Hform as (l & r & Hg2 & Hl).
      exists g, l, r. repeat (split; [done|]).
      unfold comb_group_synth. rewrite Hw, Hg2. reflexivity.
    + intros (g & l & r & Hg & Ht & Hg2 & Hl & _). right. exists g.
      split; [done|]. split; [|done]. apply _use_wire_iff. by exists l, r.
  - intros g _ Hw. unfold comb_group_synth. by rewrite Hw.
Qed.
End WireFacts.

(* ------------------------------------------------------------------ *)
(** ** Ports and declarations                                           *)
(* ------------------------------------------------------------------ *)

Section PortFacts.
Variable get_name : signal -> string.
Variable generate_expression : value -> string.
Variable generate_signal : signal -> string.
Variable _generate_attribute : list string -> string.
Variable group_by_targets : list stmt -> list (gset signal * list stmt).
Variable fragment_targets : fragment -> gset signal.
Variable list_signals : fragment -> gset signal.
Variable list_special_ios : fragment -> bool -> bool -> bool -> gset signal.
Local Abbreviation port_text := (port_text generate_signal _generate_attribute).
Local Abbreviation ports_text := (ports_text generate_signal _generate_attribute).

(** The [firstp] flag of [_generate_module] puts the separator between the
    ports, as [sep.join] does. *)
Lemma ports_text_concat inouts targets wires (sigs : list signal) :
  ports_text inouts targets wires true sigs =
  String.concat ("," +:+ nl) (port_text inouts targets wires <$> sigs).
Proof.
  destruct sigs as [|x sigs]; [done|].
  change (ports_text inouts targets wires true (x :: sigs)) with
    (EmptyString +:+ port_text inouts targets wires x +:+
     ports_text inouts targets wires false sigs).
  change (EmptyString +:+ ?a) with a.
  revert x. induction sigs as [|y sigs IH]; intros x.
  - apply append_nil_r.
  - change (ports_text inouts targets wires false (y :: sigs)) with
      (("," +:+ nl) +:+ port_text inouts targets wires y +:+
       ports_text inouts targets wires false sigs).
    rewrite IH. reflexivity.
Qed.

(** X5. Every signal of the design is introduced once: the ports of
    [_generate_module] are the signals of [ios], in the order of their
    names and separated by a comma and a line feed (no separator before the
    first or after the last); the declarations of [_generate_signals] are
    the other signals, in the order of their names; no signal is both a port
    and a declaration, none occurs twice, and both use the same set of
    wires. *)
Theorem signals_introduced_once
    (f : fragment) (ios : gset signal) (name : string) (regs_init : bool) :
  let sigs := list_signals f ∪ list_special_ios f true true true in
  let special_outs := list_special_ios f false true true in
  let inouts := list_special_ios f false false true in
  let targets := fragment_targets f ∪ special_outs in
  let wires := _list_comb_wires group_by_targets f ∪ special_outs in
  exists ports decls : list signal,
    ports ≡ₚ elements ios /\
    decls ≡ₚ elements (sigs ∖ ios) /\
    NoDup (ports ++ decls) /\
    (forall s, s ∈ ports ++ decls <-> s ∈ sigs ∪ ios) /\
    Sorted (fun a b => str_le (get_name a) (get_name b)) ports /\
    Sorted (fun a b => str_le (get_name a) (get_name b)) decls /\
    _generate_module get_name generate_signal _generate_attribute
      group_by_targets fragment_targets list_special_ios f ios name =
      "module " +:+ name +:+ " (" +:+ nl +:+
      String.concat ("," +:+ nl) (port_text inouts targets wires <$> ports) +:+
      nl +:+ ");" +:+ nl +:+ nl /\
    _generate_signals get_name generate_expression generate_signal
      _generate_attribute group_by_targets list_signals list_special_ios
      f ios regs_init =
      concat_text
        (signal_declaration generate_expression generate_signal
           _generate_attribute wires regs_init <$> decls).
Proof.
  intros sigs special_outs inouts targets wires.
  exists (sorted str_le get_name (elements ios)),
         (sorted str_le get_name (elements (sigs ∖ ios))).
  split; [apply sorted_Permutation|]. split; [apply sorted_Permutation|].
  split.
  { apply NoDup_app. split; [|split].
    - rewrite sorted_Permutation. apply NoDup_elements.
    - intros s. rewrite !elem_of_sorted, !elem_of_elements. set_solver.
    - rewrite sorted_Permutation. apply NoDup_elements. }
  split.
  { intros s. rewrite elem_of_app, !elem_of_sorted, !elem_of_elements.
    rewrite elem_of_union, elem_of_difference.
    destruct (decide (s ∈ ios)); tauto. }
  split; [apply (sorted_Sorted str_le get_name)|].
  split; [apply (sorted_Sorted str_le get_name)|].
  split; [|reflexivity].
  unfold _generate_module. by rewrite ports_text_concat.
Qed.
End PortFacts.

(* ------------------------------------------------------------------ *)
(** ** What the lowerer leaves alone                                    *)
(* ------------------------------------------------------------------ *)

(** The slices an expression contains, at any depth: operand, start and
    stop. *)
Fixpoint slices_of (v : value) : list (value * Z * Z) :=
  match v with
  | Constant _ _ _ | Sig _ => []
  | Operator _ l => l ≫= slices_of
  | Slice v a b => (v, a, b) :: slices_of v
  | Cat l => l ≫= slices_of
  | Replicate v _ => slices_of v
  end.

(** A slice that takes a proper part of a signal. *)
Definition plain_slice (x : value * Z * Z) : Prop :=
  exists s, x.1.1 = Sig s /\ ~ (x.1.2 = 0 /\ nbits s = x.2 - x.1.2).

Definition value_plain (v : value) : Prop := Forall plain_slice (slices_of v).

Definition stmt_plain (s : stmt) : Prop := Forall value_plain (stmt_values s).

Definition fragment_plain (f : fragment) : Prop :=
  Forall value_plain (fragment_values f).

(** A statement with its expressions blanked: what is left is the nesting
    of the statements, the keys of the cases and the texts to display. *)
Definition blank : value := Constant 0 0 false.

Fixpoint shape (s : stmt) : stmt :=
  match s with
  | Assign _ _ => Assign blank blank
  | Stmts l => Stmts (shape <$> l)
  | If _ t f => If blank (shape <$> t) (shape <$> f)
  | Case _ cases =>
      Case blank ((fun kv : case_key * list stmt =>
                     let '(k, b) := kv in (k, shape <$> b)) <$> cases)
  | Display _ _ | Finish | Unknown _ => s
  end.

Lemma visit_values_id (vis : value -> lstate -> outcome (value * lstate))
    (l : list value) (st : lstate) :
  (forall x st, x ∈ l -> vis x st = Ok (x, st)) ->
  visit_values vis l st = Ok (l, st).
Proof.
  intros Hvis. induction l as [|x l IH]; [done|]. cbn [visit_values].
  rewrite Hvis by left. cbn [obind].
  rewrite IH; [done|]. intros y st' Hy. apply Hvis. by right.
Qed.

Lemma value_plain_list (l : list value) :
  Forall plain_slice (l ≫= slices_of) <-> Forall value_plain l.
Proof. by rewrite Forall_bind. Qed.

Section Plain.
Variable operator_bits_sign : string -> list (Z * bool) -> Z * bool.
Local Abbreviation visit_fuel := (visit_fuel operator_bits_sign).
Local Abbreviation visit := (visit operator_bits_sign).
Local Abbreviation visit_node := (visit_node operator_bits_sign).
Local Abbreviation visit_statements := (visit_statements operator_bits_sign).
Local Abbreviation visit_groups := (visit_groups operator_bits_sign).
Local Abbreviation visit_cases := (visit_cases operator_bits_sign).
Local Abbreviation strip := (strip operator_bits_sign).
Local Abbreviation len := (len operator_bits_sign).

(** The two loops of [visit_Slice] leave a slice of a signal where it is. *)
Lemma strip_Slice_Sig s a b length :
  strip (S (depth (Slice (Sig s) a b))) (Slice (Sig s) a b) 0 length =
  Ok (Sig s, a).
Proof.
  rewrite strip_Slice. cbn [depth narrow _lower_slice_cat _lower_slice_replicate obind].
  rewrite bool_decide_eq_true_2 by done. reflexivity.
Qed.

(** An expression whose slices are plain is returned as it is, and the
    state is not touched. *)
Lemma visit_fuel_plain fuel tc v st :
  (depth v < fuel)%nat -> value_plain v -> visit_fuel fuel tc v st = Ok (v, st).
Proof.
  revert tc v st. induction fuel as [|fuel IH]; intros tc v st Hf Hv; [lia|].
  destruct v as [c w sg|s|op l|v a b|l|v n]; step_visit_fuel.
  - done.
  - done.
  - rewrite visit_values_id; [done|]. intros x st' Hx. apply IH.
    + pose proof (depth_elem x l Hx). cbn [depth] in Hf. lia.
    + unfold value_plain in Hv. cbn [slices_of] in Hv.
      apply value_plain_list in Hv. rewrite Forall_forall in Hv. by apply Hv.
  - unfold value_plain in Hv. cbn [slices_of] in Hv.
    apply Forall_cons in Hv as [(s & Hs & Hpart) _]. simpl in Hs, Hpart. subst v.
    unfold_visit_Slice. rewrite strip_Slice_Sig. cbn [obind].
    assert (len (Slice (Sig s) a b) = b - a) as -> by reflexivity.
    assert (len (Sig s) = nbits s) as -> by reflexivity.
    rewrite bool_decide_eq_false_2 by done. cbn [is_Signal].
    assert (fuel <> O) as Hfuel by (cbn [depth] in Hf; lia).
    destruct fuel as [|fuel]; [done|]. step_visit_fuel. cbn [obind].
    by replace (a + (b - a)) with b by lia.
  - rewrite visit_values_id; [done|]. intros x st' Hx. apply IH.
    + pose proof (depth_elem x l Hx). cbn [depth] in Hf. lia.
    + unfold value_plain in Hv. cbn [slices_of] in Hv.
      apply value_plain_list in Hv. rewrite Forall_forall in Hv. by apply Hv.
  - rewrite IH; [done|cbn [depth] in Hf; lia|done].
Qed.

Lemma visit_plain tc v st : value_plain v -> visit tc v st = Ok (v, st).
Proof. intros. apply visit_fuel_plain; [lia|done]. Qed.
End Plain.

Lemma stmt_plain_list (l : list stmt) :
  Forall value_plain (l ≫= stmt_values) <-> Forall stmt_plain l.
Proof. by rewrite Forall_bind. Qed.

Section PlainStatements.
Variable operator_bits_sign : string -> list (Z * bool) -> Z * bool.
Local Abbreviation visit_fuel := (visit_fuel operator_bits_sign).
Local Abbreviation visit := (visit operator_bits_sign).
Local Abbreviation visit_node := (visit_node operator_bits_sign).
Local Abbreviation visit_statements := (visit_statements operator_bits_sign).
Local Abbreviation visit_groups := (visit_groups operator_bits_sign).
Local Abbreviation visit_cases := (visit_cases operator_bits_sign).
Local Abbreviation strip := (strip operator_bits_sign).
Local Abbreviation len := (len operator_bits_sign).

Lemma visit_statements_id l st :
  Forall (fun s => forall st, visit_node s st = Ok (s, st)) l ->
  visit_statements l st = Ok (l, st).
Proof.
  intros Hl. induction Hl as [|s l Hs _ IH]; [done|].
  step_visit_statements. rewrite Hs. cbn [obind]. by rewrite IH.
Qed.

(** A statement whose slices are plain is returned as it is. *)
Lemma visit_node_plain node st :
  stmt_plain node -> visit_node node st = Ok (node, st).
Proof.
  revert st.
  induction node as [l r|l IH|c t f IHt IHf|test cases IH|s args| |ty]
    using stmt_nested_ind; intros st Hp; try done.
  - unfold stmt_plain in Hp. cbn [stmt_values] in Hp.
    apply Forall_cons in Hp as [Hl Hp]. apply Forall_cons in Hp as [Hr _].
    change (visit_node (Assign l r) st) with (visit_Assign visit l r st).
    unfold visit_Assign. rewrite visit_plain by done. cbn [obind].
    by rewrite visit_plain.
  - rewrite visit_node_Stmts, visit_statements_id; [done|].
    unfold stmt_plain in Hp. cbn [stmt_values] in Hp.
    apply stmt_plain_list in Hp.
    rewrite Forall_forall in IH, Hp. apply Forall_forall. intros s Hs st'.
    apply IH; auto.
  - unfold stmt_plain in Hp. cbn [stmt_values] in Hp.
    apply Forall_cons in Hp as [Hc Hp]. apply Forall_app in Hp as [Ht Hf].
    apply stmt_plain_list in Ht, Hf.
    rewrite visit_node_If, visit_plain by done. cbn [obind fst snd].
    rewrite visit_statements_id.
    2:{ rewrite Forall_forall in IHt, Ht. apply Forall_forall. intros s Hs st'.
        apply IHt; auto. }
    cbn [obind fst snd]. rewrite visit_statements_id; [done|].
    rewrite Forall_forall in IHf, Hf. apply Forall_forall. intros s Hs st'.
    apply IHf; auto.
  - unfold stmt_plain in Hp. cbn [stmt_values] in Hp.
    apply Forall_cons in Hp as [Htest Hp].
    rewrite visit_node_Case.
    assert (visit_cases cases st = Ok (cases, st)) as ->.
    { clear Htest. induction IH as [|[k b] cs Hb _ IHcs]; [done|].
      rewrite bind_cons in Hp. apply Forall_app in Hp as [Hb' Hcs].
      apply stmt_plain_list in Hb'. cbn [visit_cases].
      rewrite visit_statements_id.
      2:{ simpl in Hb. rewrite Forall_forall in Hb, Hb'. apply Forall_forall.
          intros s Hs st'. apply Hb; auto. }
      cbn [obind]. by rewrite IHcs. }
    cbn [obind fst snd]. by rewrite visit_plain.
Qed.

Lemma visit_groups_plain (items : list (string * list stmt)) st :
  Forall (fun kv => Forall stmt_plain kv.2) items ->
  visit_groups items st = Ok (items, st).
Proof.
  intros Hp. induction Hp as [|[k v] items Hv _ IH]; [done|].
  step_visit_groups. rewrite visit_statements_id.
  2:{ simpl in Hv. eapply Forall_impl; [exact Hv|]. intros s Hs st'.
      by apply visit_node_plain. }
  cbn [obind]. by rewrite IH.
Qed.
End PlainStatements.

Section PlainResult.
Variable operator_bits_sign : string -> list (Z * bool) -> Z * bool.
Variable first_duid : Z.
Local Abbreviation visit_fuel := (visit_fuel operator_bits_sign).
Local Abbreviation visit := (visit operator_bits_sign).
Local Abbreviation visit_node := (visit_node operator_bits_sign).
Local Abbreviation visit_statements := (visit_statements operator_bits_sign).
Local Abbreviation visit_groups := (visit_groups operator_bits_sign).
Local Abbreviation visit_cases := (visit_cases operator_bits_sign).
Local Abbreviation strip := (strip operator_bits_sign).
Local Abbreviation len := (len operator_bits_sign).

(** An assignment between a proxy and the expression it stands for. *)
Definition proxy_assign (s : stmt) : Prop :=
  exists p v, slice_proxy_from first_duid p /\
    (s = Assign (Sig p) v \/ s = Assign v (Sig p)).

Definition lstate_plain (st : lstate) : Prop :=
  first_duid <= next_duid st /\
  Forall (fun s => stmt_plain s /\ proxy_assign s) (lcomb st).

(** What a call leaves behind when it returns. *)
Definition leaves {A} (good : A -> Prop) (r : outcome (A * lstate)) : Prop :=
  match r with
  | Ok (a, st') => good a /\ lstate_plain st'
  | _ => True
  end.

Lemma leaves_bind {A B} (good : A -> Prop) (good' : B -> Prop)
    (m : outcome (A * lstate)) (k : A * lstate -> outcome (B * lstate)) :
  leaves good m ->
  (forall a st, good a -> lstate_plain st -> leaves good' (k (a, st))) ->
  leaves good' (obind m k).
Proof.
  destruct m as [[a st]|e|]; simpl; [|done..].
  intros [Ha Hst] Hk. by apply Hk.
Qed.

Lemma visit_values_leaves vis (l : list value) st :
  (forall x st, lstate_plain st -> leaves value_plain (vis x st)) ->
  lstate_plain st ->
  leaves (Forall value_plain) (visit_values vis l st).
Proof.
  intros Hvis. revert st. induction l as [|x l IH]; intros st Hst; simpl; [done|].
  eapply leaves_bind; [by apply Hvis|]. intros x' st1 Hx' Hst1.
  eapply leaves_bind; [by apply IH|]. intros l' st2 Hl' Hst2.
  simpl. split; [by constructor|done].
Qed.

Lemma value_plain_Slice_Sig s a b :
  ~ (a = 0 /\ nbits s = b - a) -> value_plain (Slice (Sig s) a b).
Proof.
  intros H. unfold value_plain. cbn [slices_of].
  apply Forall_cons_2; [|constructor]. by exists s.
Qed.

Lemma visit_fuel_leaves fuel tc node st :
  lstate_plain st -> leaves value_plain (visit_fuel fuel tc node st).
Proof.
  revert tc node st. induction fuel as [|fuel IH]; intros tc node st Hst; [done|].
  destruct node as [c w sg|s|op l|v a b|l|v n]; step_visit_fuel.
  - split; [constructor|done].
  - split; [constructor|done].
  - eapply leaves_bind; [apply visit_values_leaves; [|done]; intros; by apply IH|].
    intros l' st1 Hl' Hst1. simpl. split; [|done]. by apply value_plain_list.
  - unfold_visit_Slice.
    set (length := len (Slice v a b)).
    destruct (strip (S (depth (Slice v a b))) (Slice v a b) 0 length)
      as [[n' s']|e|]; cbn [obind]; [|done..].
    case_bool_decide as Hwhole; [by apply IH|].
    destruct (decide (fuel = O)) as [->|Hfuel].
    { destruct (is_Signal n'); [done|]. by destruct tc. }
    destruct (is_Signal n') eqn:Hsig.
    { destruct n' as [|s| | | |]; try done.
      rewrite (visit_fuel_Sig operator_bits_sign) by done. cbn [obind].
      split; [|done]. apply value_plain_Slice_Sig.
      intros [H1 H2]. apply Hwhole. split; [done|].
      change (len (Sig s)) with (nbits s). lia. }
    destruct (new_Signal (value_bits_sign operator_bits_sign n') st)
      as [slice_proxy st0] eqn:Hnew.
    unfold new_Signal in Hnew. injection Hnew as Hproxy Hst0.
    assert (slice_proxy_from first_duid slice_proxy) as Hfrom.
    { exists (next_duid st), (value_bits_sign operator_bits_sign n').
      split; [by destruct Hst|]. by rewrite <- Hproxy. }
    assert (nbits slice_proxy = len n') as Hbits by (by rewrite <- Hproxy).
    assert (lstate_plain st0) as Hst0'.
    { rewrite <- Hst0. destruct Hst. split; simpl; [lia|done]. }
    assert (value_plain (Slice (Sig slice_proxy) s' (s' + length))) as Hres.
    { apply value_plain_Slice_Sig. intros [H1 H2]. apply Hwhole.
      split; [done|]. lia. }
    assert (forall asg st1,
              stmt_plain asg /\ proxy_assign asg -> lstate_plain st1 ->
              lstate_plain (comb_append asg st1)) as Happend.
    { intros asg st1 Hasg [Hd1 Hc1]. split; [done|].
      cbn [lcomb comb_append]. apply Forall_app. split; [done|].
      by apply Forall_singleton. }
    destruct tc.
    + eapply (leaves_bind (fun a => stmt_plain a /\ proxy_assign a)).
      { unfold visit_Assign.
        eapply leaves_bind; [by apply IH|]. intros lhs st1 Hlhs Hst1.
        rewrite (visit_fuel_Sig operator_bits_sign) by done. cbn [obind].
        split; [|done]. split.
        - unfold stmt_plain. cbn [stmt_values].
          apply Forall_cons_2; [done|].
          apply Forall_cons_2; [constructor|]. constructor.
        - exists slice_proxy, lhs. split; [done|]. by right. }
      intros asg st1 Hasg Hst1. cbn beta iota zeta.
      rewrite (visit_fuel_Sig operator_bits_sign) by done. cbn [obind].
      split; [done|]. by apply Happend.
    + eapply (leaves_bind (fun a => stmt_plain a /\ proxy_assign a)).
      { unfold visit_Assign.
        rewrite (visit_fuel_Sig operator_bits_sign) by done. cbn [obind].
        eapply leaves_bind; [by apply IH|]. intros rhs st1 Hrhs Hst1.
        cbn [obind]. split; [|done]. split.
        - unfold stmt_plain. cbn [stmt_values].
          apply Forall_cons_2; [constructor|].
          apply Forall_cons_2; [done|]. constructor.
        - exists slice_proxy, rhs. split; [done|]. by left. }
      intros asg st1 Hasg Hst1. cbn beta iota zeta.
      rewrite (visit_fuel_Sig operator_bits_sign) by done. cbn [obind].
      split; [done|]. by apply Happend.
  - eapply leaves_bind; [apply visit_values_leaves; [|done]; intros; by apply IH|].
    intros l' st1 Hl' Hst1. simpl. split; [|done]. by apply value_plain_list.
  - eapply leaves_bind; [by apply IH|]. intros v' st1 Hv' Hst1. by split.
Qed.
End PlainResult.

Lemma list_to_map_sorted (m : gmap string (list stmt)) :
  list_to_map (sorted str_le fst (map_to_list m)) = m.
Proof.
  rewrite <- (list_to_map_to_list m) at 2. apply list_to_map_proper.
  - rewrite sorted_Permutation. apply NoDup_fst_map_to_list.
  - apply sorted_Permutation.
Qed.

(** The cases of a [Case] with their expressions blanked. *)
Definition shape_cases (cases : list (case_key * list stmt))
  : list (case_key * list stmt) :=
  (fun kv : case_key * list stmt => let '(k, b) := kv in (k, shape <$> b))
    <$> cases.

(** A group of [f.sync] with its expressions blanked. *)
Definition shape_group (kv : string * list stmt) : string * list stmt :=
  (kv.1, shape <$> kv.2).

Section PlainFragment.
Variable operator_bits_sign : string -> list (Z * bool) -> Z * bool.
Variable first_duid : Z.
Local Abbreviation visit := (visit operator_bits_sign).
Local Abbreviation visit_node := (visit_node operator_bits_sign).
Local Abbreviation visit_statements := (visit_statements operator_bits_sign).
Local Abbreviation visit_groups := (visit_groups operator_bits_sign).
Local Abbreviation visit_cases := (visit_cases operator_bits_sign).
Local Abbreviation lstate_plain := (lstate_plain first_duid).

Lemma visit_leaves tc node st :
  lstate_plain st -> leaves first_duid value_plain (visit tc node st).
Proof. apply visit_fuel_leaves. Qed.

Lemma visit_statements_leaves l st :
  Forall (fun s => forall st, lstate_plain st ->
            leaves first_duid (fun s' => stmt_plain s' /\ shape s' = shape s)
              (visit_node s st)) l ->
  lstate_plain st ->
  leaves first_duid
    (fun l' => Forall stmt_plain l' /\ shape <$> l' = shape <$> l)
    (visit_statements l st).
Proof.
  intros Hl. revert st. induction Hl as [|s l Hs _ IH]; intros st Hst.
  - simpl. split; [split; [constructor|done]|done].
  - step_visit_statements.
    eapply leaves_bind; [by apply Hs|]. intros s' st1 [Hs1 Hs2] Hst1.
    eapply leaves_bind; [by apply IH|]. intros l' st2 [Hl1 Hl2] Hst2.
    split; [|done]. split; [by constructor|]. rewrite !fmap_cons.
    by rewrite Hs2, Hl2.
Qed.

(** A statement comes back with plain slices and the shape it had. *)
Lemma visit_node_leaves node st :
  lstate_plain st ->
  leaves first_duid (fun s' => stmt_plain s' /\ shape s' = shape node)
    (visit_node node st).
Proof.
  revert st.
  induction node as [l r|l IH|c t f IHt IHf|test cases IH|s args| |ty]
    using stmt_nested_ind; intros st Hst.
  - change (visit_node (Assign l r) st) with (visit_Assign visit l r st).
    unfold visit_Assign.
    eapply leaves_bind; [by apply visit_leaves|]. intros lhs st1 Hlhs Hst1.
    eapply leaves_bind; [by apply visit_leaves|]. intros rhs st2 Hrhs Hst2.
    simpl. split; [|done]. split; [|done]. unfold stmt_plain. simpl.
    repeat (apply Forall_cons_2; [done|]). constructor.
  - rewrite visit_node_Stmts.
    eapply leaves_bind; [by apply visit_statements_leaves|].
    intros l' st1 [Hl1 Hl2] Hst1. split; [|done]. split.
    + by apply stmt_plain_list.
    + cbn [shape fst]. by rewrite Hl2.
  - rewrite visit_node_If.
    eapply leaves_bind; [by apply visit_leaves|]. intros c' st1 Hc' Hst1.
    eapply leaves_bind; [by apply visit_statements_leaves|].
    intros t' st2 [Ht1 Ht2] Hst2.
    eapply leaves_bind; [by apply visit_statements_leaves|].
    intros f' st3 [Hf1 Hf2] Hst3. split; [|done]. split.
    + unfold stmt_plain. cbn [stmt_values fst]. apply Forall_cons_2; [done|].
      apply Forall_app. split; by apply stmt_plain_list.
    + cbn [shape fst]. by rewrite Ht2, Hf2.
  - rewrite visit_node_Case.
    eapply (leaves_bind first_duid
              (fun cs' => Forall (fun kv => Forall stmt_plain kv.2) cs' /\
                          shape_cases cs' = shape_cases cases)).
    { revert st Hst. induction IH as [|[k b] cs Hb _ IHcs]; intros st Hst.
      - simpl. split; [split; [constructor|done]|done].
      - cbn [visit_cases].
        eapply leaves_bind; [by apply visit_statements_leaves|].
        intros b' st1 [Hb1 Hb2] Hst1.
        eapply leaves_bind; [by apply IHcs|]. intros cs' st2 [Hc1 Hc2] Hst2.
        split; [|done]. split; [by constructor|].
        unfold shape_cases in *. rewrite !fmap_cons. by rewrite Hb2, Hc2. }
    intros cases' st1 [Hc1 Hc2] Hst1.
    eapply leaves_bind; [by apply visit_leaves|]. intros test' st2 Htest' Hst2.
    split; [|done]. split.
    + unfold stmt_plain. cbn [stmt_values fst]. apply Forall_cons_2; [done|].
      apply Forall_bind. eapply Forall_impl; [exact Hc1|].
      intros [k b] Hb. by apply stmt_plain_list.
    + cbn [shape fst]. f_equal. exact Hc2.
  - simpl. split; [|done]. split; [constructor|done].
  - simpl. split; [|done]. split; [constructor|done].
  - simpl. split; [|done]. split; [constructor|done].
Qed.

Lemma visit_statements_leaves' l st :
  lstate_plain st ->
  leaves first_duid
    (fun l' => Forall stmt_plain l' /\ shape <$> l' = shape <$> l)
    (visit_statements l st).
Proof.
  apply visit_statements_leaves. apply Forall_forall. intros s _ st'.
  apply visit_node_leaves.
Qed.

Lemma visit_groups_leaves (items : list (string * list stmt)) st :
  lstate_plain st ->
  leaves first_duid
    (fun items' =>
       Forall (fun kv => Forall stmt_plain kv.2) items' /\
       shape_group <$> items' = shape_group <$> items)
    (visit_groups items st).
Proof.
  revert st. induction items as [|[k v] items IH]; intros st Hst.
  - simpl. split; [split; [constructor|done]|done].
  - step_visit_groups.
    eapply leaves_bind; [by apply visit_statements_leaves'|].
    intros v' st1 [Hv1 Hv2] Hst1.
    eapply leaves_bind; [by apply IH|]. intros items' st2 [Hi1 Hi2] Hst2.
    split; [|done]. split; [by constructor|].
    rewrite !fmap_cons. unfold shape_group at 1 3. cbn [fst snd].
    by rewrite Hv2, Hi2.
Qed.
End PlainFragment.

(** [f.sync] with its expressions blanked. *)
Definition shape_sync (m : gmap string (list stmt)) : gmap string (list stmt) :=
  (fun l : list stmt => shape <$> l) <$> m.

Section LoweringFacts.
Variable operator_bits_sign : string -> list (Z * bool) -> Z * bool.
Local Abbreviation lower_complex_slices :=
  (lower_complex_slices operator_bits_sign).

(** A fragment whose slices are plain goes through the pass unchanged: no
    proxy is made and nothing is appended to [comb]. *)
Lemma lower_complex_slices_plain first_duid f :
  fragment_plain f -> lower_complex_slices first_duid f = Ok f.
Proof.
  intros Hp. unfold fragment_plain, fragment_values in Hp.
  apply Forall_app in Hp as [Hc Hs]. apply stmt_plain_list in Hc.
  rewrite Forall_bind in Hs.
  unfold lower_complex_slices.
  rewrite visit_statements_id.
  2:{ eapply Forall_impl; [exact Hc|]. intros s Hs' st.
      by apply visit_node_plain. }
  cbn [obind]. unfold visit_clock_domains. rewrite visit_groups_plain.
  2:{ apply Forall_forall. intros kv Hkv. apply elem_of_sorted in Hkv.
      rewrite Forall_forall in Hs. specialize (Hs kv Hkv).
      by apply stmt_plain_list. }
  cbn [obind lcomb]. rewrite list_to_map_sorted, app_nil_r. by destruct f.
Qed.

(** What the pass returns: the visited statements of [comb] followed by
    the assignments of the proxies, and the visited groups of [sync]. *)
Lemma lower_complex_slices_result first_duid f f' :
  lower_complex_slices first_duid f = Ok f' ->
  exists visited appended items',
    f' = MkFragment (visited ++ appended) (list_to_map items')
           (specials f) (clock_domains f) /\
    Forall stmt_plain visited /\
    shape <$> visited = shape <$> comb f /\
    Forall (fun s => stmt_plain s /\ proxy_assign first_duid s) appended /\
    Forall (fun kv => Forall stmt_plain kv.2) items' /\
    shape_group <$> items' =
      shape_group <$> sorted str_le fst (map_to_list (sync f)).
Proof.
  unfold lower_complex_slices.
  assert (lstate_plain first_duid (MkLState first_duid [])) as Hst0.
  { split; simpl; [lia|constructor]. }
  pose proof (visit_statements_leaves' operator_bits_sign first_duid
                (comb f) _ Hst0) as H1.
  destruct (visit_statements operator_bits_sign (comb f)
              (MkLState first_duid [])) as [[comb' st1]|e|]; [|done..].
  destruct H1 as [[Hc1 Hc2] Hst1]. cbn [obind]. unfold visit_clock_domains.
  pose proof (visit_groups_leaves operator_bits_sign first_duid
                (sorted str_le fst (map_to_list (sync f))) st1 Hst1) as H2.
  destruct (visit_groups operator_bits_sign
              (sorted str_le fst (map_to_list (sync f))) st1)
    as [[items' st2]|e|]; [|done..].
  destruct H2 as [[Hi1 Hi2] [_ Hst2]]. cbn [obind]. intros [= <-].
  by exists comb', (lcomb st2), items'.
Qed.

(** X6. [lower_complex_slices] is idempotent. A fragment in which every
    slice takes a proper part of a signal is returned as it is (no proxy is
    made, nothing is appended to [comb]); whatever fragment the pass
    returns is of that kind; so a second pass, from whatever value of the
    [duid] counter, returns its input. *)
Theorem lower_complex_slices_idempotent (first_duid : Z) (f : fragment) :
  (fragment_plain f -> lower_complex_slices first_duid f = Ok f) /\
  (forall f', lower_complex_slices first_duid f = Ok f' ->
     fragment_plain f' /\
     forall first_duid', lower_complex_slices first_duid' f' = Ok f').
Proof.
  split; [apply lower_complex_slices_plain|].
  intros f' Hf'.
  assert (fragment_plain f') as Hplain.
  { apply lower_complex_slices_result in Hf'
      as (visited & appended & items' & -> & Hv & _ & Ha & Hi & _).
    unfold fragment_plain, fragment_values. cbn [comb sync].
    apply Forall_app. split.
    - apply stmt_plain_list, Forall_app. split; [done|].
      eapply Forall_impl; [exact Ha|]. by intros s [Hs _].
    - apply Forall_bind, Forall_forall. intros [k v] Hkv.
      apply elem_of_map_to_list, elem_of_list_to_map_2 in Hkv.
      rewrite Forall_forall in Hi. specialize (Hi _ Hkv).
      by apply stmt_plain_list. }
  split; [done|]. intros d'. by apply lower_complex_slices_plain.
Qed.

(** X7. The pass rewrites expressions only. The fragment it returns has the
    specials and the clock domains of its input; [sync] has the same groups
    with statements of the same shape (same nesting, same case keys, same
    display texts); [comb] is the input's statements, of the same shape and
    in the same order, followed by the assignments the pass made, each of
    which connects a proxy signal created by the pass with the expression
    it stands for. *)
Theorem lower_complex_slices_frame (first_duid : Z) (f f' : fragment) :
  lower_complex_slices first_duid f = Ok f' ->
  specials f' = specials f /\
  clock_domains f' = clock_domains f /\
  shape_sync (sync f') = shape_sync (sync f) /\
  exists visited appended : list stmt,
    comb f' = visited ++ appended /\
    shape <$> visited = shape <$> comb f /\
    Forall (proxy_assign first_duid) appended.
Proof.
  intros (visited & appended & items' & -> & _ & Hv & Ha & _ & Hi)
    %lower_complex_slices_result.
  cbn [specials clock_domains sync comb]. split; [done|]. split; [done|].
  split.
  - rewrite <- (list_to_map_sorted (sync f)) at 1. unfold shape_sync.
    rewrite <- !list_to_map_fmap.
    change (prod_map id (fun l : list stmt => shape <$> l)) with shape_group.
    by rewrite Hi.
  - exists visited, appended. split; [done|]. split; [done|].
    eapply Forall_impl; [exact Ha|]. by intros s [_ Hs].
Qed.
End LoweringFacts.

Lemma lower_complex_slices_frame_witness :
  let f := MkFragment
             [Assign (Sig sig_y) (Slice (Cat [Sig sig_a; Sig sig_b]) 3 5)]
             ∅ ∅ [] in
  let f' := MkFragment
              [Assign (Sig sig_y) (Slice (Sig (plain_signal 10 8)) 3 5);
               Assign (Sig (plain_signal 10 8)) (Cat [Sig sig_a; Sig sig_b])]
              ∅ ∅ [] in
  lower_complex_slices unit_operator_bits_sign 10 f = Ok f' /\
  specials f' = specials f /\
  clock_domains f' = clock_domains f /\
  shape_sync (sync f') = shape_sync (sync f) /\
  exists visited appended : list stmt,
    comb f' = visited ++ appended /\
    shape <$> visited = shape <$> comb f /\
    Forall (proxy_assign 10) appended.
Proof.
  split; [vm_compute; reflexivity|].
  apply (lower_complex_slices_frame unit_operator_bits_sign 10).
  vm_compute. reflexivity.
Defined.
